(** * A shallow embedding of the xdB document store (src/xdb-full/xdb.js)

    The store keeps every collection as a JSON array in a file, writes files
    atomically through a temporary sibling, keeps per-field inverted indexes
    in files of their own, and applies relation policies on delete.

    The file system is a finite map from resolved paths to file contents.
    Every primitive file operation (stat, readFile, mkdir, open, writeFile,
    sync, close, rename, unlink, copyFile, rm) is numbered; the world carries
    a fault plan listing the numbers of the operations that fail with an
    I/O error, so that the error paths of the code can be run.  Every
    operation that is performed is appended to a trace, together with the
    events emitted and the relation-cache clears.

    Numbers are modelled as integers ([Z]); JavaScript floating point is not
    modelled.  Reading a property of [null] throws a TypeError, which the
    error handlers of the operations turn into their generic error
    (IO_ERROR, or OPERATION_FAILED in [view.more]).  [Array.prototype.sort] gives the
    stable sorted order for a comparator that is consistent on the array
    (ECMA-262 fixes the result then) and V8's TimSort order otherwise.

    The process is single-threaded in this model.  The relation checks of a
    delete each issue their (read-only) [view.more] before any of them goes
    on, as the async functions pushed to the check list do; their
    continuations, and the other branches of [Promise.all], then run one
    after the other in declaration order.  A lock that is already held makes
    [acquireLock] fail with its timeout error instead of waiting. *)

From stdpp Require Import base gmap strings list sorting.
From Stdlib Require Import ZArith String Ascii Bool.
From stdpp Require Import pretty.

Open Scope string_scope.
Set Warnings "-register-all".

(* ------------------------------------------------------------------ *)
(** ** JSON values and JavaScript objects *)

Inductive jval : Type :=
| JNull
| JBool (b : bool)
| JNum (n : Z)
| JStr (s : string)
| JArr (xs : list jval)
| JObj (fs : list (string * jval)).

(** A JavaScript object: own properties in insertion order. *)
Abbreviation obj := (list (string * jval)).

Fixpoint get_own (o : obj) (k : string) : option jval :=
  match o with
  | [] => None
  | (k', v) :: o' => if String.eqb k k' then Some v else get_own o' k
  end.

Definition hasOwnProperty (o : obj) (k : string) : bool :=
  match get_own o k with Some _ => true | None => false end.

(** [o[k] = v]: an existing own property is overwritten in place, a new
    one is appended. *)
Fixpoint set_prop (o : obj) (k : string) (v : jval) : obj :=
  match o with
  | [] => [(k, v)]
  | (k', v') :: o' =>
      if String.eqb k k' then (k, v) :: o' else (k', v') :: set_prop o' k v
  end.

(** [delete o[k]] *)
Definition delete_prop (o : obj) (k : string) : obj :=
  List.filter (fun '(k', _) => negb (String.eqb k k')) o.

(** [{...o, ...p}]: the own properties of [p] assigned onto a copy of [o]. *)
Definition spread (o p : obj) : obj :=
  fold_left (fun acc '(k, v) => set_prop acc k v) p o.

(** The members every plain object inherits from [Object.prototype]. *)
Definition object_prototype_members : list string :=
  ["constructor"; "__defineGetter__"; "__defineSetter__"; "hasOwnProperty";
   "__lookupGetter__"; "__lookupSetter__"; "isPrototypeOf";
   "propertyIsEnumerable"; "toString"; "valueOf"; "__proto__";
   "toLocaleString"].

(** The string-keyed members of [String.prototype], [Array.prototype],
    [Number.prototype] and [Boolean.prototype] (Node.js 22), apart from
    [length], which strings and arrays have as an own property. *)
Definition string_prototype_members : list string :=
  ["constructor"; "anchor"; "at"; "big"; "blink"; "bold"; "charAt";
   "charCodeAt"; "codePointAt"; "concat"; "endsWith"; "fontcolor"; "fontsize";
   "fixed"; "includes"; "indexOf"; "isWellFormed"; "italics"; "lastIndexOf";
   "link"; "localeCompare"; "match"; "matchAll"; "normalize"; "padEnd";
   "padStart"; "repeat"; "replace"; "replaceAll"; "search"; "slice"; "small";
   "split"; "strike"; "sub"; "substr"; "substring"; "sup"; "startsWith";
   "toString"; "toWellFormed"; "trim"; "trimStart"; "trimLeft"; "trimEnd";
   "trimRight"; "toLocaleLowerCase"; "toLocaleUpperCase"; "toLowerCase";
   "toUpperCase"; "valueOf"].

Definition array_prototype_members : list string :=
  ["constructor"; "at"; "concat"; "copyWithin"; "fill"; "find"; "findIndex";
   "findLast"; "findLastIndex"; "lastIndexOf"; "pop"; "push"; "reverse";
   "shift"; "unshift"; "slice"; "sort"; "splice"; "includes"; "indexOf";
   "join"; "keys"; "entries"; "values"; "forEach"; "filter"; "flat";
   "flatMap"; "map"; "every"; "some"; "reduce"; "reduceRight";
   "toLocaleString"; "toString"; "toReversed"; "toSorted"; "toSpliced";
   "with"].

Definition number_prototype_members : list string :=
  ["constructor"; "toExponential"; "toFixed"; "toPrecision"; "toString";
   "toLocaleString"; "valueOf"].

Definition boolean_prototype_members : list string :=
  ["constructor"; "toString"; "valueOf"].

(** The prototype a value reads its inherited members through. *)
Inductive proto_owner : Type :=
| OwnerObject | OwnerString | OwnerNumber | OwnerBoolean | OwnerArray.

(** The result of a property read [r[k]]. *)
Inductive jsv : Type :=
| JV (v : jval)
  (* an own data property, or an element or the length of a string or array *)
| JProto (owner : proto_owner) (name : string)
  (* the member [name] inherited by a value whose prototype is the one of
     [owner] (found on that prototype or, further up, on Object.prototype) *)
| JUndef.

Definition proto_get (owner : proto_owner) (members : list string) (k : string)
  : jsv :=
  if existsb (String.eqb k) (members ++ object_prototype_members)
  then JProto owner k else JUndef.

Definition obj_get (o : obj) (k : string) : jsv :=
  match get_own o k with
  | Some v => JV v
  | None =>
      if existsb (String.eqb k) object_prototype_members then JProto OwnerObject k
      else JUndef
  end.

Fixpoint digits_to_Z (s : string) (acc : Z) : option Z :=
  match s with
  | EmptyString => Some acc
  | String c s' =>
      let n := nat_of_ascii c in
      if ((48 <=? n) && (n <=? 57))%nat
      then digits_to_Z s' (acc * 10 + Z.of_nat (n - 48))%Z
      else None
  end.

(** A canonical array index: ["0"], or decimal digits without a leading
    zero. *)
Definition array_index (k : string) : option Z :=
  match k with
  | EmptyString => None
  | String c k' =>
      if Ascii.eqb c "0" then (if String.eqb k' "" then Some 0%Z else None)
      else digits_to_Z k 0
  end.

(** A property read [r[k]] on a value [r] that is not [null]: an own
    property of an object, an element or the length of a string or an
    array, or else a member inherited from the value's prototype.  On
    [null] the read throws a [TypeError]; the code paths that can meet a
    [null] record read through [read_field] below, which fails there. *)
Definition field (r : jval) (k : string) : jsv :=
  match r with
  | JObj o => obj_get o k
  | JStr s =>
      if String.eqb k "length" then JV (JNum (Z.of_nat (String.length s)))
      else match array_index k with
           | Some i =>
               if (i <? Z.of_nat (String.length s))%Z then
                 match String.get (Z.to_nat i) s with
                 | Some c => JV (JStr (String c EmptyString))
                 | None => JUndef
                 end
               else proto_get OwnerString string_prototype_members k
           | None => proto_get OwnerString string_prototype_members k
           end
  | JArr xs =>
      if String.eqb k "length" then JV (JNum (Z.of_nat (length xs)))
      else match array_index k with
           | Some i =>
               if (i <? Z.of_nat (length xs))%Z then
                 match xs !! Z.to_nat i with Some x => JV x | None => JUndef end
               else proto_get OwnerArray array_prototype_members k
           | None => proto_get OwnerArray array_prototype_members k
           end
  | JNum _ => proto_get OwnerNumber number_prototype_members k
  | JBool _ => proto_get OwnerBoolean boolean_prototype_members k
  | JNull => JUndef
  end.

(** [r[k]], with [None] for the [TypeError] a read on [null] throws. *)
Definition read_field (r : jval) (k : string) : option jsv :=
  match r with JNull => None | _ => Some (field r k) end.

Definition truthy (x : jsv) : bool :=
  match x with
  | JV JNull | JV (JBool false) | JUndef => false
  | JV (JNum n) => negb (Z.eqb n 0)
  | JV (JStr s) => negb (String.eqb s "")
  | _ => true
  end.

Fixpoint join_with (sep : string) (xs : list string) : string :=
  match xs with
  | [] => ""
  | [x] => x
  | x :: xs' => x ++ sep ++ join_with sep xs'
  end.

(** [String(v)] *)
Fixpoint js_String (v : jval) : string :=
  match v with
  | JNull => "null"
  | JBool true => "true"
  | JBool false => "false"
  | JNum n => pretty n
  | JStr s => s
  | JArr xs =>
      join_with ","
        (map (fun x => match x with JNull => "" | _ => js_String x end) xs)
  | JObj _ => "[object Object]"
  end.

Definition constructor_name (owner : proto_owner) : string :=
  match owner with
  | OwnerObject => "Object" | OwnerString => "String" | OwnerNumber => "Number"
  | OwnerBoolean => "Boolean" | OwnerArray => "Array"
  end.

(** [String(p)] for the prototype object itself (its [__proto__] member
    read through a value): [Object.prototype] prints as an object, the
    others convert through their [valueOf]/[toString]. *)
Definition prototype_string (owner : proto_owner) : string :=
  match owner with
  | OwnerObject => "[object Object]" | OwnerString => "" | OwnerNumber => "0"
  | OwnerBoolean => "false" | OwnerArray => ""
  end.

(** The [name] of an inherited function: [constructor] is the constructor
    of the prototype, [trimLeft] and [trimRight] are the functions
    [trimStart] and [trimEnd]. *)
Definition member_function_name (owner : proto_owner) (k : string) : string :=
  if String.eqb k "constructor" then constructor_name owner
  else if String.eqb k "trimLeft" then "trimStart"
  else if String.eqb k "trimRight" then "trimEnd"
  else k.

(** [String(f)] of a built-in function in V8. *)
Definition native_function (name : string) : string :=
  "function " ++ name ++ "() { [native code] }".

Definition js_String_v (x : jsv) : string :=
  match x with
  | JV v => js_String v
  | JProto owner k =>
      if String.eqb k "__proto__" then prototype_string owner
      else native_function (member_function_name owner k)
  | JUndef => "undefined"
  end.

(** [String(record.id)] on a record that is not [null]. *)
Definition rec_id (r : jval) : string := js_String_v (field r "id").

(** [String(record.id)], with [None] for the [TypeError] on [null]. *)
Definition read_id (r : jval) : option string :=
  match r with JNull => None | _ => Some (rec_id r) end.

(* ------------------------------------------------------------------ *)
(** ** Strings and paths *)

Definition ends_with (suf s : string) : bool :=
  (String.length suf <=? String.length s)%nat &&
  String.eqb (String.substring (String.length s - String.length suf)
                (String.length suf) s) suf.

Definition ascii_lower (c : ascii) : ascii :=
  let n := nat_of_ascii c in
  if ((65 <=? n) && (n <=? 90))%nat then ascii_of_nat (n + 32) else c.

Fixpoint to_lower (s : string) : string :=
  match s with
  | EmptyString => EmptyString
  | String c s' => String (ascii_lower c) (to_lower s')
  end.

(** Everything after the last ["/"]. *)
Fixpoint basename_aux (s acc : string) : string :=
  match s with
  | EmptyString => acc
  | String c s' =>
      if Ascii.eqb c "/"%char then basename_aux s' "" else basename_aux s' (acc ++ String c "")
  end.
Definition basename (s : string) : string := basename_aux s "".

(** Everything before the last ["/"]. *)
Definition dirname (s : string) : string :=
  let b := basename s in
  String.substring 0 (String.length s - String.length b - 1) s.

Definition ensureJsonExtension (filePath : string) : string :=
  if ends_with ".json" (to_lower filePath) then filePath
  else filePath ++ ".json".

(* ------------------------------------------------------------------ *)
(** ** Errors *)

(** A thrown error, by its [code] property ([None] for a plain [TypeError]). *)
Inductive xerr : Type := XErr (code : option string).

Definition FILE_NOT_FOUND := "XDB_FILE_NOT_FOUND".
Definition DIR_NOT_FOUND := "XDB_DIR_NOT_FOUND".
Definition IO_ERROR := "XDB_IO_ERROR".
Definition INVALID_JSON := "XDB_INVALID_JSON".
Definition RECORD_NOT_FOUND := "XDB_RECORD_NOT_FOUND".
Definition RECORD_EXISTS := "XDB_RECORD_EXISTS".
Definition OPERATION_FAILED := "XDB_OPERATION_FAILED".
Definition INVALID_CONFIG := "XDB_INVALID_CONFIG".
Definition INVALID_SCHEMA := "XDB_INVALID_SCHEMA".

Definition XDB_ERROR_CODES : list string :=
  [FILE_NOT_FOUND; DIR_NOT_FOUND; IO_ERROR; INVALID_JSON; RECORD_NOT_FOUND;
   RECORD_EXISTS; OPERATION_FAILED; INVALID_CONFIG; INVALID_SCHEMA].

Definition createXdbError (code : string) : xerr := XErr (Some code).
Definition TypeError : xerr := XErr None.

(** [error.code && Object.values(XDB_ERROR_CODES).includes(error.code)] *)
Definition is_xdb_error (e : xerr) : bool :=
  match e with
  | XErr (Some c) => existsb (String.eqb c) XDB_ERROR_CODES
  | XErr None => false
  end.

(** [error.code || fallback] *)
Definition code_or (e : xerr) (fallback : string) : string :=
  match e with
  | XErr (Some c) => if String.eqb c "" then fallback else c
  | XErr None => fallback
  end.

Definition err_is (e : xerr) (c : string) : bool :=
  match e with XErr (Some c') => String.eqb c c' | _ => false end.

(* ------------------------------------------------------------------ *)
(** ** The world and the state/error monad *)

Inductive content : Type :=
| Text (v : jval)   (* a file holding [JSON.stringify(v)] *)
| Torn.             (* a file whose text is not valid JSON *)

Inductive effect : Type :=
| EStat (p : string) | ERead (p : string) | EMkdir (p : string)
| EOpen (p : string) | EWrite (p : string) | ESync (p : string)
| EClose (p : string) | ERename (src dst : string) | EUnlink (p : string)
| ECopy (src dst : string) | ERm (dir : string)
| EEmit (event : string) | EClearCache.

(** The files an effect modifies. *)
Definition eff_targets (e : effect) : list string :=
  match e with
  | EOpen p | EWrite p | EUnlink p | ERm p => [p]
  | ERename src dst => [src; dst]
  | ECopy _ dst => [dst]
  | _ => []
  end.

Record world : Type := mkWorld {
  w_files : gmap string content;
  w_locks : list string;        (* fileLocks: the paths currently held *)
  w_gen : nat -> string;        (* successive values of _xdToken(16) *)
  w_gen_i : nat;
  w_clock : nat;                (* Date.now() + Math.random() for temp names *)
  w_ops : nat;                  (* number of the next primitive operation *)
  w_faults : list nat;          (* primitive operations that fail *)
  w_trace : list effect
}.

Definition set_files (w : world) (fs : gmap string content) : world :=
  mkWorld fs w.(w_locks) w.(w_gen) w.(w_gen_i) w.(w_clock) w.(w_ops) w.(w_faults) w.(w_trace).
Definition set_locks (w : world) (ls : list string) : world :=
  mkWorld w.(w_files) ls w.(w_gen) w.(w_gen_i) w.(w_clock) w.(w_ops) w.(w_faults) w.(w_trace).
Definition next_gen (w : world) : world :=
  mkWorld w.(w_files) w.(w_locks) w.(w_gen) (S w.(w_gen_i)) w.(w_clock) w.(w_ops) w.(w_faults) w.(w_trace).
Definition next_clock (w : world) : world :=
  mkWorld w.(w_files) w.(w_locks) w.(w_gen) w.(w_gen_i) (S w.(w_clock)) w.(w_ops) w.(w_faults) w.(w_trace).
Definition next_op (w : world) : world :=
  mkWorld w.(w_files) w.(w_locks) w.(w_gen) w.(w_gen_i) w.(w_clock) (S w.(w_ops)) w.(w_faults) w.(w_trace).
Definition record_eff (w : world) (e : effect) : world :=
  mkWorld w.(w_files) w.(w_locks) w.(w_gen) w.(w_gen_i) w.(w_clock) w.(w_ops) w.(w_faults) (w.(w_trace) ++ [e]).

Inductive res (A : Type) : Type := Ok (a : A) | Err (e : xerr).
Arguments Ok {A} a.
Arguments Err {A} e.

Definition M (A : Type) : Type := world -> res A * world.

Global Instance M_ret : MRet M := fun A a w => (Ok a, w).
Global Instance M_bind : MBind M := fun A B k m w =>
  match m w with
  | (Ok a, w') => k a w'
  | (Err e, w') => (Err e, w')
  end.

Global Instance M_fmap : FMap M := fun A B f m => m ≫= fun a => mret (f a).

Definition throw {A} (e : xerr) : M A := fun w => (Err e, w).

(** [try { m } catch (e) { h(e) }] *)
Definition catch {A} (m : M A) (h : xerr -> M A) : M A := fun w =>
  match m w with
  | (Err e, w') => h e w'
  | r => r
  end.

(** [try { m } finally { f }] *)
Definition finally {A} (m : M A) (f : M unit) : M A := fun w =>
  match m w with
  | (r, w') =>
      match f w' with
      | (Ok _, w'') => (r, w'')
      | (Err e, w'') => (Err e, w'')
      end
  end.

Definition get_world : M world := fun w => (Ok w, w).
Definition emit (event : string) : M unit := fun w => (Ok tt, record_eff w (EEmit event)).
Definition clearRelationCache : M unit := fun w => (Ok tt, record_eff w EClearCache).

(** One value of [_xdToken(DEFAULT_XDB_ID_LENGTH)]. *)
Definition xdToken : M string := fun w => (Ok (w.(w_gen) w.(w_gen_i)), next_gen w).

Definition faulty (w : world) : bool := existsb (Nat.eqb w.(w_ops)) w.(w_faults).

Definition EIO : xerr := XErr (Some "EIO").
Definition ENOENT : xerr := XErr (Some "ENOENT").

(** A primitive file-system operation: it takes the next operation number,
    fails with [EIO] when the fault plan says so, and is otherwise recorded
    in the trace and run. *)
Definition io {A} (e : effect) (act : world -> res A * world) : M A := fun w =>
  if faulty w then (Err EIO, next_op w) else act (record_eff (next_op w) e).

Fixpoint for_each {A} (xs : list A) (f : A -> M unit) : M unit :=
  match xs with
  | [] => mret tt
  | x :: xs' => f x ;; for_each xs' f
  end.

(* ------------------------------------------------------------------ *)
(** ** Configuration *)

(** A relation definition after [validateRelationConfig]: file names carry
    their [.json] suffix and [onDelete] is upper case. *)
Record relation : Type := mkRelation {
  rel_type : string;               (* "1:1", "1:N" or "N:M" *)
  localFile : string;
  localField : string;
  foreignFile : string;
  foreignField : string;
  junctionFile : string;
  junctionLocalField : string;
  junctionForeignField : string;
  onDelete : string                (* "RESTRICT", "CASCADE" or "SET_NULL" *)
}.

(** The module-level settings of xdb.js that the operations read. *)
Record config : Type := mkConfig {
  basePath : string;
  enableBackup : bool;
  backupExtension : string;
  backupOnWriteOnly : bool;
  backupOnAdd : bool;
  backupOnEdit : bool;
  backupOnDelete : bool;
  indexConfig : list (string * list string);
  relationDefinitions : list (string * relation)   (* in insertion order *)
}.

Fixpoint assoc {A} (k : string) (l : list (string * A)) : option A :=
  match l with
  | [] => None
  | (k', v) :: l' => if String.eqb k k' then Some v else assoc k l'
  end.

(** Everything strictly inside directory [dir]. *)
Definition under (dir p : string) : bool := String.prefix (dir ++ "/") p.

(** Substring test of [String.prototype.includes]. *)
Definition str_includes (s sub : string) : bool :=
  match String.index 0 sub s with Some _ => true | None => false end.

(** [Array.prototype.includes(recordId)] on an array of JSON values. *)
Definition jstr_eq (r : string) (v : jval) : bool :=
  match v with JStr s => String.eqb s r | _ => false end.

(* ------------------------------------------------------------------ *)
(** ** [Array.prototype.sort]

    ECMA-262 fixes the result of [sort] when the comparator is consistent
    on the elements (a total preorder: [cmp a b] and [cmp b a] have
    opposite signs, and [cmp a b <= 0], [cmp b c <= 0] give
    [cmp a c <= 0]): the sort is stable, so the result is the unique stable
    sorted permutation, which [insert_by] computes.  For any other
    comparator the order is the one of the engine: V8's TimSort below.  A
    comparator that throws makes the sort throw ([None]). *)

Definition consistent_on (cmp : jval -> jval -> option Z) (l : list jval) : bool :=
  forallb (fun a => forallb (fun b =>
    match cmp a b, cmp b a with
    | Some x, Some y =>
        Z.eqb (Z.sgn x) (- Z.sgn y) &&
        forallb (fun c =>
          match cmp b c, cmp a c with
          | Some y', Some z => implb ((x <=? 0) && (y' <=? 0))%Z (z <=? 0)%Z
          | _, _ => false
          end) l
    | _, _ => false
    end) l) l.

(** Insertion that places [x] after every element that does not compare
    greater. *)
Fixpoint insert_by (cmp : jval -> jval -> Z) (x : jval) (l : list jval) : list jval :=
  match l with
  | [] => [x]
  | y :: l' => if (cmp y x <=? 0)%Z then y :: insert_by cmp x l' else x :: l
  end.

Definition insertion_sort (cmp : jval -> jval -> Z) (l : list jval) : list jval :=
  fold_left (fun acc x => insert_by cmp x acc) l [].

Module TimSort.
Section TimSort.
Local Open Scope list_scope.

(** The comparator; [None] is a throw. *)
Variable cmp : jval -> jval -> option Z.

Definition at_ (l : list jval) (i : nat) : jval := default JNull (l !! i).

Definition last_ (l : list jval) : jval := at_ l (length l - 1).

Definition slice_ (l : list jval) (base len : nat) : list jval :=
  take len (drop base l).

(** [l] with the elements from [base] on replaced by [seg]. *)
Definition replace_ (l : list jval) (base : nat) (seg : list jval) : list jval :=
  take base l ++ seg ++ drop (base + length seg) l.

Definition kMinGallopWins : nat := 7.

(** [ComputeMinRunLength] *)
Fixpoint min_run_loop (fuel n r : nat) : nat :=
  match fuel with
  | O => n + r
  | S f =>
      if (64 <=? n)%nat then min_run_loop f (Nat.div2 n) (if Nat.odd n then 1 else r)
      else n + r
  end.

Definition compute_min_run (n : nat) : nat := min_run_loop n n 0.

(** The exponential search of the gallops: [probe ofs] tells whether the
    search stops at [ofs]; the result is [(lastOfs, offset)]. *)
Fixpoint gallop_loop (fuel : nat) (probe : nat -> option bool)
  (lastOfs offset maxOfs : nat) : option (nat * nat) :=
  match fuel with
  | O => Some (lastOfs, offset)
  | S f =>
      if (offset <? maxOfs)%nat then
        stop ← probe offset;
        if (stop : bool) then Some (lastOfs, offset)
        else gallop_loop f probe offset (2 * offset + 1) maxOfs
      else Some (lastOfs, offset)
  end.

(** The binary search that ends a gallop: [go_right m] moves [lastOfs]
    past [m], otherwise [offset] becomes [m]. *)
Fixpoint gallop_search (fuel : nat) (go_right : nat -> option bool)
  (lo offset : nat) : option nat :=
  match fuel with
  | O => Some offset
  | S f =>
      if (lo <? offset)%nat then
        let m := lo + (offset - lo) / 2 in
        r ← go_right m;
        if (r : bool) then gallop_search f go_right (S m) offset
        else gallop_search f go_right lo m
      else Some offset
  end.

(** [GallopLeft(run, key, hint)]: the position of the leftmost place
    where [key] could be inserted in the sorted [run]. *)
Definition gallop_left (key : jval) (run : list jval) (hint : nat) : option nat :=
  let n := length run in
  order ← cmp (at_ run hint) key;
  bounds ←
    (if (order <? 0)%Z then
       let maxOfs := n - hint in
       lo_of ← gallop_loop (S n)
                 (fun ofs => o ← cmp (at_ run (hint + ofs)) key; Some (0 <=? o)%Z)
                 0 1 maxOfs;
       let '(lastOfs, offset) := lo_of in
       let offset := Nat.min offset maxOfs in
       Some (lastOfs + hint + 1, offset + hint)
     else
       let maxOfs := hint + 1 in
       lo_of ← gallop_loop (S n)
                 (fun ofs => o ← cmp (at_ run (hint - ofs)) key; Some (o <? 0)%Z)
                 0 1 maxOfs;
       let '(lastOfs, offset) := lo_of in
       let offset := Nat.min offset maxOfs in
       Some (hint + 1 - offset, hint - lastOfs));
  let '(lo, offset) := bounds in
  gallop_search (S n) (fun m => o ← cmp (at_ run m) key; Some (o <? 0)%Z) lo offset.

(** [GallopRight(run, key, hint)]: the position of the rightmost place
    where [key] could be inserted in the sorted [run]. *)
Definition gallop_right (key : jval) (run : list jval) (hint : nat) : option nat :=
  let n := length run in
  order ← cmp key (at_ run hint);
  bounds ←
    (if (order <? 0)%Z then
       let maxOfs := hint + 1 in
       lo_of ← gallop_loop (S n)
                 (fun ofs => o ← cmp key (at_ run (hint - ofs)); Some (0 <=? o)%Z)
                 0 1 maxOfs;
       let '(lastOfs, offset) := lo_of in
       let offset := Nat.min offset maxOfs in
       Some (hint + 1 - offset, hint - lastOfs)
     else
       let maxOfs := n - hint in
       lo_of ← gallop_loop (S n)
                 (fun ofs => o ← cmp key (at_ run (hint + ofs)); Some (o <? 0)%Z)
                 0 1 maxOfs;
       let '(lastOfs, offset) := lo_of in
       let offset := Nat.min offset maxOfs in
       Some (lastOfs + hint + 1, offset + hint));
  let '(lo, offset) := bounds in
  gallop_search (S n) (fun m => o ← cmp key (at_ run m); Some (negb (o <? 0)%Z)) lo offset.

(** The ways [MergeLow] and [MergeHigh] leave their main loops. *)
Inductive merge_exit : Type :=
| Succeed   (* one side is exhausted *)
| CopyRest. (* the copied side has one element left *)

(** [MergeLow(A, B)], [A] not longer than [B], as a function of the
    remaining part [ta] of the copy of [A], the remaining part [bs] of [B]
    and the output [out] so far.  [inner] is the one-pair-at-a-time loop
    and [gallop] the galloping loop. *)
Fixpoint merge_lo_inner (fuel : nat) (ta bs out : list jval) (mg winsA winsB : nat)
  : option (merge_exit * list jval * list jval * list jval * nat) :=
  match fuel with
  | O => None
  | S f =>
      match ta, bs with
      | a :: ta', b :: bs' =>
          order ← cmp b a;
          if (order <? 0)%Z then
            let out := out ++ [b] in
            if bool_decide (bs' = []) then Some (Succeed, ta, bs', out, mg)
            else if (mg <=? S winsB)%nat then merge_lo_gallop f true ta bs' out (S mg) 0 (S winsB)
            else merge_lo_inner f ta bs' out mg 0 (S winsB)
          else
            let out := out ++ [a] in
            if (length ta' =? 1)%nat then Some (CopyRest, ta', bs, out, mg)
            else if (mg <=? S winsA)%nat then merge_lo_gallop f true ta' bs out (S mg) (S winsA) 0
            else merge_lo_inner f ta' bs out mg (S winsA) 0
      | _, _ => None
      end
  end
with merge_lo_gallop (fuel : nat) (first : bool) (ta bs out : list jval) (mg winsA winsB : nat)
  : option (merge_exit * list jval * list jval * list jval * nat) :=
  match fuel with
  | O => None
  | S f =>
      if first || (kMinGallopWins <=? winsA)%nat || (kMinGallopWins <=? winsB)%nat then
        let mg := Nat.max 1 (mg - 1) in
        k ← gallop_right (at_ bs 0) ta 0;
        let out := out ++ take k ta in
        let ta := drop k ta in
        if (0 <? k)%nat && (length ta =? 1)%nat then Some (CopyRest, ta, bs, out, mg)
        else if (0 <? k)%nat && (length ta =? 0)%nat then Some (Succeed, ta, bs, out, mg)
        else
          let out := out ++ [at_ bs 0] in
          let bs := drop 1 bs in
          if bool_decide (bs = []) then Some (Succeed, ta, bs, out, mg) else
          k' ← gallop_left (at_ ta 0) bs 0;
          let out := out ++ take k' bs in
          let bs := drop k' bs in
          if (0 <? k')%nat && bool_decide (bs = []) then Some (Succeed, ta, bs, out, mg)
          else
            let out := out ++ [at_ ta 0] in
            let ta := drop 1 ta in
            if (length ta =? 1)%nat then Some (CopyRest, ta, bs, out, mg)
            else merge_lo_gallop f false ta bs out mg k k'
      else merge_lo_inner f ta bs out (S mg) 0 0
  end.

Definition merge_lo (a b : list jval) (mg : nat) : option (list jval * nat) :=
  let fuel := 4 * (length a + length b) + 4 in
  let out := [at_ b 0] in
  let bs := drop 1 b in
  r ← (if bool_decide (bs = []) then Some (Succeed, a, bs, out, mg)
       else if (length a =? 1)%nat then Some (CopyRest, a, bs, out, mg)
       else merge_lo_inner fuel a bs out mg 0 0);
  let '(exit, ta, bs, out, mg) := r in
  match exit with
  | Succeed => Some (out ++ ta ++ bs, mg)
  | CopyRest => Some (out ++ bs ++ ta, mg)
  end.

(** [MergeHigh(A, B)], [B] shorter than [A], mirrored: [ra] is the
    remaining part of [A], [tb] the remaining part of the copy of [B], and
    [out] the output so far, which ends the merged run. *)
Fixpoint merge_hi_inner (fuel : nat) (ra tb out : list jval) (mg winsA winsB : nat)
  : option (merge_exit * list jval * list jval * list jval * nat) :=
  match fuel with
  | O => None
  | S f =>
      if bool_decide (ra = []) || bool_decide (tb = []) then None else
      let a := last_ ra in
      let b := last_ tb in
      order ← cmp b a;
      if (order <? 0)%Z then
        let out := a :: out in
        let ra := take (length ra - 1) ra in
        if bool_decide (ra = []) then Some (Succeed, ra, tb, out, mg)
        else if (mg <=? S winsA)%nat then merge_hi_gallop f true ra tb out (S mg) (S winsA) 0
        else merge_hi_inner f ra tb out mg (S winsA) 0
      else
        let out := b :: out in
        let tb := take (length tb - 1) tb in
        if (length tb =? 1)%nat then Some (CopyRest, ra, tb, out, mg)
        else if (mg <=? S winsB)%nat then merge_hi_gallop f true ra tb out (S mg) 0 (S winsB)
        else merge_hi_inner f ra tb out mg 0 (S winsB)
  end
with merge_hi_gallop (fuel : nat) (first : bool) (ra tb out : list jval) (mg winsA winsB : nat)
  : option (merge_exit * list jval * list jval * list jval * nat) :=
  match fuel with
  | O => None
  | S f =>
      if first || (kMinGallopWins <=? winsA)%nat || (kMinGallopWins <=? winsB)%nat then
        let mg := Nat.max 1 (mg - 1) in
        k ← gallop_right (last_ tb) ra (length ra - 1);
        let winsA := length ra - k in
        let out := drop k ra ++ out in
        let ra := take k ra in
        if (0 <? winsA)%nat && bool_decide (ra = []) then Some (Succeed, ra, tb, out, mg)
        else
          let out := last_ tb :: out in
          let tb := take (length tb - 1) tb in
          if (length tb =? 1)%nat then Some (CopyRest, ra, tb, out, mg) else
          k' ← gallop_left (last_ ra) tb (length tb - 1);
          let winsB := length tb - k' in
          let out := drop k' tb ++ out in
          let tb := take k' tb in
          if (0 <? winsB)%nat && (length tb =? 1)%nat then Some (CopyRest, ra, tb, out, mg)
          else if (0 <? winsB)%nat && bool_decide (tb = []) then Some (Succeed, ra, tb, out, mg)
          else
            let out := last_ ra :: out in
            let ra := take (length ra - 1) ra in
            if bool_decide (ra = []) then Some (Succeed, ra, tb, out, mg)
            else merge_hi_gallop f false ra tb out mg winsA winsB
      else merge_hi_inner f ra tb out (S mg) 0 0
  end.

Definition merge_hi (a b : list jval) (mg : nat) : option (list jval * nat) :=
  let fuel := 4 * (length a + length b) + 4 in
  let out := [last_ a] in
  let ra := take (length a - 1) a in
  r ← (if bool_decide (ra = []) then Some (Succeed, ra, b, out, mg)
       else if (length b =? 1)%nat then Some (CopyRest, ra, b, out, mg)
       else merge_hi_inner fuel ra b out mg 0 0);
  let '(exit, ra, tb, out, mg) := r in
  match exit with
  | Succeed => Some (ra ++ tb ++ out, mg)
  | CopyRest => Some (tb ++ ra ++ out, mg)
  end.

(** The sort state: the work array, the pending runs [(base, length)]
    from the bottom of the stack to its top, and [minGallop]. *)
Record sort_state : Type := mkSortState {
  st_array : list jval;
  st_runs : list (nat * nat);
  st_min_gallop : nat
}.

Definition run_at (runs : list (nat * nat)) (i : nat) : nat * nat :=
  default (0%nat, 0%nat) (runs !! i).

Definition run_len (runs : list (nat * nat)) (i : nat) : nat := (run_at runs i).2.

(** [MergeAt(i)]: merges the runs [i] and [i + 1]. *)
Definition merge_at (s : sort_state) (i : nat) : option sort_state :=
  let runs := s.(st_runs) in
  let '(baseA, lenA) := run_at runs i in
  let '(baseB, lenB) := run_at runs (S i) in
  let runs' := take i runs ++ [(baseA, lenA + lenB)] ++ drop (S (S i)) runs in
  let arr := s.(st_array) in
  let A := slice_ arr baseA lenA in
  let B := slice_ arr baseB lenB in
  k ← gallop_right (at_ B 0) A 0;
  let A := drop k A in
  if bool_decide (A = []) then Some (mkSortState arr runs' s.(st_min_gallop)) else
  lenB' ← gallop_left (last_ A) B (lenB - 1);
  if (lenB' =? 0)%nat then Some (mkSortState arr runs' s.(st_min_gallop)) else
  let B := take lenB' B in
  merged ← (if (length A <=? lenB')%nat then merge_lo A B s.(st_min_gallop)
            else merge_hi A B s.(st_min_gallop));
  let '(seg, mg) := merged in
  Some (mkSortState (replace_ arr (baseA + k) seg) runs' mg).

(** [RunInvariantEstablished(runs, n)] *)
Definition run_invariant (runs : list (nat * nat)) (n : nat) : bool :=
  if (n <? 2)%nat then true
  else (run_len runs (n - 1) + run_len runs n <? run_len runs (n - 2))%nat.

(** [MergeCollapse] *)
Fixpoint merge_collapse (fuel : nat) (s : sort_state) : option sort_state :=
  match fuel with
  | O => Some s
  | S f =>
      let runs := s.(st_runs) in
      if (length runs <=? 1)%nat then Some s else
      let n := length runs - 2 in
      if negb (run_invariant runs (S n)) || negb (run_invariant runs n) then
        let n := if (run_len runs (n - 1) <? run_len runs (S n))%nat then n - 1 else n in
        s ← merge_at s n; merge_collapse f s
      else if (run_len runs n <=? run_len runs (S n))%nat then
        s ← merge_at s n; merge_collapse f s
      else Some s
  end.

(** [MergeForceCollapse] *)
Fixpoint merge_force_collapse (fuel : nat) (s : sort_state) : option sort_state :=
  match fuel with
  | O => Some s
  | S f =>
      let runs := s.(st_runs) in
      if (length runs <=? 1)%nat then Some s else
      let n := length runs - 2 in
      let n := if (0 <? n)%nat && (run_len runs (n - 1) <? run_len runs (S n))%nat
               then n - 1 else n in
      s ← merge_at s n; merge_force_collapse f s
  end.

(** [CountAndMakeRun(lowArg, high)]: the length of the run starting at
    [lowArg]; a strictly descending run is reversed in place. *)
Fixpoint run_loop (fuel : nat) (arr : list jval) (desc : bool) (idx high : nat)
  (prev : jval) (len : nat) : option nat :=
  match fuel with
  | O => Some len
  | S f =>
      if (idx <? high)%nat then
        let cur := at_ arr idx in
        order ← cmp cur prev;
        if (if desc then (0 <=? order)%Z else (order <? 0)%Z) then Some len
        else run_loop f arr desc (S idx) high cur (S len)
      else Some len
  end.

Definition count_and_make_run (arr : list jval) (lowArg high : nat)
  : option (list jval * nat) :=
  let low := S lowArg in
  if (low =? high)%nat then Some (arr, 1%nat) else
  order ← cmp (at_ arr low) (at_ arr lowArg);
  let desc := (order <? 0)%Z in
  len ← run_loop high arr desc (S low) high (at_ arr low) 2;
  if desc then Some (replace_ arr lowArg (rev (slice_ arr lowArg len)), len)
  else Some (arr, len).

(** [BinaryInsertionSort(low, startArg, high)] *)
Fixpoint binary_search (fuel : nat) (arr : list jval) (pivot : jval) (left right : nat)
  : option nat :=
  match fuel with
  | O => Some left
  | S f =>
      if (left <? right)%nat then
        let mid := left + (right - left) / 2 in
        order ← cmp pivot (at_ arr mid);
        if (order <? 0)%Z then binary_search f arr pivot left mid
        else binary_search f arr pivot (S mid) right
      else Some left
  end.

Fixpoint binary_insertion_loop (fuel : nat) (arr : list jval) (low start high : nat)
  : option (list jval) :=
  match fuel with
  | O => Some arr
  | S f =>
      if (start <? high)%nat then
        let pivot := at_ arr start in
        left ← binary_search (S start) arr pivot low start;
        let arr := replace_ arr left (pivot :: slice_ arr left (start - left)) in
        binary_insertion_loop f arr low (S start) high
      else Some arr
  end.

Definition binary_insertion_sort (arr : list jval) (low startArg high : nat)
  : option (list jval) :=
  let start := if (low =? startArg)%nat then S startArg else startArg in
  binary_insertion_loop high arr low start high.

(** The main loop of [ArrayTimSortImpl]. *)
Fixpoint sort_loop (fuel : nat) (minRun : nat) (s : sort_state) (low remaining : nat)
  : option sort_state :=
  match fuel with
  | O => Some s
  | S f =>
      if (remaining =? 0)%nat then Some s else
      r ← count_and_make_run s.(st_array) low (low + remaining);
      let '(arr, currentRunLength) := r in
      r' ← (if (currentRunLength <? minRun)%nat then
              let forced := Nat.min minRun remaining in
              arr ← binary_insertion_sort arr low (low + currentRunLength) (low + forced);
              Some (arr, forced)
            else Some (arr, currentRunLength));
      let '(arr, runLen) := r' in
      s ← merge_collapse (S (length arr))
            (mkSortState arr (s.(st_runs) ++ [(low, runLen)]) s.(st_min_gallop));
      sort_loop f minRun s (low + runLen) (remaining - runLen)
  end.

Definition timsort (l : list jval) : option (list jval) :=
  let n := length l in
  if (n <? 2)%nat then Some l else
  s ← sort_loop (S n) (compute_min_run n) (mkSortState l [] kMinGallopWins) 0 n;
  s ← merge_force_collapse (S n) s;
  Some s.(st_array).

End TimSort.
End TimSort.

Section Store.

Context (cfg : config).

Definition isBackupEnabled : bool := cfg.(enableBackup).
Definition isBackupOnWriteOnly : bool := cfg.(backupOnWriteOnly).
Definition isBackupOnAddEnabled : bool :=
  cfg.(enableBackup) && negb cfg.(backupOnWriteOnly) && cfg.(backupOnAdd).
Definition isBackupOnEditEnabled : bool :=
  cfg.(enableBackup) && negb cfg.(backupOnWriteOnly) && cfg.(backupOnEdit).
Definition isBackupOnDeleteEnabled : bool :=
  cfg.(enableBackup) && negb cfg.(backupOnWriteOnly) && cfg.(backupOnDelete).

Definition getIndexConfigForFile (filePath : string) : list string :=
  match assoc (ensureJsonExtension filePath) cfg.(indexConfig) with
  | Some fs => fs
  | None => []
  end.

(** [path.resolve(getBasePath(), p)] (without [..] normalisation). *)
Definition resolve (p : string) : string :=
  if String.prefix "/" p then p else cfg.(basePath) ++ "/" ++ p.

(* ------------------------------------------------------------------ *)
(** ** Primitive file operations (fs/promises) *)

Definition fs_stat (p : string) : M unit :=
  io (EStat p) (fun w =>
    match w.(w_files) !! p with Some _ => (Ok tt, w) | None => (Err ENOENT, w) end).

Definition fs_readFile (p : string) : M content :=
  io (ERead p) (fun w =>
    match w.(w_files) !! p with Some c => (Ok c, w) | None => (Err ENOENT, w) end).

(** Directories are implicit: [mkdir -p] only has to succeed. *)
Definition fs_mkdir (p : string) : M unit := io (EMkdir p) (fun w => (Ok tt, w)).

(** [fs.open(p, "w")] creates or truncates [p]; an empty file is not JSON. *)
Definition fs_open_w (p : string) : M unit :=
  io (EOpen p) (fun w => (Ok tt, set_files w (<[p := Torn]> w.(w_files)))).

Definition fh_writeFile (p : string) (v : jval) : M unit :=
  io (EWrite p) (fun w => (Ok tt, set_files w (<[p := Text v]> w.(w_files)))).

Definition fh_sync (p : string) : M unit := io (ESync p) (fun w => (Ok tt, w)).
Definition fh_close (p : string) : M unit := io (EClose p) (fun w => (Ok tt, w)).

Definition fs_rename (src dst : string) : M unit :=
  io (ERename src dst) (fun w =>
    match w.(w_files) !! src with
    | Some c => (Ok tt, set_files w (<[dst := c]> (delete src w.(w_files))))
    | None => (Err ENOENT, w)
    end).

Definition fs_unlink (p : string) : M unit :=
  io (EUnlink p) (fun w =>
    match w.(w_files) !! p with
    | Some _ => (Ok tt, set_files w (delete p w.(w_files)))
    | None => (Err ENOENT, w)
    end).

Definition fs_copyFile (src dst : string) : M unit :=
  io (ECopy src dst) (fun w =>
    match w.(w_files) !! src with
    | Some c => (Ok tt, set_files w (<[dst := c]> w.(w_files)))
    | None => (Err ENOENT, w)
    end).

(** [fs.rm(dir, { recursive: true, force: true })] *)
Definition fs_rm_rf (dir : string) : M unit :=
  io (ERm dir) (fun w =>
    (Ok tt, set_files w (filter (fun kv : string * content => under dir kv.1 = false)
                           w.(w_files)))).

(* ------------------------------------------------------------------ *)
(** ** Locks, directories, parsing, backups *)

(** [acquireLock]: a held path makes the caller wait for its release; in
    this sequential model nobody else can release it, so the wait ends in
    the timeout error. *)
Definition acquireLock (filePath : string) : M unit := fun w =>
  let fullPath := resolve filePath in
  if existsb (String.eqb fullPath) w.(w_locks)
  then (Err (createXdbError OPERATION_FAILED), w)
  else (Ok tt, set_locks w (fullPath :: w.(w_locks))).

Definition releaseLock (filePath : string) : M unit := fun w =>
  let fullPath := resolve filePath in
  (Ok tt, set_locks w (List.filter (fun q => negb (String.eqb q fullPath)) w.(w_locks))).

Definition ensureDirectoryExists (dirPath : string) : M unit :=
  catch (fs_mkdir dirPath) (fun e =>
    if err_is e "EEXIST" then mret tt else throw (createXdbError IO_ERROR)).

Definition ensureIndexDirectoryExists : M unit :=
  catch (ensureDirectoryExists (cfg.(basePath) ++ "/index")) (fun e =>
    if is_xdb_error e then throw e else throw (createXdbError IO_ERROR)).

(** [safeParseJSON]: a missing file reads as [[]]; note that the
    [INVALID_JSON] error of the inner [try] is caught by the outer one and
    turned into [IO_ERROR]. *)
Definition safeParseJSON (filePath : string) : M jval :=
  catch
    (c ← fs_readFile (resolve filePath);
     match c with
     | Text v => mret v
     | Torn => throw (createXdbError INVALID_JSON)
     end)
    (fun e => if err_is e "ENOENT" then mret (JArr []) else throw (createXdbError IO_ERROR)).

Definition cleanupTempFile (tempPath : option string) : M unit :=
  match tempPath with
  | None => mret tt
  | Some t => catch (fs_unlink t) (fun _ => mret tt)
  end.

Definition createBackupIfNeeded (fullPath : string) : M unit :=
  if isBackupEnabled then
    catch (fs_stat fullPath ;; fs_copyFile fullPath (fullPath ++ cfg.(backupExtension)))
          (fun _ => mret tt)
  else mret tt.

(** [fullPath + ".tmp" + Date.now() + Math.random()] *)
Definition tempName (fullPath : string) : M string := fun w =>
  (Ok (fullPath ++ ".tmp" ++ pretty w.(w_clock)), next_clock w).

(** The [catch] block of [atomicWrite]. *)
Definition atomicWrite_fail (tempPath : option string) (fileHandle : bool) (_ : xerr) : M unit :=
  (if fileHandle then
     match tempPath with
     | Some t => catch (fh_close t) (fun _ => mret tt)
     | None => mret tt
     end
   else mret tt) ;;
  cleanupTempFile tempPath ;;
  throw (createXdbError IO_ERROR).

Definition atomicWrite (filePath : string) (data : jval) : M unit :=
  let fullPath := resolve filePath in
  catch (if isBackupEnabled && isBackupOnWriteOnly then createBackupIfNeeded fullPath
         else mret tt) (atomicWrite_fail None false) ;;
  tempPath ← tempName fullPath;
  catch (ensureDirectoryExists (dirname fullPath) ;; fs_open_w tempPath)
        (atomicWrite_fail (Some tempPath) false) ;;
  catch (fh_writeFile tempPath data ;; fh_sync tempPath ;; fh_close tempPath ;;
         fs_rename tempPath fullPath)
        (atomicWrite_fail (Some tempPath) true).

(* ------------------------------------------------------------------ *)
(** ** Index manager *)

Definition INDEX_DIR_NAME := "index".

Definition getIndexDirForFile (dataFilePath : string) : string :=
  cfg.(basePath) ++ "/" ++ INDEX_DIR_NAME ++ "/" ++ basename dataFilePath ++ ".index".

Definition getIndexFilePath (dataFilePath fieldName : string) : string :=
  getIndexDirForFile dataFilePath ++ "/" ++ ensureJsonExtension fieldName.

(** [if (!d[valueKey]) d[valueKey] = [];
     if (!d[valueKey].includes(recordId)) d[valueKey].push(recordId);]
    on an index object [d] (shared by updateIndex and rebuildIndexesForFile).
    A key naming a member of [Object.prototype] reads that member, which has
    no [includes]: the call throws a [TypeError]. *)
Definition index_add (d : obj) (valueKey recordId : string) : M obj :=
  let d1 := if truthy (obj_get d valueKey) then d else set_prop d valueKey (JArr []) in
  match obj_get d1 valueKey with
  | JV (JArr ids) =>
      if existsb (jstr_eq recordId) ids then mret d1
      else mret (set_prop d1 valueKey (JArr (ids ++ [JStr recordId])))
  | JV (JStr s) =>
      (* String.prototype.includes exists, push does not *)
      if str_includes s recordId then mret d1 else throw TypeError
  | _ => throw TypeError
  end.

(** The removal step of removeFromIndex; [Some d] when the index changed. *)
Definition index_remove (d : obj) (valueKey recordId : string) : M (option obj) :=
  let cur := obj_get d valueKey in
  if truthy cur then
    match cur with
    | JV (JArr ids) =>
        if existsb (jstr_eq recordId) ids then
          let ids' := List.filter (fun v => negb (jstr_eq recordId v)) ids in
          let d' := set_prop d valueKey (JArr ids') in
          mret (Some (match ids' with [] => delete_prop d' valueKey | _ => d' end))
        else mret None
    | JV (JStr s) => if str_includes s recordId then throw TypeError else mret None
    | _ => throw TypeError
    end
  else mret None.

(** The object read from an index file, [{}] when it is not an object. *)
Definition as_index (v : jval) : obj := match v with JObj o => o | _ => [] end.

Definition updateIndex (dataFilePath fieldName : string) (fieldValue : jval)
    (recordId : string) : M unit :=
  let indexFilePath := getIndexFilePath dataFilePath fieldName in
  let indexDir := dirname indexFilePath in
  let valueKey := js_String fieldValue in
  let handler (e : xerr) : M unit := throw (createXdbError (code_or e OPERATION_FAILED)) in
  catch (ensureIndexDirectoryExists ;; ensureDirectoryExists indexDir ;;
         acquireLock indexFilePath) handler ;;
  finally
    (catch
       (indexData ← catch (as_index <$> safeParseJSON indexFilePath) (fun _ => mret []);
        indexData' ← index_add indexData valueKey recordId;
        atomicWrite indexFilePath (JObj indexData'))
       handler)
    (releaseLock indexFilePath).

Definition removeFromIndex (dataFilePath fieldName : string) (fieldValue : jval)
    (recordId : string) : M unit :=
  let indexFilePath := getIndexFilePath dataFilePath fieldName in
  let valueKey := js_String fieldValue in
  let handler (e : xerr) : M unit := throw (createXdbError (code_or e OPERATION_FAILED)) in
  catch (acquireLock indexFilePath) handler ;;
  finally
    (catch
       (parsed ← catch (Some <$> safeParseJSON indexFilePath) (fun _ => mret None);
        match parsed with
        | None => mret tt     (* the early [return] of the read-error branch *)
        | Some p =>
            changed ← index_remove (as_index p) valueKey recordId;
            match changed with
            | Some d => atomicWrite indexFilePath (JObj d)
            | None => mret tt
            end
        end)
       handler)
    (releaseLock indexFilePath).

Definition findIndexedRecords (dataFilePath fieldName : string) (fieldValue : jval)
    : M (list jval) :=
  let indexFilePath := getIndexFilePath dataFilePath fieldName in
  let valueKey := js_String fieldValue in
  catch
    (parsed ← catch (Some <$> safeParseJSON indexFilePath) (fun _ => mret None);
     match parsed with
     | None => mret []
     | Some p =>
         match obj_get (as_index p) valueKey with
         | JV (JArr ids) => mret ids
         | _ => mret []
         end
     end)
    (fun e => throw (createXdbError (code_or e OPERATION_FAILED))).

Definition deleteIndexesForFile (dataFilePath : string) : M unit :=
  catch (fs_rm_rf (getIndexDirForFile dataFilePath)) (fun _ => mret tt).

Definition jval_is_null (v : jval) : bool := match v with JNull => true | _ => false end.

(** The inner loop of rebuildIndexesForFile over the records. *)
Fixpoint build_index (rs : list jval) (fieldName : string) (acc : obj) : M obj :=
  match rs with
  | [] => mret acc
  | r :: rs' =>
      match r with
      | JObj o =>
          match get_own o fieldName, field r "id" with
          | Some fieldValue, JV idv =>
              if jval_is_null idv then build_index rs' fieldName acc
              else acc' ← index_add acc (js_String fieldValue) (js_String idv);
                   build_index rs' fieldName acc'
          | _, _ => build_index rs' fieldName acc
          end
      | _ => build_index rs' fieldName acc
      end
  end.

Definition rebuildIndexesForFile (dataFilePath : string) (allData : list jval)
    (fieldsToIndex : list string) : M unit :=
  match fieldsToIndex with
  | [] => mret tt
  | _ =>
      ensureIndexDirectoryExists ;;
      ensureDirectoryExists (getIndexDirForFile dataFilePath) ;;
      for_each fieldsToIndex (fun fieldName =>
        let indexFilePath := getIndexFilePath dataFilePath fieldName in
        catch
          (newIndexData ← build_index allData fieldName [];
           acquireLock indexFilePath ;;
           finally (atomicWrite indexFilePath (JObj newIndexData))
                   (releaseLock indexFilePath))
          (fun _ => mret tt))
  end.


(* ------------------------------------------------------------------ *)
(** ** JavaScript comparisons used by view.more and the relation filters *)

(** [Number(s)] on integer literals: [""] is [0], an optional sign followed
    by decimal digits is that integer, anything else is [NaN] ([None]).
    (Whitespace, fractions, exponents and hexadecimal are not modelled.) *)
Definition string_to_number (s : string) : option Z :=
  match s with
  | EmptyString => Some 0%Z
  | String "-" (String _ _ as s') => option_map Z.opp (digits_to_Z s' 0)
  | String "+" (String _ _ as s') => digits_to_Z s' 0
  | _ => digits_to_Z s 0
  end.

(** A primitive after [ToPrimitive]: a string or a number ([None] is NaN). *)
Inductive prim : Type := PStr (s : string) | PNum (n : option Z).

Definition to_primitive (x : jsv) : prim :=
  match x with
  | JV JNull => PNum (Some 0%Z)
  | JV (JBool b) => PNum (Some (if b then 1 else 0)%Z)
  | JV (JNum n) => PNum (Some n)
  | JV (JStr s) => PStr s
  | JV v => PStr (js_String v)
  | JProto owner k =>
      if String.eqb k "__proto__" then
        match owner with
        | OwnerNumber | OwnerBoolean => PNum (Some 0%Z)
        | _ => PStr (prototype_string owner)
        end
      else PStr (native_function (member_function_name owner k))
  | JUndef => PNum None
  end.

Definition prim_to_number (p : prim) : option Z :=
  match p with PStr s => string_to_number s | PNum n => n end.

(** Code-unit order on strings. *)
Fixpoint string_lt (a b : string) : bool :=
  match a, b with
  | EmptyString, String _ _ => true
  | String _ _, EmptyString => false
  | EmptyString, EmptyString => false
  | String c a', String d b' =>
      let n := nat_of_ascii c in let m := nat_of_ascii d in
      if (n <? m)%nat then true else if (m <? n)%nat then false else string_lt a' b'
  end.

(** [x < y] (IsLessThan): two strings compare by code units, otherwise both
    sides are converted to numbers and NaN compares false. *)
Definition js_lt (x y : jsv) : bool :=
  match to_primitive x, to_primitive y with
  | PStr a, PStr b => string_lt a b
  | px, py =>
      match prim_to_number px, prim_to_number py with
      | Some n, Some m => (n <? m)%Z
      | _, _ => false
      end
  end.

(** [x == s] for a string [s] (IsLooselyEqual). *)
Definition js_loose_eq_str (x : jsv) (s : string) : bool :=
  match x with
  | JV JNull | JUndef => false
  | JV (JStr t) => String.eqb t s
  | JV (JNum _) | JV (JBool _) =>
      match prim_to_number (to_primitive x), string_to_number s with
      | Some n', Some m => Z.eqb n' m
      | _, _ => false
      end
  | _ =>
      match to_primitive x with
      | PStr t => String.eqb t s
      | PNum n =>
          match n, string_to_number s with
          | Some n', Some m => Z.eqb n' m
          | _, _ => false
          end
      end
  end.

(* ------------------------------------------------------------------ *)
(** ** view.more *)

(** A sort criterion [{ key, order, comparator }]. *)
Record criterion : Type := mkCriterion {
  crit_key : option string;
  crit_order : option string;
  crit_comparator : option (jval -> jval -> Z)
}.

(** The options of view.more that the model covers ([find], [include] and
    [includeStrategy] are left out: absent).  A filter is a function whose
    call returns the truthiness of its result, or [None] when it throws. *)
Record view_options : Type := mkViewOptions {
  opt_filter : option (jval -> option bool);
  opt_sort : option (list criterion);
  opt_skip : option Z;
  opt_limit : option Z
}.

(** [data.filter(f)], with [None] when a call of [f] throws. *)
Fixpoint filter_opt (f : jval -> option bool) (l : list jval) : option (list jval) :=
  match l with
  | [] => Some []
  | x :: l' =>
      b ← f x;
      rest ← filter_opt f l';
      Some (if (b : bool) then x :: rest else rest)
  end.

(** One step of the comparator passed to [data.sort]: the comparison of one
    criterion, already multiplied by the direction; [None] when reading
    [a[key]] or [b[key]] throws (a [null] record). *)
Definition criterion_compare (c : criterion) (a b : jval) : option Z :=
  let order := match c.(crit_order) with Some o => o | None => "asc" end in
  let direction := if String.eqb (to_lower order) "desc" then (-1)%Z else 1%Z in
  let comparison :=
    match c.(crit_comparator) with
    | Some f => Some (f a b)
    | None =>
        match c.(crit_key) with
        | Some key =>
            if String.eqb key "" then Some 0%Z
            else
              valA ← read_field a key;
              valB ← read_field b key;
              Some (if js_lt valA valB then (-1)%Z
                    else if js_lt valB valA then 1%Z else 0%Z)
        | None => Some 0%Z
        end
    end in
  (fun r => r * direction)%Z <$> comparison.

(** The comparator [(a, b) => { for (const criterion of sortCriteria) ... }]:
    the first criterion whose comparison is not 0 decides. *)
Fixpoint sort_compare (cs : list criterion) (a b : jval) : option Z :=
  match cs with
  | [] => Some 0%Z
  | c :: cs' =>
      r ← criterion_compare c a b;
      if Z.eqb r 0 then sort_compare cs' a b else Some r
  end.


(** [data.sort(cmp)] *)
Definition js_sort (cmp : jval -> jval -> option Z) (l : list jval) : option (list jval) :=
  if consistent_on cmp l then Some (insertion_sort (fun a b => default 0%Z (cmp a b)) l)
  else TimSort.timsort cmp l.

Definition criterion_valid (c : criterion) : bool :=
  (match c.(crit_comparator), c.(crit_key) with
   | None, Some k => negb (String.eqb k "")
   | None, None => false
   | Some _, _ => true
   end) &&
  (match c.(crit_order) with
   | Some o => String.eqb (to_lower o) "asc" || String.eqb (to_lower o) "desc"
   | None => true
   end).

(** The option checks at the top of view.more. *)
Definition options_valid (o : view_options) : bool :=
  (match o.(opt_skip) with Some n => (0 <=? n)%Z | None => true end) &&
  (match o.(opt_limit) with Some n => (0 <=? n)%Z | None => true end) &&
  (match o.(opt_sort) with Some cs => forallb criterion_valid cs | None => true end).

(** [data.slice(skip, limit === Infinity ? undefined : skip + limit)] with
    [skip] and [limit] computed as in the source. *)
Definition paginate (o : view_options) (data : list jval) : list jval :=
  let skip := match o.(opt_skip) with Some n => if (0 <? n)%Z then Z.to_nat n else 0%nat | None => 0%nat end in
  match o.(opt_limit) with
  | Some n => if (0 <=? n)%Z then firstn (Z.to_nat n) (skipn skip data) else skipn skip data
  | None => skipn skip data
  end.

Definition viewMore (filePath : string) (options : view_options) : M jval :=
  let filePath := ensureJsonExtension filePath in
  let fullPath := resolve filePath in
  catch
    (data ← safeParseJSON filePath;
     match data with
     | JArr data =>
         if negb (options_valid options) then throw (createXdbError OPERATION_FAILED)
         else
           match (match options.(opt_filter) with
                  | Some f => filter_opt f data | None => Some data end) with
           | None => throw (createXdbError OPERATION_FAILED)
           | Some data =>
               match (match options.(opt_sort) with
                      | Some cs => js_sort (sort_compare cs) data | None => Some data end) with
               | None => throw (createXdbError OPERATION_FAILED)
               | Some data =>
                   mret (JObj [("path", JStr fullPath); ("data", JArr (paginate options data))])
               end
           end
     | _ => throw (createXdbError OPERATION_FAILED)
     end)
    (fun e => if is_xdb_error e then throw e else throw (createXdbError OPERATION_FAILED)).

(** [result.data] of a view.more result. *)
Definition result_data (v : jval) : list jval :=
  match v with
  | JObj o => match get_own o "data" with Some (JArr xs) => xs | _ => [] end
  | _ => []
  end.


(* ------------------------------------------------------------------ *)
(** ** Record store *)

Definition validateId (id : string) : M unit :=
  if String.eqb id "" then throw (createXdbError OPERATION_FAILED) else mret tt.

Definition validateRecord (record : jval) : M unit :=
  match record with JObj _ => mret tt | _ => throw (createXdbError OPERATION_FAILED) end.

(** [{ ...v }] *)
Definition as_obj (v : jval) : obj :=
  match v with
  | JObj o => o
  | JStr s => imap (fun i c => (pretty (N.of_nat i), JStr (String c EmptyString)))
                   (list_ascii_of_string s)
  | JArr xs => imap (fun i x => (pretty (N.of_nat i), x)) xs
  | _ => []
  end.

(** The final [catch] block shared by the operations: emit the error event,
    rethrow an xdB error, wrap anything else. *)
Definition op_handler {A} (errorEvent : string) (e : xerr) : M A :=
  emit errorEvent ;;
  if is_xdb_error e then throw e else throw (createXdbError (code_or e IO_ERROR)).

Definition path_result (fullPath : string) : jval := JObj [("path", JStr fullPath)].

(** [l.findIndex(p)]: [Some None] for -1, [None] when a call of [p]
    throws. *)
Fixpoint find_index (p : jval -> option bool) (l : list jval) : option (option nat) :=
  match l with
  | [] => Some None
  | x :: l' =>
      b ← p x;
      if (b : bool) then Some (Some 0%nat)
      else match find_index p l' with
           | None => None
           | Some i => Some (S <$> i)
           end
  end.

(** [{ ...originalRecord, ...newRecord, id: originalRecord.id }] as written
    to the file ([JSON.stringify] drops an [id] that is [undefined]). *)
Definition merge_patch (originalRecord newRecord : obj) : obj :=
  let merged := spread (spread [] originalRecord) newRecord in
  match get_own originalRecord "id" with
  | Some idv => set_prop merged "id" idv
  | None => delete_prop merged "id"
  end.

Definition editRecordById (filePath id : string) (newRecord : jval) : M jval :=
  let filePath := ensureJsonExtension filePath in
  let fullPath := resolve filePath in
  let recordId := id in
  catch (emit "beforeEditId" ;; validateId recordId ;; validateRecord newRecord ;;
         acquireLock filePath) (op_handler "errorEditId") ;;
  finally
    (catch
       (data ← safeParseJSON filePath;
        match data with
        | JArr data =>
            match find_index (fun r => (fun s => String.eqb s recordId) <$> read_id r) data with
            | None => throw TypeError
            | Some None => throw (createXdbError RECORD_NOT_FOUND)
            | Some (Some recordIndex) =>
                let originalRecord := as_obj (default JNull (data !! recordIndex)) in
                let updatedRecord := merge_patch originalRecord (as_obj newRecord) in
                let data := <[recordIndex := JObj updatedRecord]> data in
                (if isBackupOnEditEnabled then createBackupIfNeeded fullPath else mret tt) ;;
                atomicWrite filePath (JArr data) ;;
                catch
                  (let fieldsToIndex := getIndexConfigForFile filePath in
                   for_each fieldsToIndex (fun fieldName =>
                     match get_own originalRecord fieldName with
                     | Some v => removeFromIndex filePath fieldName v recordId
                     | None => mret tt
                     end) ;;
                   for_each fieldsToIndex (fun fieldName =>
                     match get_own updatedRecord fieldName with
                     | Some v => updateIndex filePath fieldName v recordId
                     | None => mret tt
                     end))
                  (fun _ => mret tt) ;;
                clearRelationCache ;;
                emit "afterEditId" ;;
                mret (JObj [("path", JStr fullPath); ("record", JObj updatedRecord)])
            end
        | _ => throw (createXdbError OPERATION_FAILED)
        end)
       (op_handler "errorEditId"))
    (releaseLock filePath).

(** The records of editAll after validation: [record.id = String(record.id)]. *)
Definition editAll_record (record : jval) : M jval :=
  catch
    (validateRecord record ;;
     match field record "id" with
     | JUndef | JV JNull => mret record
     | v => let s := js_String_v v in
            validateId s ;; mret (JObj (set_prop (as_obj record) "id" (JStr s)))
     end)
    (fun _ => throw (createXdbError OPERATION_FAILED)).

Definition editAll (filePath : string) (newData : jval) : M jval :=
  let filePath := ensureJsonExtension filePath in
  let fullPath := resolve filePath in
  dataWritten ←
    catch (emit "beforeEditAll" ;;
           dataWritten ←
             match newData with
             | JArr rs => mapM editAll_record rs
             | JObj _ => mret [newData]
             | _ => throw (createXdbError OPERATION_FAILED)
             end;
           acquireLock filePath ;;
           mret dataWritten) (op_handler "errorEditAll");
  finally
    (catch
       ((if isBackupOnEditEnabled then createBackupIfNeeded fullPath else mret tt) ;;
        atomicWrite filePath (JArr dataWritten) ;;
        catch (rebuildIndexesForFile filePath dataWritten (getIndexConfigForFile filePath))
              (fun _ => mret tt) ;;
        clearRelationCache ;;
        emit "afterEditAll" ;;
        mret (path_result fullPath))
       (op_handler "errorEditAll"))
    (releaseLock filePath).

Definition deleteAll (filePath : string) : M jval :=
  let filePath := ensureJsonExtension filePath in
  let fullPath := resolve filePath in
  catch (emit "beforeDeleteAll" ;; acquireLock filePath) (op_handler "errorDeleteAll") ;;
  finally
    (catch
       (catch (A := bool)
            (fs_stat fullPath ;;
             (if isBackupOnDeleteEnabled then createBackupIfNeeded fullPath else mret tt) ;;
             atomicWrite filePath (JArr []) ;;
             catch (deleteIndexesForFile filePath) (fun _ => mret tt) ;;
             mret false)
            (fun statError => if err_is statError "ENOENT" then mret true else throw statError)
        ≫= fun returned : bool =>
        if returned then mret (path_result fullPath)
        else (clearRelationCache ;; emit "afterDeleteAll" ;; mret (path_result fullPath)))
       (op_handler "errorDeleteAll"))
    (releaseLock filePath).

(** [await Promise.all(ps)] over promises that are already running: every
    branch runs to its end and the call fails with a failure of one of
    them.  The branches run here one after the other in order and the
    first failure in that order is reported; in the relation checks every
    branch that can fail fails with the same [OPERATION_FAILED] error, so
    the order does not show in the result. *)
Fixpoint promise_all (ps : list (M unit)) : M unit :=
  match ps with
  | [] => mret tt
  | p :: ps' =>
      r ← catch (p ;; mret None) (fun e => mret (Some e));
      r' ← catch (promise_all ps' ;; mret None) (fun e => mret (Some e));
      match r, r' with
      | Some e, _ => throw e
      | None, Some e => throw e
      | None, None => mret tt
      end
  end.

Definition filter_options (f : jval -> option bool) (limit : option Z) : view_options :=
  mkViewOptions (Some f) None None limit.

(** The relation filter [(r) => r[field] == value]; it throws on a [null]
    record. *)
Definition loose_eq_filter (fieldName value : string) (r : jval) : option bool :=
  (fun x => js_loose_eq_str x value) <$> read_field r fieldName.

(** [await p] on the outcome of a promise. *)
Definition await_res {A} (r : res A) : M A :=
  match r with Ok a => mret a | Err e => throw e end.

(** A relation check of deleteRecordById is an async function that starts
    with [await viewMoreFn(...)]: [check_query] is that call and
    [check_rest] the rest of the function, run on the outcome of the
    call. *)
Record check : Type := mkCheck {
  check_query : M jval;
  check_rest : res jval -> M unit
}.

(** [relatedChecks.push((async () => ...)())] for every check and then
    [await Promise.all(relatedChecks)]: every check issues its view.more
    (which only reads) before any check continues; the continuations then
    run as the branches of [Promise.all]. *)
Definition run_checks (checks : list check) : M unit :=
  results ← mapM (fun c => catch (v ← c.(check_query); mret (Ok v))
                                 (fun e => mret (Err e))) checks;
  promise_all (zip_with (fun c r => c.(check_rest) r) checks results).

Section Relations.

(** The callbacks deleteRecordById receives. *)
Context (viewMoreFn : string -> view_options -> M jval).
Context (deleteRecordByIdFn : string -> string -> M jval).
Context (editRecordByIdFn : string -> string -> jval -> M jval).

Definition restrict_check (recordId : string) (relation : relation) : check :=
  let '(checkFile, checkField) :=
    if String.eqb relation.(rel_type) "N:M"
    then (relation.(junctionFile), relation.(junctionLocalField))
    else (relation.(foreignFile), relation.(foreignField)) in
  mkCheck
    (viewMoreFn checkFile (filter_options (loose_eq_filter checkField recordId) (Some 1%Z)))
    (fun query =>
       catch
         (related ← await_res query;
          match result_data related with
          | [] => mret tt
          | _ :: _ => throw (createXdbError OPERATION_FAILED)
          end)
         (fun checkError =>
            if err_is checkError FILE_NOT_FOUND then mret tt
            else throw (createXdbError OPERATION_FAILED))).

(** The related records come out of a filter that read a field of each of
    them, so none is [null]: [relatedItem.id] is [rec_id relatedItem]. *)
Definition cascade_delete (recordId : string) (relation : relation) : check :=
  let '(relatedFile, relatedField) :=
    if String.eqb relation.(rel_type) "N:M"
    then (relation.(junctionFile), relation.(junctionLocalField))
    else (relation.(foreignFile), relation.(foreignField)) in
  mkCheck
    (viewMoreFn relatedFile (filter_options (loose_eq_filter relatedField recordId) None))
    (fun query =>
       catch
         (relatedRecordsResult ← await_res query;
          promise_all (map (fun relatedItem =>
                              catch (deleteRecordByIdFn relatedFile (rec_id relatedItem) ;; mret tt)
                                    (fun _ => mret tt))
                           (result_data relatedRecordsResult)))
         (fun _ => mret tt)).

Definition set_null (recordId : string) (relation : relation) : check :=
  if String.eqb relation.(rel_type) "N:M" then
    let relatedFile := relation.(junctionFile) in
    let relatedFieldToNull := relation.(junctionLocalField) in
    mkCheck
      (viewMoreFn relatedFile (filter_options (loose_eq_filter relatedFieldToNull recordId) None))
      (fun query =>
         catch
           (junctionEntries ← await_res query;
            promise_all (map (fun entry =>
                                catch (deleteRecordByIdFn relatedFile (rec_id entry) ;; mret tt)
                                      (fun _ => mret tt))
                             (result_data junctionEntries)))
           (fun _ => mret tt))
  else
    let relatedFile := relation.(foreignFile) in
    let relatedFieldToNull := relation.(foreignField) in
    mkCheck
      (viewMoreFn relatedFile (filter_options (loose_eq_filter relatedFieldToNull recordId) None))
      (fun query =>
         catch
           (relatedRecordsResult ← await_res query;
            promise_all (map (fun relatedRecord =>
                                match field relatedRecord relatedFieldToNull with
                                | JV JNull => mret tt
                                | _ =>
                                    catch (editRecordByIdFn relatedFile (rec_id relatedRecord)
                                             (JObj [(relatedFieldToNull, JNull)]) ;; mret tt)
                                          (fun _ => mret tt)
                                end)
                             (result_data relatedRecordsResult)))
           (fun _ => mret tt)).

(** The collection a CASCADE or SET_NULL relation updates. *)
Definition related_file (relation : relation) : string :=
  if String.eqb relation.(rel_type) "N:M" then relation.(junctionFile) else relation.(foreignFile).

(** The [relatedChecks] that deleteRecordById collects, in the insertion
    order of the relation definitions. *)
Definition relatedChecks (filePath recordId : string) : list check :=
  omap (fun '(relationName, relation) =>
          if String.eqb relation.(localFile) filePath then
            if String.eqb relation.(onDelete) "RESTRICT" then Some (restrict_check recordId relation)
            else if String.eqb relation.(onDelete) "CASCADE" then Some (cascade_delete recordId relation)
            else if String.eqb relation.(onDelete) "SET_NULL" then Some (set_null recordId relation)
            else None
          else None)
       cfg.(relationDefinitions).

(** Everything deleteRecordById does once the relation checks are done:
    the backup, the write of the primary file and the index clean-up. *)
Definition commit_delete (filePath fullPath recordId : string) (data : list jval)
    (recordToDelete : option jval) : M jval :=
  (if isBackupOnDeleteEnabled then createBackupIfNeeded fullPath else mret tt) ;;
  match recordToDelete with
  | None => throw (createXdbError RECORD_NOT_FOUND)
  | Some recordToDelete =>
      let finalFilteredData := List.filter (fun r => negb (String.eqb (rec_id r) recordId)) data in
      atomicWrite filePath (JArr finalFilteredData) ;;
      catch
        (for_each (getIndexConfigForFile filePath) (fun fieldName =>
           match get_own (as_obj recordToDelete) fieldName with
           | Some v => removeFromIndex filePath fieldName v recordId
           | None => mret tt
           end))
        (fun _ => mret tt) ;;
      clearRelationCache ;;
      emit "afterDeleteId" ;;
      mret (JObj [("path", JStr fullPath); ("deletedId", JStr recordId)])
  end.

Definition deleteRecordById_with (filePath id : string) : M jval :=
  let filePath := ensureJsonExtension filePath in
  let fullPath := resolve filePath in
  let recordId := id in
  catch (emit "beforeDeleteId" ;; validateId recordId ;; acquireLock filePath)
        (op_handler "errorDeleteId") ;;
  finally
    (catch
       (data ← safeParseJSON filePath;
        match data with
        | JArr data =>
            match filter_opt (fun r => (fun s => negb (String.eqb s recordId)) <$> read_id r) data with
            | None => throw TypeError
            | Some filteredData =>
                if Nat.eqb (length data) (length filteredData)
                then throw (createXdbError RECORD_NOT_FOUND)
                else
                  (* the filter read [.id] of every record: none is [null] *)
                  let recordToDelete := List.find (fun r => String.eqb (rec_id r) recordId) data in
                  run_checks (relatedChecks filePath recordId) ;;
                  commit_delete filePath fullPath recordId data recordToDelete
            end
        | _ => throw (createXdbError OPERATION_FAILED)
        end)
       (op_handler "errorDeleteId"))
    (releaseLock filePath).

End Relations.

(** [xdB.del.id]: deleteRecordById with [view.more], [del.id] and
    [edit.id] as its callbacks; [fuel] bounds the depth of cascades. *)
Fixpoint deleteRecordById (fuel : nat) (filePath id : string) : M jval :=
  match fuel with
  | O => throw (createXdbError OPERATION_FAILED)
  | S fuel' =>
      deleteRecordById_with viewMore (deleteRecordById fuel') editRecordById filePath id
  end.


(** [new Set(ids).size !== ids.length] *)
Fixpoint has_duplicates (ids : list string) : bool :=
  match ids with
  | [] => false
  | i :: ids' => existsb (String.eqb i) ids' || has_duplicates ids'
  end.

(** One record of addAll's [initialData.map(...)]. *)
Definition addAll_record (record : jval) : M jval :=
  catch
    (validateRecord record ;;
     currentId ←
       match field record "id" with
       | JUndef | JV JNull => xdToken
       | v => let s := js_String_v v in validateId s ;; mret s
       end;
     mret (JObj (set_prop (as_obj record) "id" (JStr currentId))))
    (fun _ => throw (createXdbError OPERATION_FAILED)).

Definition addAll (filePath : string) (initialData : jval) (overwrite : bool) : M jval :=
  let filePath := ensureJsonExtension filePath in
  let fullPath := resolve filePath in
  processedData ←
    catch (emit "beforeAddAll" ;;
           processedData ←
             match initialData with
             | JArr rs =>
                 ps ← mapM addAll_record rs;
                 if has_duplicates (map rec_id ps)
                 then throw (createXdbError RECORD_EXISTS)
                 else mret (JArr ps)
             | JObj _ =>
                 validateRecord initialData ;;
                 currentId ←
                   match field initialData "id" with
                   | JUndef | JV JNull => xdToken
                   | v => let s := js_String_v v in validateId s ;; mret s
                   end;
                 mret (JObj (set_prop (as_obj initialData) "id" (JStr currentId)))
             | _ => throw (createXdbError OPERATION_FAILED)
             end;
           acquireLock filePath ;;
           mret processedData) (op_handler "errorAddAll");
  finally
    (catch
       (ensureDirectoryExists (dirname fullPath) ;;
        catch (A := bool) (fs_stat fullPath ;; mret true)
              (fun statError => if err_is statError "ENOENT" then mret false else throw statError)
        ≫= fun fileExists : bool =>
        if fileExists && negb overwrite then throw (createXdbError OPERATION_FAILED)
        else
          (if fileExists && isBackupOnAddEnabled then createBackupIfNeeded fullPath else mret tt) ;;
          atomicWrite filePath processedData ;;
          catch (let dataForIndex := match processedData with JArr ps => ps | v => [v] end in
                 rebuildIndexesForFile filePath dataForIndex (getIndexConfigForFile filePath))
                (fun _ => mret tt) ;;
          clearRelationCache ;;
          emit "afterAddAll" ;;
          mret (path_result fullPath))
       (op_handler "errorAddAll"))
    (releaseLock filePath).

Definition maxAttempts : nat := 10.

(** [l.some(p)], with [None] when a call of [p] throws. *)
Fixpoint some_opt (p : jval -> option bool) (l : list jval) : option bool :=
  match l with
  | [] => Some false
  | x :: l' => b ← p x; if (b : bool) then Some true else some_opt p l'
  end.

(** [data.some((record) => String(record.id) === id)] *)
Definition id_taken (data : list jval) (id : string) : option bool :=
  some_opt (fun r => (fun s => String.eqb s id) <$> read_id r) data.

(** [while (data.some(r => String(r.id) === String(id)) && attempts < maxAttempts)
      { id = _xdToken(...); attempts++; }]; the loop runs at most
    [maxAttempts] times, which [fuel = maxAttempts] covers. *)
Fixpoint regenerate (fuel : nat) (data : list jval) (id : string) (attempts : nat)
    : M (string * nat) :=
  match fuel with
  | O => mret (id, attempts)
  | S fuel' =>
      match id_taken data id with
      | None => throw TypeError
      | Some taken =>
          if taken && (attempts <? maxAttempts)%nat
          then id' ← xdToken; regenerate fuel' data id' (S attempts)
          else mret (id, attempts)
      end
  end.

Definition addRecordById (filePath : string) (newRecord : jval) : M jval :=
  let filePath := ensureJsonExtension filePath in
  let fullPath := resolve filePath in
  catch (emit "beforeAddId" ;; validateRecord newRecord ;; acquireLock filePath)
        (op_handler "errorAddId") ;;
  finally
    (catch
       (data ← safeParseJSON filePath;
        match data with
        | JArr data =>
            let recordToAdd := as_obj newRecord in
            recordToAdd2 ←
              match obj_get recordToAdd "id" with
              | JUndef | JV JNull =>
                  id0 ← xdToken;
                  '(id, attempts) ← regenerate maxAttempts data id0 0;
                  if (maxAttempts <=? attempts)%nat then throw (createXdbError OPERATION_FAILED)
                  else mret (set_prop recordToAdd "id" (JStr id))
              | v =>
                  let id := js_String_v v in
                  validateId id ;;
                  match id_taken data id with
                  | None => throw TypeError
                  | Some true => throw (createXdbError RECORD_EXISTS)
                  | Some false => mret (set_prop recordToAdd "id" (JStr id))
                  end
              end;
            let data := (data ++ [JObj recordToAdd2])%list in
            (if (1 <? length data)%nat then
               catch (A := bool) (fs_stat fullPath ;; mret true)
                     (fun e => if err_is e "ENOENT" then mret false else throw e)
               ≫= fun fileExistedBefore : bool =>
               if fileExistedBefore && isBackupOnAddEnabled then createBackupIfNeeded fullPath
               else mret tt
             else mret tt) ;;
            atomicWrite filePath (JArr data) ;;
            catch
              (for_each (getIndexConfigForFile filePath) (fun fieldName =>
                 match get_own recordToAdd2 fieldName with
                 | Some v => updateIndex filePath fieldName v (rec_id (JObj recordToAdd2))
                 | None => mret tt
                 end))
              (fun _ => mret tt) ;;
            clearRelationCache ;;
            emit "afterAddId" ;;
            mret (JObj [("path", JStr fullPath); ("record", JObj recordToAdd2)])
        | _ => throw (createXdbError OPERATION_FAILED)
        end)
       (op_handler "errorAddId"))
    (releaseLock filePath).

End Store.

(* ------------------------------------------------------------------ *)
(** ** Reading, moving and restoring collections *)

Section Store2.

Context (cfg : config).

Definition viewAll (filePath : string) : M jval :=
  catch
    (let filePath := ensureJsonExtension filePath in
     parsedData ← safeParseJSON cfg filePath;
     mret (JObj [("path", JStr (resolve cfg filePath)); ("data", parsedData)]))
    (fun error => if is_xdb_error error then throw error
                  else throw (createXdbError OPERATION_FAILED)).

(** [data.find((record2) => String(record2.id) === recordId)]: reading
    [.id] of a [null] element throws a [TypeError]. *)
Fixpoint find_by_id (recordId : string) (data : list jval) : M (option jval) :=
  match data with
  | [] => mret None
  | JNull :: _ => throw TypeError
  | record2 :: data' =>
      if String.eqb (rec_id record2) recordId then mret (Some record2)
      else find_by_id recordId data'
  end.

(** [view.id]: [id] is any value, compared by its string form. *)
Definition viewRecordById (filePath : string) (id : jval) : M jval :=
  catch
    (let recordId := js_String id in
     validateId recordId ;;
     let filePath := ensureJsonExtension filePath in
     let fullPath := resolve cfg filePath in
     data ← safeParseJSON cfg filePath;
     match data with
     | JArr data =>
         record ← find_by_id recordId data;
         match record with
         | Some r =>
             if truthy (JV r) then mret (JObj [("path", JStr fullPath); ("record", r)])
             else throw (createXdbError RECORD_NOT_FOUND)
         | None => throw (createXdbError RECORD_NOT_FOUND)
         end
     | _ => throw (createXdbError OPERATION_FAILED)
     end)
    (fun error => if is_xdb_error error then throw error
                  else throw (createXdbError OPERATION_FAILED)).

(** [result.record] of a view.id result. *)
Definition result_record (v : jval) : jval :=
  match v with
  | JObj o => default JNull (get_own o "record")
  | _ => JNull
  end.

(** The loop of [query] over the ids found in the index: a record missing
    from the data file is skipped, any other error is rethrown. *)
Fixpoint query_records (filePath : string) (recordIds : list jval) : M (list jval) :=
  match recordIds with
  | [] => mret []
  | recordId :: recordIds' =>
      found ← catch (result ← viewRecordById filePath recordId;
                     mret (Some (result_record result)))
                    (fun viewError =>
                       if err_is viewError RECORD_NOT_FOUND then mret None
                       else throw viewError);
      records ← query_records filePath recordIds';
      mret (match found with Some r => r :: records | None => records end)
  end.

(** [xdB.query] *)
Definition query (filePath fieldName : string) (fieldValue : jval) : M (list jval) :=
  let indexedFields := getIndexConfigForFile cfg filePath in
  if negb (existsb (String.eqb fieldName) indexedFields)
  then throw (createXdbError OPERATION_FAILED)
  else
    catch
      (recordIds ← findIndexedRecords cfg filePath fieldName fieldValue;
       match recordIds with
       | [] => mret []
       | _ => query_records filePath recordIds
       end)
      (fun error => if is_xdb_error error then throw error
                    else throw (createXdbError OPERATION_FAILED)).

(** [findExistingIds]: the Sets of ids are lists without duplicates, kept
    in the order of [idsToCheck]; [String(record[idFieldName])] throws on a
    [null] record. *)
Definition findExistingIds (filePath : string) (idsToCheck : list string)
    (idFieldName : string) : M (list string) :=
  match idsToCheck with
  | [] => mret []
  | _ =>
      catch
        (data ← safeParseJSON cfg filePath;
         match data with
         | JArr data =>
             fileIdSet ← mapM (fun record =>
                                 match record with
                                 | JNull => throw TypeError
                                 | _ => mret (js_String_v (field record idFieldName))
                                 end) data;
             mret (List.filter (fun id => existsb (String.eqb id) fileIdSet) idsToCheck)
         | _ => mret []
         end)
        (fun _ => mret [])
  end.

Definition restoreFromBackup (filePath : string) : M jval :=
  let filePath := ensureJsonExtension filePath in
  let fullPath := resolve cfg filePath in
  let backupPath := fullPath ++ cfg.(backupExtension) in
  let handler (error : xerr) : M jval :=
    if is_xdb_error error then throw error else throw (createXdbError OPERATION_FAILED) in
  catch (acquireLock cfg filePath) (fun error =>
    if is_xdb_error error then throw error else throw (createXdbError OPERATION_FAILED)) ;;
  finally
    (catch
       (catch (fs_stat backupPath) (fun statError =>
          if err_is statError "ENOENT" then throw (createXdbError FILE_NOT_FOUND)
          else throw (createXdbError IO_ERROR)) ;;
        ensureDirectoryExists (dirname fullPath) ;;
        fs_copyFile backupPath fullPath ;;
        mret (JObj [("path", JStr fullPath); ("restoredFrom", JStr backupPath)]))
       handler)
    (releaseLock cfg filePath).

Definition moveFile (sourcePath targetPath : string) : M jval :=
  let sourcePath := ensureJsonExtension sourcePath in
  let targetPath := ensureJsonExtension targetPath in
  let sourceFullPath := resolve cfg sourcePath in
  let targetFullPath := resolve cfg targetPath in
  let handler (error : xerr) : M jval :=
    if is_xdb_error error then throw error
    else throw (createXdbError (code_or error IO_ERROR)) in
  catch (acquireLock cfg sourcePath) (fun error =>
    if is_xdb_error error then throw error
    else throw (createXdbError (code_or error IO_ERROR))) ;;
  finally
    (catch
       (catch (fs_stat sourceFullPath) (fun error =>
          if err_is error "ENOENT" then throw (createXdbError FILE_NOT_FOUND)
          else throw (createXdbError (code_or error IO_ERROR))) ;;
        ensureDirectoryExists (dirname targetFullPath) ;;
        fs_rename sourceFullPath targetFullPath ;;
        mret (JObj [("source", JStr sourceFullPath); ("target", JStr targetFullPath)]))
       handler)
    (releaseLock cfg sourcePath).

End Store2.

(* ------------------------------------------------------------------ *)
(** ** A concrete store for the examples *)

Definition base_cfg : config :=
  mkConfig "/db" false ".bak" true false false false [] [].

Definition world0 (files : list (string * content)) : world :=
  mkWorld (list_to_map files) [] (fun n => "tok" ++ pretty n) 0 0 0 [] [].

Definition rec_of (fs : list (string * jval)) : jval := JObj fs.

Definition run {A} (m : M A) (w : world) : res A * world := m w.

Definition files_of (w : world) : list (string * content) := map_to_list w.(w_files).

(* ------------------------------------------------------------------ *)
(** ** Relations between worlds used in the proofs *)

Definition stable (R : world -> world -> Prop) {A} (m : M A) : Prop :=
  forall w r w', m w = (r, w') -> R w w'.

Fixpoint last_char (s : string) : option ascii :=
  match s with
  | EmptyString => None
  | String c EmptyString => Some c
  | String _ s' => last_char s'
  end.

Definition is_digit (c : ascii) : bool :=
  let n := nat_of_ascii c in ((48 <=? n) && (n <=? 57))%nat.

(** Worlds related by a run that modifies no file and no lock: the trace
    only grows, by effects without targets. *)
Definition quiet (w w' : world) : Prop :=
  w'.(w_files) = w.(w_files) /\ w'.(w_locks) = w.(w_locks) /\ w'.(w_faults) = w.(w_faults) /\
  exists t, (w'.(w_trace) = w.(w_trace) ++ t)%list /\ forall e, e ∈ t -> eff_targets e = [].

(** The lock on [P] protects the file [P]. *)
Definition keeps (P : string) (w w' : world) : Prop :=
  P ∈ w.(w_locks) -> w'.(w_files) !! P = w.(w_files) !! P /\ P ∈ w'.(w_locks).

(** New effects touch only paths in [Q]; files outside [Q] are unchanged. *)
Definition confined (Q : string -> Prop) (w w' : world) : Prop :=
  (exists t, (w'.(w_trace) = w.(w_trace) ++ t)%list /\
     forall e q, e ∈ t -> q ∈ eff_targets e -> Q q) /\
  (forall q, ~ Q q -> w'.(w_files) !! q = w.(w_files) !! q) /\
  w'.(w_faults) = w.(w_faults).

(** The paths atomicWrite may touch for a target [full]: the target, its
    backup and its temporary siblings. *)
Definition aw_path (cfg : config) (full x : string) : Prop :=
  x = full \/ x = full ++ cfg.(backupExtension) \/ exists n : nat, x = full ++ ".tmp" ++ pretty n.

Definition always_throws {A} (h : xerr -> M A) : Prop :=
  forall e w, exists e' w', h e w = (Err e', w').

(** After [X] succeeds from a world where [P] is locked, the lock just
    taken on [f] is not the lock on [P]. *)
Definition lock_post (cfg : config) (P f : string) (X : M unit) : Prop :=
  forall w w', P ∈ w.(w_locks) -> X w = (Ok tt, w') -> resolve cfg f <> P.

(** A collection file [P] of a store whose base path is absolute, which is
    not inside the index directory and which ends in [n] or [N] (as [.json]
    does), while the backup extension does not. *)
Definition ends_in_n (c : option ascii) : bool :=
  match c with Some c => Ascii.eqb c "n" || Ascii.eqb c "N" | None => false end.

Definition store_guard (cfg : config) (P : string) : bool :=
  String.prefix "/" cfg.(basePath) &&
  negb (under (cfg.(basePath) ++ "/index") P) &&
  ends_in_n (last_char P) &&
  negb (ends_in_n (last_char cfg.(backupExtension))).

(** [wp m Q w]: the outcome of running [m] from [w] satisfies [Q]. *)
Definition wp {A} (m : M A) (Q : res A -> world -> Prop) (w : world) : Prop :=
  let '(r, w') := m w in Q r w'.

(** A record that addAll_record accepts: an object whose id is absent, null,
    or has a non-empty string form. *)
Definition record_ok (r : jval) : bool :=
  match r with
  | JObj _ =>
      match field r "id" with
      | JUndef | JV JNull => true
      | v => negb (String.eqb (js_String_v v) "")
      end
  | _ => false
  end.

(** Modelled from the spec: the records of addAll with their missing ids
    assigned; a record keeps the string form of the id it has, a record
    without an id (or with a null one) gets the next generated token. *)
Fixpoint assign_ids (gen : nat -> string) (i : nat) (rs : list jval) : list jval :=
  match rs with
  | [] => []
  | r :: rs' =>
      match field r "id" with
      | JUndef | JV JNull => JObj (set_prop (as_obj r) "id" (JStr (gen i))) :: assign_ids gen (S i) rs'
      | v => JObj (set_prop (as_obj r) "id" (JStr (js_String_v v))) :: assign_ids gen i rs'
      end
  end.

(* ------------------------------------------------------------------ *)
(** ** Postconditions of successful runs *)

Definition okpost {A} (m : M A) (P : world -> Prop) : Prop :=
  forall w a w', m w = (Ok a, w') -> P w'.

Definition write_last (full idx : string) (w : world) : Prop :=
  exists t1 tmp t2, w.(w_trace) = (t1 ++ ERename tmp full :: t2)%list /\
    forall e q, e ∈ t2 -> q ∈ eff_targets e -> under idx q = true.

Definition opf_or_ok (q : M unit) : Prop :=
  forall w r w', q w = (r, w') -> r = Ok tt \/ r = Err (createXdbError OPERATION_FAILED).

(* ------------------------------------------------------------------ *)
(** ** Example stores *)

(** A users/posts store with one [1:N] relation whose delete policy is [od]. *)
Definition rel_userPosts (od : string) : relation :=
  mkRelation "1:N" "users.json" "id" "posts.json" "authorId" "" "" "" od.
Definition rel_cfg (od : string) : config :=
  mkConfig "/db" false ".bak" true false false false []
    [("userPosts", rel_userPosts od)].
Definition rel_users : list jval :=
  [rec_of [("id", JStr "u1"); ("name", JStr "Alice")]; rec_of [("id", JStr "u2"); ("name", JStr "Bob")]].
Definition rel_posts : list jval := [rec_of [("id", JStr "p1"); ("authorId", JStr "u1")]].
Definition rel_world : world :=
  world0 [("/db/users.json", Text (JArr rel_users)); ("/db/posts.json", Text (JArr rel_posts))].

(** A patch that also carries an [id] key. *)
Definition edit_patch : obj := [("id", JStr "zz"); ("name", JStr "Alicia"); ("age", JNum 30)].

(** Two records for addAll: one without an id, one with a numeric id. *)
Definition add_records : list jval := [rec_of [("n", JNum 1)]; rec_of [("id", JNum 7)]].

(** A store indexing field [f] of [users.json]. *)
Definition idx_cfg : config :=
  mkConfig "/db" false ".bak" true false false false [("users.json", ["f"])] [].
Definition idx_rec : jval := rec_of [("id", JStr "a"); ("f", JStr "constructor")].

(** A collection holding the first ten generated tokens as ids. *)
Definition tok_records : list jval := map (fun n => rec_of [("id", JStr ("tok" ++ pretty n))]) (seq 0 10).
Definition tok_world : world := world0 [("/db/t.json", Text (JArr tok_records))].

(** Five records with ids [r0..r4]. *)
Definition five : list jval := map (fun n => rec_of [("id", JStr ("r" ++ pretty n)); ("n", JNum (Z.of_nat n))]) (seq 0 5).
Definition five_world : world := world0 [("/db/c.json", Text (JArr five))].
Definition page_opts : view_options := mkViewOptions None None (Some 2%Z) (Some 2%Z).

(** Two records, one with a null sort key. *)
Definition k_asc : criterion := mkCriterion (Some "k") (Some "asc") None.
Definition null_world : world := world0 [("/db/s.json", Text (JArr [rec_of [("k", JNum 1)]; rec_of [("k", JNull)]]))].

(** An empty store whose third and fifth primitive operations fail. *)
Definition aw_world : world := mkWorld ∅ [] (fun n => "tok" ++ pretty n) 0 0 0 [2; 4] [].

(* ================================================================== *)
(** * Proofs *)

(** ** Programs that preserve a preorder on worlds *)


Section Stable.
Context (R : world -> world -> Prop) `{!PreOrder R}.

Lemma stable_ret {A} (a : A) : stable R (mret a).
Proof. intros w r w' [= _ <-]. reflexivity. Qed.

Lemma stable_throw {A} e : stable R (throw (A:=A) e).
Proof. intros w r w' [= _ <-]. reflexivity. Qed.

Lemma stable_bind {A B} (m : M A) (k : A -> M B) :
  stable R m -> (forall a, stable R (k a)) -> stable R (m ≫= k).
Proof.
  intros Hm Hk w r w'. unfold mbind, M_bind.
  destruct (m w) as [[a|e] w1] eqn:E; intros Hr.
  - etrans; [eapply Hm; eauto | eapply Hk; eauto].
  - injection Hr as _ <-. eapply Hm; eauto.
Qed.

Lemma stable_fmap {A B} (f : A -> B) (m : M A) : stable R m -> stable R (f <$> m).
Proof. intros. apply stable_bind; auto using stable_ret. Qed.

Lemma stable_catch {A} (m : M A) h :
  stable R m -> (forall e, stable R (h e)) -> stable R (catch m h).
Proof.
  intros Hm Hh w r w'. unfold catch.
  destruct (m w) as [[a|e] w1] eqn:E; intros Hr.
  - injection Hr as _ <-. eapply Hm; eauto.
  - etrans; [eapply Hm; eauto | eapply Hh; eauto].
Qed.

Lemma stable_finally {A} (m : M A) f :
  stable R m -> stable R f -> stable R (finally m f).
Proof.
  intros Hm Hf w r w'. unfold finally.
  destruct (m w) as [r1 w1] eqn:E.
  destruct (f w1) as [[]  w2] eqn:E2; intros [= _ <-];
    (etrans; [eapply Hm; eauto | eapply Hf; eauto]).
Qed.

Lemma stable_for_each {A} (xs : list A) f :
  (forall x, x ∈ xs -> stable R (f x)) -> stable R (for_each xs f).
Proof.
  induction xs as [|x xs IH]; intros Hf; simpl.
  - apply stable_ret.
  - apply stable_bind; [apply Hf; left|intros; apply IH; intros; apply Hf; right; done].
Qed.

Lemma stable_promise_all ps : Forall (stable R) ps -> stable R (promise_all ps).
Proof.
  induction 1 as [|p ps Hp Hps IH]; simpl; [apply stable_ret|].
  apply stable_bind.
  { apply stable_catch; [apply stable_bind; auto using stable_ret|intros; apply stable_ret]. }
  intros r. apply stable_bind.
  { apply stable_catch; [apply stable_bind; auto using stable_ret|intros; apply stable_ret]. }
  intros r'. destruct r, r'; auto using stable_throw, stable_ret.
Qed.

Lemma stable_mapM {A B} (f : A -> M B) xs :
  (forall x, x ∈ xs -> stable R (f x)) -> stable R (mapM f xs).
Proof.
  induction xs as [|x xs IH]; intros Hf; simpl; [apply stable_ret|].
  apply stable_bind; [apply Hf; left|].
  intros. apply stable_bind; [apply IH; intros; apply Hf; right; done|intros; apply stable_ret].
Qed.

Lemma stable_await_res {A} (r : res A) : stable R (await_res r).
Proof. destruct r; [apply stable_ret|apply stable_throw]. Qed.

(** Both parts of a relation check preserve [R]. *)
Definition check_stable (c : check) : Prop :=
  stable R c.(check_query) /\ forall r, stable R (c.(check_rest) r).

Lemma stable_run_checks cs : Forall check_stable cs -> stable R (run_checks cs).
Proof.
  intros Hcs. unfold run_checks. apply stable_bind.
  - apply stable_mapM. intros c Hc. rewrite Forall_forall in Hcs.
    destruct (Hcs c Hc) as [Hq _].
    apply stable_catch; [apply stable_bind; [exact Hq|intros; apply stable_ret]|intros; apply stable_ret].
  - intros results. apply stable_promise_all. revert results.
    induction Hcs as [|c cs [_ Hr] _ IH]; intros [|r rs]; simpl; constructor; auto.
Qed.

Lemma stable_io {A} e (act : world -> res A * world) :
  (forall w, R w (next_op w)) ->
  (forall w r w', act (record_eff (next_op w) e) = (r, w') -> R w w') ->
  stable R (io e act).
Proof.
  intros Hn Ha w r w'. unfold io. destruct (faulty w).
  - intros [= _ <-]. apply Hn.
  - apply Ha.
Qed.

End Stable.


Lemma s_app_assoc (a b c : string) : (a ++ b) ++ c = a ++ (b ++ c).
Proof. induction a as [|x a IH]; [reflexivity|exact (f_equal (String x) IH)]. Qed.

Lemma s_app_nil_r (a : string) : a ++ "" = a.
Proof. induction a as [|x a IH]; [reflexivity|exact (f_equal (String x) IH)]. Qed.

Lemma s_app_cons (x : ascii) (a b : string) : String x a ++ b = String x (a ++ b).
Proof. reflexivity. Qed.

Lemma prefix_spec (a b : string) : String.prefix a b = true <-> exists t, b = a ++ t.
Proof.
  revert b; induction a as [|c a IH]; intros [|d b]; simpl.
  - split; [exists ""; done|done].
  - split; [eexists; done|done].
  - split; [done|intros [t Ht]; discriminate].
  - destruct (ascii_dec c d) as [->|Hne].
    + rewrite IH. split; intros [t Ht]; exists t; rewrite ?s_app_cons in *; congruence.
    + split; [done|intros [t Ht]; rewrite s_app_cons in Ht; congruence].
Qed.

Lemma prefix_app (a t : string) : String.prefix a (a ++ t) = true.
Proof. apply prefix_spec; eauto. Qed.

Lemma prefix_trans (a b c : string) :
  String.prefix a b = true -> String.prefix b c = true -> String.prefix a c = true.
Proof.
  rewrite !prefix_spec. intros [t ->] [u ->]. exists (t ++ u). apply s_app_assoc.
Qed.

Lemma last_char_app (a b : string) :
  b <> "" -> last_char (a ++ b) = last_char b.
Proof.
  intros Hb. induction a as [|c a IH]; [done|].
  rewrite s_app_cons. simpl. rewrite <-IH.
  destruct a; [|done]. destruct b; [done|done].
Qed.

Lemma pretty_N_go_app (x : N) (s : string) : exists t, pretty_N_go x s = t ++ s.
Proof.
  revert s. induction (N.lt_wf_0 x) as [x _ IH]; intros s.
  assert (x = 0 \/ 0 < x)%N as [->|Hx] by lia.
  - exists "". rewrite pretty_N_go_0. done.
  - rewrite pretty_N_go_step by done.
    destruct (IH (x `div` 10)%N) with (s := String (pretty_N_char (x `mod` 10)) s) as [t Ht].
    { apply N.div_lt; lia. }
    rewrite Ht. exists (t ++ String (pretty_N_char (x `mod` 10)) "").
    rewrite s_app_assoc. done.
Qed.

Lemma pretty_N_char_digit (x : N) : is_digit (pretty_N_char x) = true.
Proof.
  destruct x as [|p]; [reflexivity|].
  destruct p as [[[[p|p|]|[p|p|]|]|[[p|p|]|[p|p|]|]|]|[[[p|p|]|[p|p|]|]|[[p|p|]|[p|p|]|]|]|];
    reflexivity.
Qed.

Lemma pretty_nat_last (n : nat) :
  exists c, last_char (pretty n) = Some c /\ is_digit c = true.
Proof.
  change (pretty n) with (pretty (N.of_nat n)). unfold pretty at 1, pretty_N.
  destruct (decide (N.of_nat n = 0%N)) as [H|H].
  - exists "0"%char. done.
  - assert (0 < N.of_nat n)%N as Hx by lia.
    rewrite pretty_N_go_step by done.
    destruct (pretty_N_go_app ((N.of_nat n) `div` 10)%N
               (String (pretty_N_char ((N.of_nat n) `mod` 10)) "")) as [t ->].
    rewrite last_char_app by done. simpl. eexists; split; [done|].
    apply pretty_N_char_digit.
Qed.




Global Instance quiet_preorder : PreOrder quiet.
Proof.
  split.
  - intros w. split_and!; try done. exists []. rewrite app_nil_r. split; [done|set_solver].
  - intros w1 w2 w3 (A1&B1&C1&[t1 [Ht1 H1]]) (A2&B2&C2&[t2 [Ht2 H2]]). split_and!; try congruence.
    exists (t1 ++ t2)%list. rewrite Ht2, Ht1, app_assoc. split; [done|].
    intros e [He|He]%elem_of_app; eauto.
Qed.

Global Instance keeps_preorder P : PreOrder (keeps P).
Proof.
  split; [intros w; done|].
  intros w1 w2 w3 H12 H23 Hin. destruct (H12 Hin) as [Hf Hl].
  destruct (H23 Hl) as [Hf' Hl']. split; [congruence|done].
Qed.

Global Instance confined_preorder Q : PreOrder (confined Q).
Proof.
  split.
  - intros w. split_and!; [exists []; rewrite app_nil_r; split; [done|set_solver]|done|done].
  - intros w1 w2 w3 ([t1 [Ht1 H1]] & F1 & G1) ([t2 [Ht2 H2]] & F2 & G2).
    split_and!.
    + exists (t1 ++ t2)%list. rewrite Ht2, Ht1, app_assoc. split; [done|].
      intros e q [He|He]%elem_of_app; eauto.
    + intros q Hq. rewrite F2, F1; done.
    + congruence.
Qed.

Lemma quiet_keeps P {A} (m : M A) : stable quiet m -> stable (keeps P) m.
Proof. intros H w r w' Hr Hin. destruct (H w r w' Hr) as (->&->&_). done. Qed.

Lemma quiet_sub_confined Q w w' : quiet w w' -> confined Q w w'.
Proof.
  intros (Hf&_&Hg&[t [Htr Hte]]). split_and!.
  - exists t. split; [done|]. intros e q He Hq. rewrite Hte in Hq by done. set_solver.
  - intros q _. rewrite Hf. done.
  - done.
Qed.

Lemma quiet_sub_keeps P w w' : quiet w w' -> keeps P w w'.
Proof. intros (Hf&Hl&_) Hin. rewrite Hf, Hl. done. Qed.

Lemma quiet_confined Q {A} (m : M A) : stable quiet m -> stable (confined Q) m.
Proof. intros H w r w' Hr. eapply quiet_sub_confined, H; eauto. Qed.

Lemma confined_mono (Q Q' : string -> Prop) {A} (m : M A) :
  (forall x, Q x -> Q' x) -> stable (confined Q) m -> stable (confined Q') m.
Proof.
  intros HQ H w r w' Hr. destruct (H w r w' Hr) as ([t [Ht Hte]] & Hf & Hg).
  split_and!; eauto.
Qed.

Lemma confined_keeps (Q : string -> Prop) P {A} (m : M A) :
  ~ Q P -> (forall w r w', m w = (r, w') -> P ∈ w.(w_locks) -> P ∈ w'.(w_locks)) ->
  stable (confined Q) m -> stable (keeps P) m.
Proof.
  intros HP Hl H w r w' Hr Hin. destruct (H w r w' Hr) as (_ & Hf & _).
  split; [apply Hf; done|eauto].
Qed.

Lemma quiet_next_op w : quiet w (next_op w).
Proof. split_and!; try done. exists []. rewrite app_nil_r. split; [done|set_solver]. Qed.

Lemma quiet_record w e : eff_targets e = [] -> quiet w (record_eff w e).
Proof. intros He. split_and!; try done. exists [e]. split; [done|]. intros e' ->%list_elem_of_singleton; done. Qed.

Lemma quiet_io {A} e (act : world -> res A * world) :
  eff_targets e = [] ->
  (forall w r w', act w = (r, w') -> quiet w w') -> stable quiet (io e act).
Proof.
  intros He Ha. apply stable_io; [apply quiet_next_op|].
  intros w r w' Hr. etrans; [apply quiet_next_op|]. etrans; [apply (quiet_record _ e He)|].
  eapply Ha; eauto.
Qed.

Ltac quiet_act := intros ??? Hr; repeat case_match; injection Hr as _ <-; reflexivity.

Lemma stable_quiet {R} `{!PreOrder R} {A} (m : M A) :
  (forall w w', quiet w w' -> R w w') -> stable quiet m -> stable R m.
Proof. intros HR Hm w r w' Hr. apply HR. eapply Hm; eauto. Qed.

(** [tempName] yields a temporary sibling name. *)
Lemma stable_bind_tempName {R} `{!PreOrder R} {B} (f : string) (k : string -> M B) :
  (forall w w', quiet w w' -> R w w') ->
  (forall n : nat, stable R (k (f ++ ".tmp" ++ pretty n))) ->
  stable R (tempName f ≫= k).
Proof.
  intros HR Hk w r w'. unfold mbind, M_bind, tempName. intros Hr.
  etrans; [apply HR|eapply Hk; eauto].
  split_and!; try done. exists []. rewrite app_nil_r. split; [done|set_solver].
Qed.

Ltac stab_step :=
  match goal with
  | |- forall _, stable _ _ => intro
  | |- forall _, _ ∈ _ -> stable _ _ => intros ??
  | |- stable _ (mret _) => apply stable_ret
  | |- stable _ (throw _) => apply stable_throw
  | |- stable _ (tempName _ ≫= _) =>
      apply stable_bind_tempName; try apply _;
      [solve [eauto using quiet_sub_confined, quiet_sub_keeps]|]
  | |- stable _ (mbind _ _) => apply stable_bind
  | |- stable _ (fmap _ _) => apply stable_fmap
  | |- stable _ (catch _ _) => apply stable_catch
  | |- stable _ (finally _ _) => apply stable_finally
  | |- stable _ (for_each _ _) => apply stable_for_each
  | |- stable _ (mapM _ _) => apply stable_mapM
  | |- stable _ (promise_all _) => apply stable_promise_all
  | |- stable _ (run_checks _) => apply stable_run_checks
  | |- stable _ (await_res _) => apply stable_await_res
  | |- check_stable _ _ => split; cbn [check_query check_rest]
  | |- Forall _ (map _ _) => apply Forall_map, Forall_forall; intros ??
  | |- stable _ (let _ := _ in _) => cbv zeta
  | |- stable _ (match ?x with _ => _ end) => destruct x
  end.

Ltac stab db := repeat (first [solve [eauto with db] | stab_step | apply _]).

Create HintDb quietdb.

Section QuietOps.
Context (cfg : config).

Lemma quiet_fs_stat p : stable quiet (fs_stat p).
Proof. apply quiet_io; [done|quiet_act]. Qed.
Lemma quiet_fs_readFile p : stable quiet (fs_readFile p).
Proof. apply quiet_io; [done|quiet_act]. Qed.
Lemma quiet_fs_mkdir p : stable quiet (fs_mkdir p).
Proof. apply quiet_io; [done|quiet_act]. Qed.
Lemma quiet_fh_sync p : stable quiet (fh_sync p).
Proof. apply quiet_io; [done|quiet_act]. Qed.
Lemma quiet_fh_close p : stable quiet (fh_close p).
Proof. apply quiet_io; [done|quiet_act]. Qed.
Lemma quiet_emit ev : stable quiet (emit ev).
Proof. intros w r w' [= _ <-]. apply quiet_record. done. Qed.
Lemma quiet_clearRelationCache : stable quiet clearRelationCache.
Proof. intros w r w' [= _ <-]. apply quiet_record. done. Qed.
Lemma quiet_xdToken : stable quiet xdToken.
Proof. intros w r w' [= _ <-]. split_and!; try done. exists []. rewrite app_nil_r. split; [done|set_solver]. Qed.
Lemma quiet_tempName f : stable quiet (tempName f).
Proof. intros w r w' [= _ <-]. split_and!; try done. exists []. rewrite app_nil_r. split; [done|set_solver]. Qed.


Hint Resolve quiet_fs_stat quiet_fs_readFile quiet_fs_mkdir quiet_fh_sync quiet_fh_close
  quiet_emit quiet_clearRelationCache quiet_xdToken quiet_tempName : quietdb.

Lemma quiet_validateId i : stable quiet (validateId i).
Proof. unfold validateId. stab quietdb. Qed.
Lemma quiet_validateRecord r : stable quiet (validateRecord r).
Proof. unfold validateRecord. stab quietdb. Qed.
Lemma quiet_safeParseJSON f : stable quiet (safeParseJSON cfg f).
Proof. unfold safeParseJSON. stab quietdb. Qed.
Lemma quiet_ensureDirectoryExists d : stable quiet (ensureDirectoryExists d).
Proof. unfold ensureDirectoryExists. stab quietdb. Qed.
Lemma quiet_ensureIndexDirectoryExists : stable quiet (ensureIndexDirectoryExists cfg).
Proof. unfold ensureIndexDirectoryExists. stab quietdb. apply quiet_ensureDirectoryExists. Qed.
Hint Resolve quiet_validateId quiet_validateRecord quiet_safeParseJSON quiet_ensureDirectoryExists
  quiet_ensureIndexDirectoryExists : quietdb.

Lemma quiet_viewMore f o : stable quiet (viewMore cfg f o).
Proof. unfold viewMore. stab quietdb. Qed.
Lemma quiet_index_add d k i : stable quiet (index_add d k i).
Proof. unfold index_add. stab quietdb. Qed.
Lemma quiet_index_remove d k i : stable quiet (index_remove d k i).
Proof. unfold index_remove. stab quietdb. Qed.
Hint Resolve quiet_viewMore quiet_index_add quiet_index_remove : quietdb.
Lemma quiet_build_index rs f acc : stable quiet (build_index rs f acc).
Proof. revert acc; induction rs; intros; simpl; stab quietdb. Qed.
Lemma quiet_findIndexedRecords d f v : stable quiet (findIndexedRecords cfg d f v).
Proof. unfold findIndexedRecords. stab quietdb. Qed.
Lemma quiet_op_handler {A} ev e : stable quiet (op_handler (A:=A) ev e).
Proof. unfold op_handler. stab quietdb. Qed.
Lemma quiet_editAll_record r : stable quiet (editAll_record r).
Proof. unfold editAll_record. stab quietdb. Qed.
Lemma quiet_addAll_record r : stable quiet (addAll_record r).
Proof. unfold addAll_record. stab quietdb. Qed.
Lemma quiet_regenerate n d i a : stable quiet (regenerate n d i a).
Proof. revert i a; induction n; intros; simpl; stab quietdb. Qed.

End QuietOps.

Global Hint Resolve quiet_fs_stat quiet_fs_readFile quiet_fs_mkdir quiet_fh_sync quiet_fh_close
  quiet_emit quiet_clearRelationCache quiet_xdToken quiet_tempName
  quiet_validateId quiet_validateRecord quiet_safeParseJSON quiet_ensureDirectoryExists
  quiet_ensureIndexDirectoryExists quiet_viewMore quiet_index_add quiet_index_remove
  quiet_build_index quiet_findIndexedRecords quiet_op_handler quiet_editAll_record
  quiet_addAll_record quiet_regenerate : quietdb.


Section ConfinedOps.
Context (cfg : config) (Q : string -> Prop).

Lemma confined_io {A} e (act : world -> res A * world) :
  (forall q, q ∈ eff_targets e -> Q q) ->
  (forall w r w', act w = (r, w') -> w'.(w_trace) = w.(w_trace) /\ w'.(w_faults) = w.(w_faults) /\
                   forall q, ~ Q q -> w'.(w_files) !! q = w.(w_files) !! q) ->
  stable (confined Q) (io e act).
Proof.
  intros He Ha. apply stable_io.
  - intros w. apply quiet_sub_confined, quiet_next_op.
  - intros w r w' Hr. destruct (Ha _ _ _ Hr) as (Ht & Hg & Hf). split_and!.
    + exists [e]. rewrite Ht. split; [done|]. intros e' q ->%list_elem_of_singleton. apply He.
    + intros q Hq. rewrite Hf by done. done.
    + rewrite Hg. done.
Qed.

Ltac conf_act := intros ??? Hr; repeat case_match; injection Hr as _ <-; split_and!; try done;
  intros ??; simpl; rewrite ?lookup_insert_ne, ?lookup_delete_ne by (intros ->; eauto); done.

Lemma confined_fs_open_w p : Q p -> stable (confined Q) (fs_open_w p).
Proof. intros Hp. apply confined_io; [set_solver|conf_act]. Qed.
Lemma confined_fh_writeFile p v : Q p -> stable (confined Q) (fh_writeFile p v).
Proof. intros Hp. apply confined_io; [set_solver|conf_act]. Qed.
Lemma confined_fs_unlink p : Q p -> stable (confined Q) (fs_unlink p).
Proof. intros Hp. apply confined_io; [set_solver|conf_act]. Qed.
Lemma confined_fs_copyFile s d : Q d -> stable (confined Q) (fs_copyFile s d).
Proof. intros Hp. apply confined_io; [set_solver|conf_act]. Qed.
Lemma confined_fs_rename s d : Q s -> Q d -> stable (confined Q) (fs_rename s d).
Proof. intros Hs Hd. apply confined_io; [set_solver|conf_act]. Qed.
Lemma confined_acquireLock f : stable (confined Q) (acquireLock cfg f).
Proof.
  intros w r w'. unfold acquireLock. case_match; intros [= _ <-]; [reflexivity|].
  split_and!; try done. exists []. rewrite app_nil_r. split; [done|set_solver].
Qed.
Lemma confined_releaseLock f : stable (confined Q) (releaseLock cfg f).
Proof.
  intros w r w'. unfold releaseLock. intros [= _ <-].
  split_and!; try done. exists []. rewrite app_nil_r. split; [done|set_solver].
Qed.

Lemma confined_quiet {A} (m : M A) : stable quiet m -> stable (confined Q) m.
Proof. apply quiet_confined. Qed.

End ConfinedOps.

Create HintDb confdb.
Global Hint Resolve confined_fs_open_w confined_fh_writeFile confined_fs_unlink confined_fs_copyFile
  confined_fs_rename confined_acquireLock confined_releaseLock : confdb.
Global Hint Extern 2 (stable (confined _) _) => apply confined_quiet; solve [eauto with quietdb] : confdb.

Section ConfinedStore.
Context (cfg : config) (Q : string -> Prop).

Lemma confined_fs_rm_rf d : Q d -> (forall x, under d x = true -> Q x) -> stable (confined Q) (fs_rm_rf d).
Proof.
  intros Hd Hu. apply confined_io; [set_solver|].
  intros w r w' [= _ <-]. split_and!; try done. intros q Hq. simpl.
  rewrite map_lookup_filter. destruct (w_files w !! q); simpl; [|done].
  destruct (under d q) eqn:E; simpl; [|done].
  exfalso. apply Hq, Hu. done.
Qed.

Lemma confined_createBackupIfNeeded f :
  Q (f ++ cfg.(backupExtension)) -> stable (confined Q) (createBackupIfNeeded cfg f).
Proof. intros. unfold createBackupIfNeeded. stab confdb. Qed.

Lemma confined_cleanupTempFile t :
  (forall x, t = Some x -> Q x) -> stable (confined Q) (cleanupTempFile t).
Proof. intros Ht. unfold cleanupTempFile. destruct t; stab confdb. Qed.

Lemma confined_atomicWrite_fail t b e :
  (forall x, t = Some x -> Q x) -> stable (confined Q) (atomicWrite_fail t b e).
Proof.
  intros Ht. unfold atomicWrite_fail. stab confdb. apply confined_cleanupTempFile. done.
Qed.

Lemma confined_atomicWrite_fail_some t b e :
  Q t -> stable (confined Q) (atomicWrite_fail (Some t) b e).
Proof. intros. apply confined_atomicWrite_fail. congruence. Qed.

Lemma confined_atomicWrite_fail_none b e : stable (confined Q) (atomicWrite_fail None b e).
Proof. apply confined_atomicWrite_fail. congruence. Qed.

Hint Resolve confined_createBackupIfNeeded confined_atomicWrite_fail_some
  confined_atomicWrite_fail_none : confdb.

Lemma confined_atomicWrite q v :
  (forall x, aw_path cfg (resolve cfg q) x -> Q x) -> stable (confined Q) (atomicWrite cfg q v).
Proof.
  intros HQ. unfold atomicWrite.
  assert (Q (resolve cfg q)) by (apply HQ; unfold aw_path; auto).
  assert (Q (resolve cfg q ++ backupExtension cfg)) by (apply HQ; unfold aw_path; auto).
  assert (forall n : nat, Q (resolve cfg q ++ ".tmp" ++ pretty n)) by (intros; apply HQ; unfold aw_path; eauto).
  stab confdb.
Qed.

Hint Resolve confined_atomicWrite : confdb.

Lemma confined_updateIndex df fn fv i :
  (forall x, aw_path cfg (resolve cfg (getIndexFilePath cfg df fn)) x -> Q x) ->
  stable (confined Q) (updateIndex cfg df fn fv i).
Proof. intros HQ. unfold updateIndex. stab confdb. Qed.

Lemma confined_removeFromIndex df fn fv i :
  (forall x, aw_path cfg (resolve cfg (getIndexFilePath cfg df fn)) x -> Q x) ->
  stable (confined Q) (removeFromIndex cfg df fn fv i).
Proof. intros HQ. unfold removeFromIndex. stab confdb. Qed.

Lemma confined_rebuildIndexesForFile df rs fields :
  (forall fn x, aw_path cfg (resolve cfg (getIndexFilePath cfg df fn)) x -> Q x) ->
  stable (confined Q) (rebuildIndexesForFile cfg df rs fields).
Proof. intros HQ. unfold rebuildIndexesForFile. stab confdb. Qed.

End ConfinedStore.

Lemma prefix_slash_app (a b : string) : String.prefix "/" a = true -> String.prefix "/" (a ++ b) = true.
Proof. intros H. eapply prefix_trans; [exact H|apply prefix_app]. Qed.

Lemma resolve_abs cfg p : String.prefix "/" p = true -> resolve cfg p = p.
Proof. unfold resolve. intros ->. done. Qed.

Lemma getIndexFilePath_abs cfg df fn :
  String.prefix "/" cfg.(basePath) = true ->
  resolve cfg (getIndexFilePath cfg df fn) = getIndexFilePath cfg df fn.
Proof.
  intros Hb. apply resolve_abs. unfold getIndexFilePath, getIndexDirForFile.
  rewrite !s_app_assoc. apply prefix_slash_app. done.
Qed.

Lemma aw_path_index_under cfg df fn x :
  String.prefix "/" cfg.(basePath) = true ->
  aw_path cfg (resolve cfg (getIndexFilePath cfg df fn)) x ->
  under (getIndexDirForFile cfg df) x = true.
Proof.
  intros Hb. rewrite getIndexFilePath_abs by done. unfold under, getIndexFilePath.
  intros Hx. apply prefix_spec.
  destruct Hx as [->|[->|[n ->]]].
  - exists (ensureJsonExtension fn). rewrite s_app_assoc. reflexivity.
  - exists (ensureJsonExtension fn ++ backupExtension cfg). rewrite !s_app_assoc. reflexivity.
  - exists (ensureJsonExtension fn ++ ".tmp" ++ pretty n). rewrite !s_app_assoc. reflexivity.
Qed.

Lemma under_index_root cfg df x :
  under (getIndexDirForFile cfg df) x = true -> under (cfg.(basePath) ++ "/index") x = true.
Proof.
  unfold under, getIndexDirForFile, INDEX_DIR_NAME. intros H. eapply prefix_trans; [|exact H].
  apply prefix_spec. exists (basename df ++ ".index/"). rewrite !s_app_assoc. reflexivity.
Qed.

Section KeepsOps.
Context (cfg : config) (P : string).

Lemma keeps_io {A} e (act : world -> res A * world) :
  (forall w r w', act w = (r, w') -> w'.(w_locks) = w.(w_locks) /\ w'.(w_files) !! P = w.(w_files) !! P) ->
  stable (keeps P) (io e act).
Proof.
  intros Ha. apply stable_io.
  - intros w. apply quiet_sub_keeps, quiet_next_op.
  - intros w r w' Hr Hin. destruct (Ha _ _ _ Hr) as [Hl Hf]. rewrite Hl, Hf. done.
Qed.

Ltac keeps_act := intros ??? Hr; repeat case_match; injection Hr as _ <-; split; try done;
  simpl; rewrite ?lookup_insert_ne, ?lookup_delete_ne by congruence; done.

Lemma keeps_fs_open_w p : p <> P -> stable (keeps P) (fs_open_w p).
Proof. intros. apply keeps_io. keeps_act. Qed.
Lemma keeps_fh_writeFile p v : p <> P -> stable (keeps P) (fh_writeFile p v).
Proof. intros. apply keeps_io. keeps_act. Qed.
Lemma keeps_fs_unlink p : p <> P -> stable (keeps P) (fs_unlink p).
Proof. intros. apply keeps_io. keeps_act. Qed.
Lemma keeps_fs_copyFile s d : d <> P -> stable (keeps P) (fs_copyFile s d).
Proof. intros. apply keeps_io. keeps_act. Qed.
Lemma keeps_fs_rename s d : s <> P -> d <> P -> stable (keeps P) (fs_rename s d).
Proof. intros. apply keeps_io. keeps_act. Qed.
Lemma keeps_acquireLock f : stable (keeps P) (acquireLock cfg f).
Proof.
  intros w r w'. unfold acquireLock. case_match; intros [= _ <-]; [reflexivity|].
  intros Hin. split; [done|]. simpl. set_solver.
Qed.
Lemma keeps_releaseLock f : resolve cfg f <> P -> stable (keeps P) (releaseLock cfg f).
Proof.
  intros Hne w r w'. unfold releaseLock. intros [= _ <-] Hin. split; [done|]. simpl.
  apply list_elem_of_In, filter_In. split; [apply list_elem_of_In; done|].
  apply negb_true_iff, String.eqb_neq. congruence.
Qed.
Lemma keeps_quiet {A} (m : M A) : stable quiet m -> stable (keeps P) m.
Proof. apply quiet_keeps. Qed.

End KeepsOps.

Create HintDb keepsdb.
Global Hint Resolve keeps_fs_open_w keeps_fh_writeFile keeps_fs_unlink keeps_fs_copyFile
  keeps_fs_rename keeps_acquireLock keeps_releaseLock : keepsdb.
Global Hint Extern 2 (stable (keeps _) _) => apply keeps_quiet; solve [eauto with quietdb] : keepsdb.

Section KeepsStore.
Context (cfg : config) (P : string).

Lemma keeps_createBackupIfNeeded f :
  f ++ cfg.(backupExtension) <> P -> stable (keeps P) (createBackupIfNeeded cfg f).
Proof. intros. unfold createBackupIfNeeded. stab keepsdb. Qed.

Lemma keeps_atomicWrite_fail t b e :
  (forall x, t = Some x -> x <> P) -> stable (keeps P) (atomicWrite_fail t b e).
Proof.
  intros Ht. unfold atomicWrite_fail, cleanupTempFile.
  assert (forall x, t = Some x -> stable (keeps P) (fs_unlink x)) by (intros; apply keeps_fs_unlink; eauto).
  destruct t; stab keepsdb.
Qed.

Lemma keeps_atomicWrite_fail_some t b e : t <> P -> stable (keeps P) (atomicWrite_fail (Some t) b e).
Proof. intros. apply keeps_atomicWrite_fail. congruence. Qed.
Lemma keeps_atomicWrite_fail_none b e : stable (keeps P) (atomicWrite_fail None b e).
Proof. apply keeps_atomicWrite_fail. congruence. Qed.
Hint Resolve keeps_createBackupIfNeeded keeps_atomicWrite_fail_some keeps_atomicWrite_fail_none : keepsdb.

Lemma keeps_atomicWrite q v :
  ~ aw_path cfg (resolve cfg q) P -> stable (keeps P) (atomicWrite cfg q v).
Proof.
  intros HQ. unfold atomicWrite, aw_path in *.
  assert (resolve cfg q <> P) by (intros E; apply HQ; left; congruence).
  assert (resolve cfg q ++ backupExtension cfg <> P) by (intros E; apply HQ; right; left; congruence).
  assert (forall n : nat, resolve cfg q ++ ".tmp" ++ pretty n <> P)
    by (intros n E; apply HQ; right; right; exists n; congruence).
  stab keepsdb.
Qed.

End KeepsStore.


Lemma op_handler_throws {A} ev : always_throws (op_handler (A:=A) ev).
Proof. intros e w. unfold op_handler, mbind, M_bind, emit. simpl. destruct (is_xdb_error e); eauto. Qed.

Section Locked.
Context (cfg : config) (P : string).


Lemma lock_post_acquire f : lock_post cfg P f (acquireLock cfg f).
Proof.
  intros w w' Hin. unfold acquireLock. case_match eqn:E; [done|]. intros _ Heq.
  apply not_true_iff_false in E. apply E, existsb_exists.
  exists P. split; [apply list_elem_of_In; done|]. rewrite Heq. apply String.eqb_refl.
Qed.

Lemma lock_post_bind f (m : M unit) X :
  stable quiet m -> lock_post cfg P f X -> lock_post cfg P f (m ;; X).
Proof.
  intros Hm HX w w' Hin. unfold mbind, M_bind.
  destruct (m w) as [[[]|e] w1] eqn:E; [|done]. intros H.
  destruct (Hm _ _ _ E) as (_&Hl&_). eapply HX; [|exact H]. rewrite Hl. done.
Qed.

Lemma keeps_locked {A} (X : M unit) (h1 : xerr -> M unit) (body : M A) h2 f :
  stable (keeps P) X -> lock_post cfg P f X -> always_throws h1 -> (forall e, stable (keeps P) (h1 e)) ->
  (forall e, stable (keeps P) (h2 e)) -> (resolve cfg f <> P -> stable (keeps P) body) ->
  stable (keeps P) (catch X h1 ;; finally (catch body h2) (releaseLock cfg f)).
Proof.
  intros HX Hpost Hth Hh1 Hh2 Hbody w r w' Hr Hin.
  unfold mbind, M_bind, catch at 1 in Hr.
  destruct (X w) as [[[]|e] w1] eqn:EX.
  - pose proof (Hpost _ _ Hin EX) as Hne.
    assert (keeps P w w1) as K1 by (eapply HX; eauto).
    assert (keeps P w1 w') as K2.
    { assert (stable (keeps P) (finally (catch body h2) (releaseLock cfg f))) as S.
      { apply stable_finally; [apply _|apply stable_catch; [apply _|auto|auto]|apply keeps_releaseLock; done]. }
      exact (S _ _ _ Hr). }
    apply (transitivity K1 K2). done.
  - destruct (Hth e w1) as (e' & w2 & E2). rewrite E2 in Hr. injection Hr as _ <-.
    assert (keeps P w w1) as K1 by (eapply HX; eauto).
    assert (keeps P w1 w2) as K2 by (eapply Hh1; eauto).
    apply (transitivity K1 K2). done.
Qed.

End Locked.

Lemma Forall_omap_intro {A B} (Pr : B -> Prop) (f : A -> option B) l :
  (forall x y, f x = Some y -> Pr y) -> Forall Pr (omap f l).
Proof.
  intros H. induction l as [|x l IH]; simpl; [constructor|].
  destruct (f x) eqn:E; [constructor; eauto|done].
Qed.

Section KeepsOps2.
Context (cfg : config) (P : string).
Hypothesis Hindex : forall df fn, ~ aw_path cfg (resolve cfg (getIndexFilePath cfg df fn)) P.
Hypothesis Hdata : forall x, x <> P -> ~ aw_path cfg x P.

Lemma index_ne df fn : resolve cfg (getIndexFilePath cfg df fn) <> P.
Proof. intros E. apply (Hindex df fn). left. congruence. Qed.

Hint Resolve keeps_atomicWrite index_ne : keepsdb.

Lemma keeps_updateIndex df fn fv i : stable (keeps P) (updateIndex cfg df fn fv i).
Proof. unfold updateIndex. stab keepsdb. Qed.

Lemma keeps_removeFromIndex df fn fv i : stable (keeps P) (removeFromIndex cfg df fn fv i).
Proof. unfold removeFromIndex. stab keepsdb. Qed.

Hint Resolve keeps_updateIndex keeps_removeFromIndex : keepsdb.

Lemma keeps_data_atomicWrite f v : resolve cfg f <> P -> stable (keeps P) (atomicWrite cfg f v).
Proof. intros. apply keeps_atomicWrite. apply Hdata. done. Qed.

Lemma keeps_data_backup f : resolve cfg f <> P -> stable (keeps P) (createBackupIfNeeded cfg (resolve cfg f)).
Proof.
  intros Hne. apply keeps_createBackupIfNeeded. intros E. apply (Hdata _ Hne). right; left. congruence.
Qed.

Hint Resolve keeps_data_atomicWrite keeps_data_backup : keepsdb.

Lemma keeps_editRecordById f i r : stable (keeps P) (editRecordById cfg f i r).
Proof.
  unfold editRecordById. cbv zeta.
  apply keeps_locked.
  - stab keepsdb.
  - repeat apply lock_post_bind; eauto with quietdb. apply lock_post_acquire.
  - apply op_handler_throws.
  - intros; stab keepsdb.
  - intros; stab keepsdb.
  - intros Hne. stab keepsdb.
Qed.

Hint Resolve keeps_editRecordById : keepsdb.

Lemma keeps_relatedChecks fuel f i :
  (forall f' i', stable (keeps P) (deleteRecordById cfg fuel f' i')) ->
  Forall (check_stable (keeps P)) (relatedChecks cfg (viewMore cfg) (deleteRecordById cfg fuel) (editRecordById cfg) f i).
Proof.
  intros IH. unfold relatedChecks. apply Forall_omap_intro. intros [n rel] y Hy.
  repeat case_match; simplify_eq.
  - unfold restrict_check. case_match; stab keepsdb.
  - unfold cascade_delete. case_match; stab keepsdb.
  - unfold set_null. case_match; stab keepsdb.
Qed.

Lemma keeps_commit_delete f full i data rd :
  resolve cfg f <> P -> full = resolve cfg f -> stable (keeps P) (commit_delete cfg f full i data rd).
Proof. intros Hne ->. unfold commit_delete. stab keepsdb. Qed.

Lemma keeps_deleteRecordById fuel f i : stable (keeps P) (deleteRecordById cfg fuel f i).
Proof.
  revert f i; induction fuel as [|fuel IH]; intros; simpl; [stab keepsdb|].
  unfold deleteRecordById_with. cbv zeta.
  apply keeps_locked.
  - stab keepsdb.
  - repeat apply lock_post_bind; eauto with quietdb. apply lock_post_acquire.
  - apply op_handler_throws.
  - intros; stab keepsdb.
  - intros; stab keepsdb.
  - intros Hne. pose proof (keeps_relatedChecks fuel (ensureJsonExtension f) i IH).
    stab keepsdb. apply keeps_commit_delete; done.
Qed.

End KeepsOps2.


Lemma guard_index cfg P : store_guard cfg P = true ->
  forall df fn, ~ aw_path cfg (resolve cfg (getIndexFilePath cfg df fn)) P.
Proof.
  unfold store_guard. intros H df fn Hp. apply andb_prop in H as [H H4].
  apply andb_prop in H as [H H3]. apply andb_prop in H as [H1 H2].
  apply aw_path_index_under, under_index_root in Hp; [|done].
  rewrite Hp in H2. done.
Qed.

Lemma guard_data cfg P : store_guard cfg P = true -> forall x, x <> P -> ~ aw_path cfg x P.
Proof.
  unfold store_guard. intros H x Hne Hp. apply andb_prop in H as [H H4].
  apply andb_prop in H as [H H3]. apply andb_prop in H as [H1 H2].
  destruct Hp as [->|[->|[n ->]]].
  - done.
  - destruct (backupExtension cfg) as [|c e] eqn:E.
    + apply Hne. symmetry. apply s_app_nil_r.
    + rewrite last_char_app in H3 by done. rewrite H3 in H4. done.
  - rewrite last_char_app in H3 by done. rewrite last_char_app in H3 by (destruct (pretty_nat_last n) as [c [Hc _]]; intros E; rewrite E in Hc; done).
    destruct (pretty_nat_last n) as [c [Hc Hd]]. rewrite Hc in H3. simpl in H3.
    apply orb_prop in H3 as [E|E]; apply Ascii.eqb_eq in E; subst; done.
Qed.


(** ** Running programs: weakest preconditions *)

Arguments wp : simpl never.

Section WP.

Lemma wp_run {A} (m : M A) (Q : res A -> world -> Prop) w :
  wp m Q w -> let '(r, w') := m w in Q r w'.
Proof. done. Qed.

Lemma wp_elim {A} (m : M A) Q w r w' : wp m Q w -> m w = (r, w') -> Q r w'.
Proof. unfold wp. intros H E. rewrite E in H. done. Qed.

Lemma wp_eq {A} (m : M A) Q w r w' : m w = (r, w') -> Q r w' -> wp m Q w.
Proof. unfold wp. intros ->. done. Qed.

Lemma wp_mono {A} (m : M A) (Q Q' : res A -> world -> Prop) w :
  wp m Q w -> (forall r w', Q r w' -> Q' r w') -> wp m Q' w.
Proof. unfold wp. destruct (m w). auto. Qed.

Lemma wp_ret {A} (a : A) Q w : Q (Ok a) w -> wp (mret a) Q w.
Proof. done. Qed.

Lemma wp_throw {A} e Q w : Q (Err e) w -> wp (throw (A:=A) e) Q w.
Proof. done. Qed.

Lemma wp_bind {A B} (m : M A) (k : A -> M B) Q w :
  wp m (fun r w1 => match r with Ok a => wp (k a) Q w1 | Err e => Q (Err e) w1 end) w ->
  wp (m ≫= k) Q w.
Proof. unfold wp, mbind, M_bind. destruct (m w) as [[a|e] w1]; done. Qed.

Lemma wp_catch {A} (m : M A) h Q w :
  wp m (fun r w1 => match r with Ok a => Q (Ok a) w1 | Err e => wp (h e) Q w1 end) w ->
  wp (catch m h) Q w.
Proof. unfold wp, catch. destruct (m w) as [[a|e] w1]; done. Qed.

Lemma wp_finally {A} (m : M A) f Q w :
  wp m (fun r w1 => wp f (fun r2 w2 => match r2 with Ok _ => Q r w2 | Err e => Q (Err e) w2 end) w1) w ->
  wp (finally m f) Q w.
Proof. unfold wp, finally. destruct (m w) as [r w1]. destruct (f w1) as [[] w2]; done. Qed.

Lemma wp_fmap {A B} (f : A -> B) (m : M A) Q w :
  wp m (fun r w1 => match r with Ok a => Q (Ok (f a)) w1 | Err e => Q (Err e) w1 end) w ->
  wp (f <$> m) Q w.
Proof. unfold wp, fmap, M_fmap, mbind, M_bind. destruct (m w) as [[a|e] w1]; done. Qed.

Lemma wp_stable R {A} (m : M A) Q w :
  stable R m -> (forall r w', R w w' -> Q r w') -> wp m Q w.
Proof. unfold wp. intros Hm HQ. destruct (m w) as [r w'] eqn:E. eauto. Qed.

Lemma wp_emit ev Q w : Q (Ok tt) (record_eff w (EEmit ev)) -> wp (emit ev) Q w.
Proof. done. Qed.

Lemma wp_clear Q w : Q (Ok tt) (record_eff w EClearCache) -> wp clearRelationCache Q w.
Proof. done. Qed.

Lemma wp_release cfg f Q w :
  Q (Ok tt) (set_locks w (List.filter (fun q => negb (String.eqb q (resolve cfg f))) w.(w_locks))) ->
  wp (releaseLock cfg f) Q w.
Proof. done. Qed.

Lemma wp_acquire_free cfg f Q w :
  resolve cfg f ∉ w.(w_locks) ->
  Q (Ok tt) (set_locks w (resolve cfg f :: w.(w_locks))) -> wp (acquireLock cfg f) Q w.
Proof.
  intros Hn HQ. unfold wp, acquireLock. cbv zeta.
  destruct (existsb _ _) eqn:E; [|done].
  exfalso. apply existsb_exists in E as [x [Hx Ex]]. apply String.eqb_eq in Ex. subst.
  apply Hn, list_elem_of_In. done.
Qed.

Lemma wp_tempName f Q w :
  Q (Ok (f ++ ".tmp" ++ pretty w.(w_clock))) (next_clock w) -> wp (tempName f) Q w.
Proof. done. Qed.

Lemma faulty_nil w : w.(w_faults) = [] -> faulty w = false.
Proof. unfold faulty. intros ->. done. Qed.

Lemma wp_io {A} e (act : world -> res A * world) Q w :
  faulty w = false -> wp act Q (record_eff (next_op w) e) -> wp (io e act) Q w.
Proof. unfold wp at 2, io. intros ->. done. Qed.

End WP.

Ltac nf := apply faulty_nil; simpl in *; congruence.

Ltac norm := cbn [w_files w_locks w_faults w_trace w_ops w_clock w_gen w_gen_i
  record_eff next_op set_locks set_files next_clock next_gen] in *.

Ltac wp_step :=
  match goal with
  | |- wp (if ?b then _ else _) _ _ =>
      let v := eval vm_compute in b in
      match v with true => change b with true | false => change b with false end
  | |- wp (mret _) _ _ => apply wp_ret
  | |- wp (throw _) _ _ => apply wp_throw
  | |- wp (mbind _ _) _ _ => apply wp_bind
  | |- wp (catch _ _) _ _ => apply wp_catch
  | |- wp (finally _ _) _ _ => apply wp_finally
  | |- wp (fmap _ _) _ _ => apply wp_fmap
  | |- wp (emit _) _ _ => apply wp_emit
  | |- wp clearRelationCache _ _ => apply wp_clear
  | |- wp (releaseLock _ _) _ _ => apply wp_release
  | |- wp (io _ _) _ _ => apply wp_io; [nf|]
  | |- wp (tempName _) _ _ => apply wp_tempName
  | |- wp (let _ := _ in _) _ _ => cbv zeta
  | |- wp (fun _ => _) _ _ => unfold wp at 1
  end; cbv beta iota.

Ltac wps := repeat wp_step.


Lemma s_length_app (a b : string) : String.length (a ++ b) = String.length a + String.length b.
Proof. induction a as [|c a IH]; [done|]. rewrite s_app_cons. simpl. rewrite IH. done. Qed.

Lemma tmp_ne_full (full s : string) : full ++ ".tmp" ++ s <> full.
Proof.
  intros E. assert (String.length (full ++ ".tmp" ++ s) = String.length full) as H by (rewrite E; done).
  rewrite !s_length_app in H. simpl in H. lia.
Qed.

Ltac lk := repeat first
  [ rewrite lookup_insert_ne by congruence | rewrite lookup_delete_ne by congruence
  | rewrite lookup_insert_eq | rewrite lookup_delete_eq ].

Lemma wp_atomicWrite_nf cfg q v (Q : res unit -> world -> Prop) w :
  w.(w_faults) = [] ->
  (forall w' t tmp, w'.(w_files) !! resolve cfg q = Some (Text v) ->
     (forall x, ~ aw_path cfg (resolve cfg q) x -> w'.(w_files) !! x = w.(w_files) !! x) ->
     w'.(w_locks) = w.(w_locks) -> w'.(w_faults) = [] ->
     w'.(w_trace) = ((w.(w_trace) ++ t) ++ [ERename tmp (resolve cfg q)])%list -> Q (Ok tt) w') ->
  wp (atomicWrite cfg q v) Q w.
Proof.
  intros Hf HQ. unfold atomicWrite. cbv zeta.
  pose proof (tmp_ne_full (resolve cfg q) (pretty (w_clock w))) as Hne.
  assert (Hb : forall (B : bool) (m : M unit), (B = true -> m = createBackupIfNeeded cfg (resolve cfg q)) ->
     wp (if B then m else mret tt) (fun r w1 => match r with Ok _ => w1.(w_faults) = [] /\ w1.(w_locks) = w.(w_locks) /\
        w1.(w_clock) = w.(w_clock) /\
        (forall x, x <> resolve cfg q ++ backupExtension cfg -> w1.(w_files) !! x = w.(w_files) !! x) /\
        (exists t, w1.(w_trace) = (w.(w_trace) ++ t)%list) | Err _ => False end) w).
  { intros B m Hm. destruct B; [rewrite Hm by done|]; wps.
    - unfold createBackupIfNeeded. destruct (isBackupEnabled cfg); wps; [|split_and!; eauto; exists []; rewrite app_nil_r; done].
      unfold fs_stat. wps. norm. destruct (w_files w !! resolve cfg q) eqn:E1; cbv beta iota; wps.
      + unfold fs_copyFile. wps. norm. rewrite E1. cbv beta iota. wps. norm. split_and!; try done.
        * intros x Hx. lk. done.
        * eexists. rewrite <-?app_assoc. reflexivity.
      + norm. split_and!; try done. eexists. rewrite <-?app_assoc. reflexivity.
    - split_and!; eauto. exists []. rewrite app_nil_r. done. }
  apply wp_bind. apply wp_catch. eapply wp_mono; [apply (Hb _ _ (fun _ => eq_refl))|].
  intros [u|e] w1; [|done]. cbv beta iota. intros (Hf1 & Hl1 & Hc1 & Hfr1 & t1 & Ht1).
  wps. rewrite Hc1.
  unfold ensureDirectoryExists, fs_mkdir, fs_open_w, fh_writeFile, fh_sync, fh_close, fs_rename.
  wps. norm. lk. cbv beta iota. wps.
  eapply HQ.
  - norm. lk. done.
  - intros x Hx. norm. unfold aw_path in Hx.
    assert (x <> resolve cfg q) by (intros ->; apply Hx; left; reflexivity).
    assert (x <> resolve cfg q ++ backupExtension cfg) by (intros ->; apply Hx; right; left; reflexivity).
    assert (x <> resolve cfg q ++ ".tmp" ++ pretty (w_clock w))
      by (intros ->; apply Hx; right; right; exists (w_clock w); reflexivity).
    lk. apply Hfr1. done.
  - norm. done.
  - norm. done.
  - norm. rewrite Ht1. f_equal. rewrite <-!app_assoc. reflexivity.
Qed.

Lemma filter_not_in (l : list string) (x : string) :
  x ∉ l -> List.filter (fun q => negb (String.eqb q x)) (x :: l) = l.
Proof.
  intros Hx. simpl. rewrite String.eqb_refl. simpl.
  induction l as [|y l IH]; [done|]. simpl.
  destruct (String.eqb y x) eqn:E.
  - apply String.eqb_eq in E. subst. exfalso. apply Hx. left.
  - simpl. f_equal. apply IH. intros H. apply Hx. right. done.
Qed.

Lemma under_index_dir_ne cfg P df :
  store_guard cfg P = true -> under (getIndexDirForFile cfg df) P = false.
Proof.
  unfold store_guard. intros H. apply andb_prop in H as [H _].
  apply andb_prop in H as [H _]. apply andb_prop in H as [_ H2].
  destruct (under (getIndexDirForFile cfg df) P) eqn:E; [|done].
  apply under_index_root in E. rewrite E in H2. done.
Qed.

(** C10. Deleting all records of a collection, with no injected faults
    and the lock free. If the file is missing, the call succeeds with the
    file's path, the lock table is restored and no file changes. If the file
    exists and lies outside the index and backup areas, it is left holding an
    empty sequence, every index file of the collection is removed, the
    relation cache is cleared and the after-event is emitted. *)
Theorem deleteAll_missing_noop cfg f w :
  let filePath := ensureJsonExtension f in
  let full := resolve cfg filePath in
  w.(w_faults) = [] -> full ∉ w.(w_locks) ->
  let '(r, w') := deleteAll cfg f w in
  r = Ok (path_result full) /\ w'.(w_locks) = w.(w_locks) /\
  match w.(w_files) !! full with
  | None => w'.(w_files) = w.(w_files) /\
            w'.(w_trace) = (w.(w_trace) ++ [EEmit "beforeDeleteAll"; EStat full])%list
  | Some _ => store_guard cfg full = true ->
      w'.(w_files) !! full = Some (Text (JArr [])) /\
      (forall x, under (getIndexDirForFile cfg filePath) x = true -> w'.(w_files) !! x = None) /\
      EClearCache ∈ w'.(w_trace) /\ EEmit "afterDeleteAll" ∈ w'.(w_trace)
  end.
Proof.
  cbv zeta. intros Hf Hl. apply wp_run. unfold deleteAll. cbv zeta.
  wps. apply wp_acquire_free; [done|]. cbv beta iota.
  wps. unfold fs_stat. wps. norm.
  destruct (w_files w !! resolve cfg (ensureJsonExtension f)) as [c|] eqn:Hc; cbv beta iota; wps.
  - (* the file exists *)
    eapply wp_mono with (Q := fun r w1 => match r with
        | Ok _ => w1.(w_faults) = [] /\ w1.(w_locks) = resolve cfg (ensureJsonExtension f) :: w.(w_locks) /\
                  exists t, w1.(w_trace) = (w.(w_trace) ++ t)%list
        | Err _ => False end).
    { destruct (isBackupOnDeleteEnabled cfg); wps.
      - unfold createBackupIfNeeded. destruct (isBackupEnabled cfg); wps.
        + unfold fs_stat, fs_copyFile. wps. norm. rewrite Hc. cbv beta iota. wps. norm. rewrite Hc.
          cbv beta iota. norm. split_and!; try done. eexists. rewrite <-!app_assoc. reflexivity.
        + norm. split_and!; try done. eexists. rewrite <-!app_assoc. reflexivity.
      - norm. split_and!; try done. eexists. rewrite <-!app_assoc. reflexivity. }
    intros [u|e] w1; [|done]. intros (Hf1 & Hl1 & t1 & Ht1). cbv beta iota.
    apply wp_bind. apply wp_atomicWrite_nf; [done|].
    intros w2 t2 tmp H2 Hfr2 Hl2 Hf2 Ht2. cbv beta iota.
    unfold deleteIndexesForFile, fs_rm_rf. wps. norm. rewrite Hl2, Hl1.
    rewrite filter_not_in by done. split_and!; try done.
    intros Hg. split_and!.
    + rewrite map_lookup_filter, H2. simpl. rewrite under_index_dir_ne by done. done.
    + intros x Hx. rewrite map_lookup_filter. destruct (w_files w2 !! x); simpl; [|done].
      rewrite Hx. done.
    + apply elem_of_app. left. apply elem_of_app. right. left.
    + apply elem_of_app. right. left.
  - norm. rewrite filter_not_in by done. split_and!; try done.
    rewrite <-app_assoc. done.
Qed.

(** C9. Outcome of an atomic write. Only the target, its temporary
    sibling and its backup file are touched. The temporary sibling is named
    after the target with a [.tmp] suffix and the current time. On success
    the target holds the new contents and the temporary file is gone: the
    write ends by opening, writing, syncing and closing the temporary file
    and renaming it onto the target. On failure the error is the
    wrapped I/O error, the target keeps its previous contents, and the
    temporary file is absent whenever the cleanup unlink was carried out (it
    appears in the trace); a failed unlink leaves the temporary file behind. *)
Theorem atomicWrite_outcome cfg q v w :
  let full := resolve cfg q in
  let tmp := full ++ ".tmp" ++ pretty w.(w_clock) in
  let '(r, w') := atomicWrite cfg q v w in
  (forall x, x <> full -> x <> tmp -> x <> full ++ cfg.(backupExtension) ->
     w'.(w_files) !! x = w.(w_files) !! x) /\
  match r with
  | Ok _ => w'.(w_files) !! full = Some (Text v) /\ w'.(w_files) !! tmp = None /\
      exists t, w'.(w_trace) =
        (w.(w_trace) ++ t ++ [EOpen tmp; EWrite tmp; ESync tmp; EClose tmp; ERename tmp full])%list
  | Err e =>
      e = createXdbError IO_ERROR /\ w'.(w_files) !! full = w.(w_files) !! full /\
      exists t, w'.(w_trace) = (w.(w_trace) ++ t)%list /\
                (EUnlink tmp ∈ t -> w'.(w_files) !! tmp = None)
  end.
Proof.
  cbv zeta. destruct w as [fs locks gen gi clock ops faults tr].
  pose proof (tmp_ne_full (resolve cfg q) (pretty clock)) as Hne.
  unfold atomicWrite, createBackupIfNeeded, atomicWrite_fail, cleanupTempFile, tempName,
    ensureDirectoryExists, fs_stat, fs_copyFile, fs_mkdir, fs_open_w, fh_writeFile, fh_sync,
    fh_close, fs_rename, fs_unlink, io, catch, mbind, M_bind, mret, M_ret, throw.
  simpl.
  repeat (case_match; simplify_eq/=).
  all: repeat match goal with H : <[?k := _]> _ !! ?k = _ |- _ => rewrite lookup_insert_eq in H end.
  all: simplify_eq.
  all: try (split; [intros x Hx1 Hx2 Hx3; lk; done|]).
  all: try (split; [reflexivity|]).
  all: try (split; [lk; rewrite ?lookup_insert; repeat case_decide; simplify_eq; done|]).
  all: try (split; [lk; done|]).
  all: try (eexists; split; [rewrite <-?app_assoc; reflexivity|]).
  all: try (intros Hm; lk; try done; apply list_elem_of_In in Hm; simpl in Hm; destruct_or! Hm; simplify_eq; fail).
  all: try (lk; done).
  all: try (exists []; split; [rewrite app_nil_r; done | intros Hm; inversion Hm]).
  all: rewrite <-?app_assoc; simpl;
    match goal with |- exists t, (_ ++ ?L = _ ++ t ++ ?S)%list =>
      exists (take (length L - length S) L); reflexivity end.
Qed.

Lemma wp_safeParseJSON_text cfg f v (Q : res jval -> world -> Prop) w :
  w.(w_faults) = [] -> w.(w_files) !! resolve cfg f = Some (Text v) ->
  (forall w', quiet w w' -> Q (Ok v) w') -> wp (safeParseJSON cfg f) Q w.
Proof.
  intros Hf Hc HQ. unfold safeParseJSON, fs_readFile. wps. norm. rewrite Hc. cbv beta iota. wps.
  apply HQ. split_and!; try done. exists [ERead (resolve cfg f)]. split; [done|].
  intros e ->%list_elem_of_singleton. done.
Qed.

Lemma list_omap_app {A B} (g : A -> option B) (l1 l2 : list A) :
  omap g (l1 ++ l2)%list = (omap g l1 ++ omap g l2)%list.
Proof. induction l1 as [|x l1 IH]; simpl; [done|]. destruct (g x); simpl; [f_equal|]; exact IH. Qed.

Lemma promise_all_cons_ok p ps w w1 :
  p w = (Ok tt, w1) -> promise_all (p :: ps) w = promise_all ps w1.
Proof.
  intros E. simpl. unfold mbind, M_bind, catch, mret, M_ret. rewrite E.
  destruct (promise_all ps w1) as [[[]|e] w2]; reflexivity.
Qed.

Lemma promise_all_cons_err p ps w e w1 :
  p w = (Err e, w1) -> promise_all (p :: ps) w = (Err e, snd (promise_all ps w1)).
Proof.
  intros E. simpl. unfold mbind, M_bind, catch, mret, M_ret, throw. rewrite E.
  destruct (promise_all ps w1) as [[[]|e'] w2]; reflexivity.
Qed.

Lemma M_bind_ok {A B} (m : M A) (k : A -> M B) w a w1 :
  m w = (Ok a, w1) -> (m ≫= k) w = k a w1.
Proof. intros E. unfold mbind, M_bind. rewrite E. reflexivity. Qed.

Lemma opf_or_ok_ret : opf_or_ok (mret tt).
Proof. intros w r w' [= <- _]. left. done. Qed.

Lemma opf_or_ok_opf : opf_or_ok (throw (createXdbError OPERATION_FAILED)).
Proof. intros w r w' [= <- _]. right. done. Qed.

Lemma opf_or_ok_catch (m : M unit) h : (forall e, opf_or_ok (h e)) -> opf_or_ok (catch m h).
Proof.
  intros Hh w r w'. unfold catch. destruct (m w) as [[[]|e] w1]; [intros [= <- _]; left; done|apply Hh].
Qed.

(** A [Promise.all] whose branches each succeed or fail with
    [OPERATION_FAILED], one of which always fails, fails with
    [OPERATION_FAILED]. *)
Lemma promise_all_opf (R : world -> world -> Prop) `{!PreOrder R} ps :
  Forall (fun p => stable R p /\ opf_or_ok p) ps ->
  (exists p, p ∈ ps /\ forall w, fst (p w) = Err (createXdbError OPERATION_FAILED)) ->
  forall w, exists w', promise_all ps w = (Err (createXdbError OPERATION_FAILED), w') /\ R w w'.
Proof.
  induction 1 as [|p ps [Hp Hp2] Hps IH]; intros [q [Hq Hfire]] w.
  { inversion Hq. }
  destruct (p w) as [r w1] eqn:E.
  assert (R w w1) as Hw1 by (eapply Hp; exact E).
  destruct (Hp2 _ _ _ E) as [->| ->].
  - rewrite (promise_all_cons_ok _ _ _ _ E).
    apply elem_of_cons in Hq as [->|Hq].
    + specialize (Hfire w). rewrite E in Hfire. discriminate.
    + destruct (IH (ex_intro _ q (conj Hq Hfire)) w1) as [w' [E' HR]].
      exists w'. split; [done|]. etrans; done.
  - rewrite (promise_all_cons_err _ _ _ _ _ E). eexists. split; [reflexivity|].
    etrans; [exact Hw1|].
    assert (stable R (promise_all ps)) as S.
    { apply (stable_promise_all R). eapply Forall_impl; [exact Hps|]. intros ? []; done. }
    apply (S w1 (fst (promise_all ps w1))). destruct (promise_all ps w1); done.
Qed.

(** The first phase of the relation checks: every view.more runs, from
    worlds that only differ from the start by reads. *)
Lemma run_checks_queries (cs : list check) w0 :
  Forall (fun c => stable quiet c.(check_query)) cs ->
  exists results w1,
    mapM (fun c => catch (v ← c.(check_query); mret (Ok v)) (fun e => mret (Err e))) cs w0
      = (Ok results, w1) /\
    quiet w0 w1 /\
    Forall2 (fun c r => exists w', quiet w0 w' /\ r = fst (c.(check_query) w')) cs results.
Proof.
  intros Hcs. revert w0. induction Hcs as [|c cs Hc Hcs IH]; intros w0.
  - exists [], w0. split_and!; [reflexivity|reflexivity|constructor].
  - destruct (c.(check_query) w0) as [r w1] eqn:E.
    assert (quiet w0 w1) as Q1 by (eapply Hc; exact E).
    destruct (IH w1) as (results & w2 & E2 & Q2 & F2).
    exists (r :: results), w2. split_and!.
    + assert (catch (c.(check_query) ≫= (fun v => mret (Ok v))) (fun e => mret (Err e)) w0
                = (Ok r, w1)) as E'.
      { unfold catch, mbind at 1, M_bind at 1. rewrite E. destruct r; reflexivity. }
      cbn [mapM]. rewrite (M_bind_ok _ _ _ _ _ E'), (M_bind_ok _ _ _ _ _ E2). reflexivity.
    + etrans; done.
    + constructor.
      * exists w0. split; [reflexivity|]. rewrite E. done.
      * eapply Forall2_impl; [exact F2|]. intros c' r' [w' [Hw' ->]].
        exists w'. split; [etrans; done|done].
Qed.

Lemma Forall_zip_with_rest (Q : M unit -> Prop) (cs : list check) (results : list (res jval)) :
  Forall (fun c => forall r, Q (c.(check_rest) r)) cs ->
  Forall Q (zip_with (fun c r => c.(check_rest) r) cs results).
Proof. intros H. revert results. induction H; intros [|r rs]; simpl; constructor; auto. Qed.

(** When one check's continuation fails with [OPERATION_FAILED] on the
    outcome of its query, whatever the world, the checks fail with
    [OPERATION_FAILED]. *)
Lemma run_checks_opf (R : world -> world -> Prop) `{!PreOrder R} cs w0 c :
  (forall w w', quiet w w' -> R w w') ->
  Forall (fun c => stable quiet c.(check_query) /\
                   forall r, stable R (c.(check_rest) r) /\ opf_or_ok (c.(check_rest) r)) cs ->
  c ∈ cs ->
  (forall w', quiet w0 w' -> forall w'',
     fst (c.(check_rest) (fst (c.(check_query) w')) w'') = Err (createXdbError OPERATION_FAILED)) ->
  exists w', run_checks cs w0 = (Err (createXdbError OPERATION_FAILED), w') /\ R w0 w'.
Proof.
  intros HR Hcs Hc Hfire.
  destruct (run_checks_queries cs w0) as (results & w1 & E1 & Q1 & F1).
  { eapply Forall_impl; [exact Hcs|]. intros ? []; done. }
  apply list_elem_of_lookup_1 in Hc as [j Hj].
  eapply Forall2_lookup_l in F1 as (r & Hr & w' & Hw' & ->); [|exact Hj].
  unfold run_checks. rewrite (M_bind_ok _ _ _ _ _ E1).
  destruct (promise_all_opf R (zip_with (fun c r => c.(check_rest) r) cs results)) with (w := w1)
    as (w2 & E2 & R2).
  - apply Forall_zip_with_rest. eapply Forall_impl; [exact Hcs|]. intros ? [_ H] r'. apply H.
  - exists (c.(check_rest) (fst (c.(check_query) w'))). split.
    + eapply list_elem_of_lookup_2. rewrite lookup_zip_with, Hj, Hr. reflexivity.
    + apply Hfire. done.
  - exists w2. split; [exact E2|]. etrans; [apply HR; exact Q1|exact R2].
Qed.

Lemma read_id_some r : r <> JNull -> read_id r = Some (rec_id r).
Proof. destruct r; done. Qed.

Lemma id_taken_some data id :
  Forall (fun r => r <> JNull) data ->
  id_taken data id = Some (existsb (fun r => String.eqb (rec_id r) id) data).
Proof.
  unfold id_taken. induction 1 as [|x l Hx _ IH]; [done|].
  cbn [some_opt existsb]. rewrite (read_id_some x Hx). simpl.
  destruct (String.eqb (rec_id x) id); [done|exact IH].
Qed.

Lemma filter_opt_read_id (p : string -> bool) data :
  Forall (fun r => r <> JNull) data ->
  filter_opt (fun r => p <$> read_id r) data = Some (List.filter (fun r => p (rec_id r)) data).
Proof.
  induction 1 as [|x l Hx _ IH]; [done|].
  cbn [filter_opt]. rewrite (read_id_some x Hx). simpl. rewrite IH. simpl.
  destruct (p (rec_id x)); done.
Qed.

Lemma filter_opt_keeps f l l' x :
  filter_opt f l = Some l' -> In x l -> f x = Some true -> In x l'.
Proof.
  revert l'. induction l as [|y l IH]; intros l' E Hx Hf; [done|].
  cbn [filter_opt] in E. destruct (f y) as [b|] eqn:Ey; [|done]. simpl in E.
  destruct (filter_opt f l) as [l1|]; [|done]. simpl in E. injection E as <-.
  destruct Hx as [->|Hx].
  - rewrite Ey in Hf. injection Hf as ->. left. done.
  - destruct b; [right|]; eapply IH; eauto.
Qed.

Lemma loose_eq_filter_true k id r :
  js_loose_eq_str (field r k) id = true -> loose_eq_filter k id r = Some true.
Proof. destruct r; try done. all: unfold loose_eq_filter; simpl; intros ->; done. Qed.

Lemma restrict_check_rest_opf vm id rel r : opf_or_ok ((restrict_check vm id rel).(check_rest) r).
Proof.
  unfold restrict_check. destruct (if String.eqb rel.(rel_type) "N:M" then _ else _) as [cf cfd].
  cbn [check_rest]. apply opf_or_ok_catch. intros e.
  destruct (err_is e FILE_NOT_FOUND); [apply opf_or_ok_ret|apply opf_or_ok_opf].
Qed.

(** Every relation check reads in its query and ends in success or
    [OPERATION_FAILED]. *)
Lemma relatedChecks_quiet_opf cfg del ed fp id :
  Forall (fun c => stable quiet c.(check_query) /\ forall r, opf_or_ok (c.(check_rest) r))
    (relatedChecks cfg (viewMore cfg) del ed fp id).
Proof.
  unfold relatedChecks. apply Forall_omap_intro. intros [n rel] y Hy.
  repeat case_match; simplify_eq.
  - split; [unfold restrict_check; case_match; apply quiet_viewMore|apply restrict_check_rest_opf].
  - unfold cascade_delete. case_match. cbn [check_query check_rest].
    split; [apply quiet_viewMore|intros; apply opf_or_ok_catch; intros; apply opf_or_ok_ret].
  - unfold set_null. case_match; cbn [check_query check_rest].
    all: split; [apply quiet_viewMore|intros; apply opf_or_ok_catch; intros; apply opf_or_ok_ret].
Qed.

Lemma relatedChecks_restrict_in cfg vm del ed fp id name rel :
  In (name, rel) cfg.(relationDefinitions) ->
  rel.(localFile) = fp -> rel.(onDelete) = "RESTRICT" ->
  restrict_check vm id rel ∈ relatedChecks cfg vm del ed fp id.
Proof.
  intros Hin Hl Ho. unfold relatedChecks. apply list_elem_of_omap.
  exists (name, rel). split; [apply list_elem_of_In; done|].
  rewrite Hl, String.eqb_refl, Ho. reflexivity.
Qed.

(** The continuation of a RESTRICT check whose query saw a referencing
    record fails with [OPERATION_FAILED], whatever the world it runs in:
    either the filter found the record, or it threw on a [null] record and
    view.more failed with [OPERATION_FAILED]. *)
Lemma restrict_check_fires cfg id rel rs w' :
  w'.(w_faults) = [] ->
  let '(checkFile, checkField) :=
    if String.eqb rel.(rel_type) "N:M" then (rel.(junctionFile), rel.(junctionLocalField))
    else (rel.(foreignFile), rel.(foreignField)) in
  w'.(w_files) !! resolve cfg (ensureJsonExtension checkFile) = Some (Text (JArr rs)) ->
  existsb (fun r => js_loose_eq_str (field r checkField) id) rs = true ->
  forall w'', fst ((restrict_check (viewMore cfg) id rel).(check_rest)
                     (fst ((restrict_check (viewMore cfg) id rel).(check_query) w')) w'') =
              Err (createXdbError OPERATION_FAILED).
Proof.
  intros Hf. unfold restrict_check. destruct (if String.eqb rel.(rel_type) "N:M" then _ else _) as [cf cfd].
  intros Hc Hex w''. cbn [check_query check_rest].
  assert (fst (viewMore cfg cf (filter_options (loose_eq_filter cfd id) (Some 1%Z)) w') =
            Err (createXdbError OPERATION_FAILED) \/
          exists v, fst (viewMore cfg cf (filter_options (loose_eq_filter cfd id) (Some 1%Z)) w') = Ok v /\
                    result_data v <> []) as [E|[v [E Hv]]].
  { cut (wp (viewMore cfg cf (filter_options (loose_eq_filter cfd id) (Some 1%Z)))
            (fun r _ => r = Err (createXdbError OPERATION_FAILED) \/
                        exists v, r = Ok v /\ result_data v <> []) w').
    { unfold wp. destruct (viewMore _ _ _ w'). done. }
    unfold viewMore. cbv zeta. apply wp_catch, wp_bind.
    eapply wp_safeParseJSON_text; [done|exact Hc|]. intros w1 _. cbv beta iota.
    cbn [options_valid filter_options opt_skip opt_limit opt_sort opt_filter negb andb].
    apply existsb_exists in Hex as [x [Hx Ex]].
    destruct (filter_opt (loose_eq_filter cfd id) rs) as [l|] eqn:F.
    - pose proof (filter_opt_keeps _ _ _ x F Hx (loose_eq_filter_true _ _ _ Ex)) as Hl.
      destruct l as [|x0 l]; [done|].
      wps. right. eexists. split; [reflexivity|]. done.
    - wps. left. done. }
  - rewrite E. reflexivity.
  - rewrite E. unfold catch, await_res, mbind, M_bind, mret, M_ret.
    destruct (result_data v); [done|]. reflexivity.
Qed.

Lemma filter_length_ne {A} (p : A -> bool) (l : list A) :
  existsb p l = true -> Nat.eqb (length l) (length (List.filter (fun x => negb (p x)) l)) = false.
Proof.
  intros H. apply Nat.eqb_neq. induction l as [|x l IH]; simpl in *; [done|].
  destruct (p x) eqn:E; simpl.
  - pose proof (List.filter_length_le (fun x => negb (p x)) l). lia.
  - intros [= E']. apply IH; done.
Qed.





Lemma insert_by_perm cmp x l : insert_by cmp x l ≡ₚ x :: l.
Proof.
  induction l as [|y l IH]; simpl; [done|].
  destruct (cmp y x <=? 0)%Z; [|done].
  rewrite IH. apply perm_swap.
Qed.

Lemma fold_insert_perm cmp l acc :
  fold_left (fun acc x => insert_by cmp x acc) l acc ≡ₚ l ++ acc.
Proof.
  revert acc. induction l as [|x l IH]; intros acc; simpl; [done|].
  rewrite IH, insert_by_perm. rewrite <-Permutation_middle. done.
Qed.

Lemma sgn_cases (z : Z) :
  ((z < 0)%Z /\ Z.sgn z = (-1)%Z) \/ (z = 0%Z /\ Z.sgn z = 0%Z) \/ ((0 < z)%Z /\ Z.sgn z = 1%Z).
Proof. destruct z; simpl; lia. Qed.

Lemma filter_all_false {A} (p : A -> bool) (l : list A) :
  (forall z, In z l -> p z = false) -> List.filter p l = [].
Proof.
  induction l as [|x l IH]; intros H; simpl; [done|].
  rewrite H by (left; done). apply IH. intros; apply H; right; done.
Qed.

Lemma StronglySorted_lookup {A} (R : A -> A -> Prop) (l : list A) i j x y :
  StronglySorted R l -> (i < j)%nat -> l !! i = Some x -> l !! j = Some y -> R x y.
Proof.
  intros H. revert i j. induction H as [|a l _ IH Ha]; intros i j Hij Hi Hj; [done|].
  destruct i as [|i]; destruct j as [|j]; [lia| | |].
  - simpl in Hi, Hj. injection Hi as <-. rewrite Forall_forall in Ha. apply Ha.
    apply list_elem_of_lookup_2 in Hj. exact Hj.
  - lia.
  - simpl in Hi, Hj. apply (IH i j); [lia|done|done].
Qed.

(** The insertion sort on the elements of [dom], for a comparator that is
    a total preorder there. *)
Section InsertionSort.
Local Open Scope list_scope.
Variable cmp : jval -> jval -> Z.
Variable dom : list jval.
Hypothesis Hanti : forall x y, In x dom -> In y dom -> Z.sgn (cmp x y) = (- Z.sgn (cmp y x))%Z.
Hypothesis Htrans : forall x y z, In x dom -> In y dom -> In z dom ->
  (cmp x y <= 0)%Z -> (cmp y z <= 0)%Z -> (cmp x z <= 0)%Z.

Definition cmp_le (x y : jval) : Prop := (cmp x y <= 0)%Z.

Lemma cmp_total x y : In x dom -> In y dom -> (cmp y x <= 0)%Z \/ (cmp x y <= 0)%Z.
Proof.
  intros Hx Hy. pose proof (Hanti x y Hx Hy) as A.
  destruct (sgn_cases (cmp x y)) as [[? E]|[[? E]|[? E]]];
  destruct (sgn_cases (cmp y x)) as [[? E']|[[? E']|[? E']]]; lia.
Qed.

Lemma cmp_zero_sym x y : In x dom -> In y dom -> cmp x y = 0%Z -> cmp y x = 0%Z.
Proof.
  intros Hx Hy E. pose proof (Hanti x y Hx Hy) as A. rewrite E in A.
  destruct (sgn_cases (cmp y x)) as [[? E']|[[? E']|[? E']]]; lia.
Qed.

Lemma insert_by_sorted x l :
  In x dom -> (forall y, In y l -> In y dom) ->
  StronglySorted cmp_le l -> StronglySorted cmp_le (insert_by cmp x l).
Proof.
  intros Hx. induction l as [|y l IH]; intros Hl Hs; simpl.
  - constructor; [constructor|constructor].
  - inversion Hs as [|? ? Hs' Hf]; subst.
    destruct (cmp y x <=? 0)%Z eqn:E.
    + constructor.
      * apply IH; [intros; apply Hl; right; done|done].
      * eapply Permutation_Forall; [symmetry; apply insert_by_perm|].
        constructor; [apply Z.leb_le; done|done].
    + apply Z.leb_gt in E.
      assert (cmp_le x y) as Hxy.
      { destruct (cmp_total y x) as [?|?]; [apply Hl; left; done|done|unfold cmp_le; lia|lia]. }
      constructor; [constructor; done|].
      constructor; [done|]. rewrite Forall_forall in Hf |- *. intros z Hz.
      apply (Htrans x y z); [done|apply Hl; left; done|apply Hl; right; apply list_elem_of_In; done
                             |done|apply Hf; done].
Qed.

Lemma fold_insert_sorted l acc :
  (forall y, In y l -> In y dom) -> (forall y, In y acc -> In y dom) ->
  StronglySorted cmp_le acc ->
  StronglySorted cmp_le (fold_left (fun acc x => insert_by cmp x acc) l acc).
Proof.
  revert acc. induction l as [|x l IH]; intros acc Hl Hacc Hs; simpl; [done|].
  apply IH.
  - intros; apply Hl; right; done.
  - intros y Hy. eapply Permutation_in in Hy; [|apply insert_by_perm].
    destruct Hy as [<-|Hy]; [apply Hl; left; done|apply Hacc; done].
  - apply insert_by_sorted; [apply Hl; left; done|done|done].
Qed.

(** [eqv e x]: [x] compares equal to [e]. *)
Definition eqv (e x : jval) : bool := Z.eqb (cmp e x) 0.

Lemma insert_by_filter e x l :
  In e dom -> In x dom -> (forall y, In y l -> In y dom) -> StronglySorted cmp_le l ->
  List.filter (eqv e) (insert_by cmp x l) = List.filter (eqv e) l ++ List.filter (eqv e) [x].
Proof.
  intros He Hx. induction l as [|y l IH]; intros Hl Hs; simpl; [done|].
  inversion Hs as [|? ? Hs' Hf]; subst.
  destruct (cmp y x <=? 0)%Z eqn:E.
  - simpl. rewrite IH by (try done; intros; apply Hl; right; done).
    destruct (eqv e y); done.
  - apply Z.leb_gt in E. change (List.filter (eqv e) (x :: y :: l) =
      List.filter (eqv e) (y :: l) ++ List.filter (eqv e) [x]).
    destruct (eqv e x) eqn:Ex; [|cbn [List.filter]; rewrite Ex, app_nil_r; done].
    assert (forall z, In z (y :: l) -> eqv e z = false) as Hno.
    { intros z Hz. destruct (eqv e z) eqn:Ez; [|done]. exfalso.
      unfold eqv in Ex, Ez. apply Z.eqb_eq in Ex, Ez.
      assert (In z dom) as Hzd by (apply Hl; done).
      assert (cmp z x <= 0)%Z as Hzx.
      { apply (Htrans z e x); [done|done|done| |lia].
        rewrite (cmp_zero_sym e z); [lia|done|done|done]. }
      destruct Hz as [<-|Hz]; [lia|].
      rewrite Forall_forall in Hf. assert (cmp_le y z) as Hyz by (apply Hf, list_elem_of_In; done).
      unfold cmp_le in Hyz.
      pose proof (Htrans y z x ltac:(apply Hl; left; done) Hzd Hx Hyz Hzx). lia. }
    change (List.filter (eqv e) (x :: y :: l)) with
      (if eqv e x then x :: List.filter (eqv e) (y :: l) else List.filter (eqv e) (y :: l)).
    rewrite (filter_all_false (eqv e) (y :: l) Hno), Ex. simpl. rewrite Ex. done.
Qed.

Lemma fold_insert_filter e l acc :
  In e dom -> (forall y, In y l -> In y dom) -> (forall y, In y acc -> In y dom) ->
  StronglySorted cmp_le acc ->
  List.filter (eqv e) (fold_left (fun acc x => insert_by cmp x acc) l acc) =
  List.filter (eqv e) acc ++ List.filter (eqv e) l.
Proof.
  intros He. revert acc. induction l as [|x l IH]; intros acc Hl Hacc Hs; simpl.
  - rewrite app_nil_r. done.
  - rewrite IH.
    + rewrite insert_by_filter; [|done|apply Hl; left; done|done|done].
      rewrite <-app_assoc. simpl. destruct (eqv e x); done.
    + intros; apply Hl; right; done.
    + intros y Hy. eapply Permutation_in in Hy; [|apply insert_by_perm].
      destruct Hy as [<-|Hy]; [apply Hl; left; done|apply Hacc; done].
    + apply insert_by_sorted; [apply Hl; left; done|done|done].
Qed.

End InsertionSort.

Lemma consistent_on_spec cmp l :
  consistent_on cmp l = true ->
  (forall a b, In a l -> In b l -> exists z, cmp a b = Some z) /\
  (forall a b, In a l -> In b l ->
     Z.sgn (default 0%Z (cmp a b)) = (- Z.sgn (default 0%Z (cmp b a)))%Z) /\
  (forall a b c, In a l -> In b l -> In c l ->
     (default 0%Z (cmp a b) <= 0)%Z -> (default 0%Z (cmp b c) <= 0)%Z ->
     (default 0%Z (cmp a c) <= 0)%Z).
Proof.
  unfold consistent_on. rewrite forallb_forall. intros H.
  assert (forall a b, In a l -> In b l -> exists x y, cmp a b = Some x /\ cmp b a = Some y /\
            Z.sgn x = (- Z.sgn y)%Z /\
            forall c, In c l -> exists y' z, cmp b c = Some y' /\ cmp a c = Some z /\
              ((x <= 0)%Z -> (y' <= 0)%Z -> (z <= 0)%Z)) as G.
  { intros a b Ha Hb. specialize (H a Ha). rewrite forallb_forall in H. specialize (H b Hb).
    destruct (cmp a b) as [x|], (cmp b a) as [y|]; try discriminate.
    apply andb_true_iff in H as [H1 H2]. apply Z.eqb_eq in H1. rewrite forallb_forall in H2.
    exists x, y. split_and!; try done.
    intros c Hc. specialize (H2 c Hc).
    destruct (cmp b c) as [y'|], (cmp a c) as [z|]; try discriminate.
    exists y', z. split_and!; try done. intros Hx Hy'.
    apply Z.leb_le. apply Z.leb_le in Hx, Hy'. rewrite Hx, Hy' in H2. exact H2. }
  split_and!.
  - intros a b Ha Hb. destruct (G a b Ha Hb) as (x & y & E & _). eauto.
  - intros a b Ha Hb. destruct (G a b Ha Hb) as (x & y & E1 & E2 & S & _). rewrite E1, E2. done.
  - intros a b c Ha Hb Hc. destruct (G a b Ha Hb) as (x & y & E1 & _ & _ & T).
    destruct (T c Hc) as (y' & z & E2 & E3 & T'). rewrite E1, E2, E3. simpl. apply T'.
Qed.

(** [data.sort(cmp)] with a comparator that is consistent on the records:
    a sorted, stable permutation. *)
Lemma js_sort_consistent cmp l :
  consistent_on cmp l = true ->
  exists out, js_sort cmp l = Some out /\ out ≡ₚ l /\
    (forall i j x y, (i < j)%nat -> out !! i = Some x -> out !! j = Some y ->
       exists z, cmp x y = Some z /\ (z <= 0)%Z) /\
    (forall e, In e l ->
       List.filter (fun x => bool_decide (cmp e x = Some 0%Z)) out =
       List.filter (fun x => bool_decide (cmp e x = Some 0%Z)) l).
Proof.
  intros Hc. pose proof (consistent_on_spec cmp l Hc) as (Hdef & Hanti & Htrans).
  set (cz := fun a b => default 0%Z (cmp a b)).
  assert (insertion_sort cz l ≡ₚ l) as Hperm.
  { unfold insertion_sort. rewrite fold_insert_perm, app_nil_r. done. }
  exists (insertion_sort cz l). split_and!.
  - unfold js_sort. rewrite Hc. reflexivity.
  - exact Hperm.
  - intros i j x y Hij Hi Hj.
    assert (In x l /\ In y l) as [Hx Hy].
    { split; (eapply Permutation_in; [exact Hperm|]);
        apply list_elem_of_In; eapply list_elem_of_lookup_2; eassumption. }
    pose proof (StronglySorted_lookup (cmp_le cz) _ i j x y
                  (fold_insert_sorted cz l Hanti Htrans l [] (fun _ H => H) (fun _ H => False_ind _ H)
                     (SSorted_nil _)) Hij Hi Hj) as Hle.
    destruct (Hdef x y Hx Hy) as [z Ez]. exists z. split; [done|].
    unfold cmp_le, cz in Hle. rewrite Ez in Hle. exact Hle.
  - intros e He.
    assert (forall m, (forall x, In x m -> In x l) ->
              List.filter (fun x => bool_decide (cmp e x = Some 0%Z)) m = List.filter (eqv cz e) m) as Ef.
    { intros m Hm. apply filter_ext_in. intros x Hx. unfold eqv, cz.
      destruct (Hdef e x He (Hm x Hx)) as [z ->]. simpl.
      destruct (Z.eqb_spec z 0) as [->|Hz]; [apply bool_decide_true; done|].
      apply bool_decide_false. intros [= ?]. done. }
    rewrite !Ef; [|done|].
    + unfold insertion_sort. rewrite (fold_insert_filter cz l Hanti Htrans e l []); try done.
      constructor.
    + intros x Hx. eapply Permutation_in; [exact Hperm|exact Hx].
Qed.

Lemma sort_compare_app_ties cs1 cs2 a b :
  Forall (fun c => criterion_compare c a b = Some 0%Z) cs1 ->
  sort_compare (cs1 ++ cs2)%list a b = sort_compare cs2 a b.
Proof. induction 1 as [|c cs1 Hc _ IH]; simpl; [done|]. rewrite Hc. simpl. done. Qed.

Lemma js_lt_undef_l x : js_lt JUndef x = false.
Proof.
  unfold js_lt. simpl. destruct (to_primitive x); [|done]. destruct (string_to_number s); done.
Qed.

Lemma js_lt_undef_r x : js_lt x JUndef = false.
Proof.
  unfold js_lt. simpl. destruct (to_primitive x) as [s|[m|]]; [|done|done].
  destruct (string_to_number s); done.
Qed.


Section OkPost.

Lemma okpost_throw {A} e P : okpost (throw (A:=A) e) P.
Proof. intros w a w' [=]. Qed.

Lemma okpost_bind_k {A B} (m : M A) (k : A -> M B) P :
  (forall a, okpost (k a) P) -> okpost (m ≫= k) P.
Proof.
  intros Hk w b w'. unfold mbind, M_bind. destruct (m w) as [[a|e] w1]; [apply Hk|done].
Qed.

Lemma okpost_bind_stable R {A B} (m : M A) (k : A -> M B) (P : world -> Prop) :
  okpost m P -> (forall a, stable R (k a)) -> (forall w w', P w -> R w w' -> P w') ->
  okpost (m ≫= k) P.
Proof.
  intros Hm Hk HP w b w'. unfold mbind, M_bind. destruct (m w) as [[a|e] w1] eqn:E; [|done].
  intros Hr. eapply HP; [eapply Hm; exact E|eapply Hk; exact Hr].
Qed.

Lemma okpost_catch {A} (m : M A) h P :
  okpost m P -> always_throws h -> okpost (catch m h) P.
Proof.
  intros Hm Hh w a w'. unfold catch. destruct (m w) as [[b|e] w1] eqn:E.
  - intros [= -> <-]. eapply Hm; exact E.
  - destruct (Hh e w1) as (e' & w2 & ->). done.
Qed.

Lemma okpost_finally R {A} (m : M A) f (P : world -> Prop) :
  okpost m P -> stable R f -> (forall w w', P w -> R w w' -> P w') -> okpost (finally m f) P.
Proof.
  intros Hm Hf HP w a w'. unfold finally. destruct (m w) as [[b|e] w1] eqn:E.
  - destruct (f w1) as [[[]|e2] w2] eqn:E2; intros [= -> <-].
    eapply HP; [eapply Hm; exact E|eapply Hf; exact E2].
  - destruct (f w1) as [[[]|e2] w2]; done.
Qed.

Lemma okpost_fs_rename s d : okpost (fs_rename s d) (fun w' => exists t, w'.(w_trace) = (t ++ [ERename s d])%list).
Proof.
  intros w a w'. unfold fs_rename, io. destruct (faulty w); [done|].
  simpl. destruct (w_files w !! s); intros H; inversion H; subst; simpl. eexists. reflexivity.
Qed.

Lemma always_throws_atomicWrite_fail t b : always_throws (atomicWrite_fail t b).
Proof.
  intros e w. unfold atomicWrite_fail, mbind, M_bind.
  destruct (_ w) as [[[]|e1] w1]; [|eauto].
  destruct (cleanupTempFile t w1) as [[[]|e2] w2]; eauto.
Qed.

Lemma okpost_atomicWrite cfg q v :
  okpost (atomicWrite cfg q v) (fun w' => exists t tmp, w'.(w_trace) = (t ++ [ERename tmp (resolve cfg q)])%list).
Proof.
  unfold atomicWrite. cbv zeta. apply okpost_bind_k. intros _.
  apply okpost_bind_k. intros tmp. apply okpost_bind_k. intros _.
  apply okpost_catch; [|apply always_throws_atomicWrite_fail].
  apply okpost_bind_k. intros _. apply okpost_bind_k. intros _. apply okpost_bind_k. intros _.
  intros w a w' H. destruct (okpost_fs_rename _ _ w a w' H) as [t Ht]. eauto.
Qed.

Lemma write_last_confined full idx w w' :
  write_last full idx w -> confined (fun q => under idx q = true) w w' -> write_last full idx w'.
Proof.
  intros (t1 & tmp & t2 & Ht & Hu) ([t [Ht' Hte]] & _ & _).
  exists t1, tmp, (t2 ++ t)%list. split.
  - rewrite Ht', Ht, <-app_assoc. done.
  - intros e q He Hq. apply elem_of_app in He as [He|He]; eauto.
Qed.

End OkPost.

Lemma okpost_commit_delete cfg f full i data rd :
  String.prefix "/" cfg.(basePath) = true ->
  okpost (commit_delete cfg f full i data rd) (write_last (resolve cfg f) (getIndexDirForFile cfg f)).
Proof.
  intros Hb. unfold commit_delete. apply okpost_bind_k. intros _.
  destruct rd as [r|]; [|apply okpost_throw].
  eapply okpost_bind_stable with (R := confined (fun q => under (getIndexDirForFile cfg f) q = true)).
  - intros w a w' H. destruct (okpost_atomicWrite cfg f _ w a w' H) as (t & tmp & Ht).
    exists t, tmp, []. split; [done|]. intros e q He. inversion He.
  - intros _. stab confdb. apply confined_removeFromIndex. intros y Hy.
    eapply aw_path_index_under; done.
  - intros w w' H1 H2. eapply write_last_confined; done.
Qed.

Lemma okpost_deleteRecordById cfg fuel f i :
  String.prefix "/" cfg.(basePath) = true ->
  okpost (deleteRecordById cfg fuel f i)
    (write_last (resolve cfg (ensureJsonExtension f)) (getIndexDirForFile cfg (ensureJsonExtension f))).
Proof.
  intros Hb. destruct fuel as [|fuel]; simpl; [apply okpost_throw|].
  unfold deleteRecordById_with. cbv zeta. apply okpost_bind_k. intros _.
  eapply okpost_finally with (R := confined (fun q => under (getIndexDirForFile cfg (ensureJsonExtension f)) q = true)).
  - apply okpost_catch; [|apply op_handler_throws].
    apply okpost_bind_k. intros data. destruct data; try apply okpost_throw.
    case_match; [|apply okpost_throw].
    destruct (Nat.eqb _ _); [apply okpost_throw|].
    apply okpost_bind_k. intros _. apply okpost_commit_delete. done.
  - apply confined_releaseLock.
  - intros w w' H1 H2. eapply write_last_confined; done.
Qed.

(** C1. Every successful delete of a record by id (with an absolute base
    path) commits the primary collection file by a rename onto it, and every
    effect after that rename touches only the index directory of the
    collection: the dependent collections (cascade deletes and set-null
    updates) are written before the primary file, not after it. *)
Theorem deleteRecordById_primary_write_last cfg fuel f i w v w' :
  String.prefix "/" cfg.(basePath) = true ->
  deleteRecordById cfg fuel f i w = (Ok v, w') ->
  exists t1 tmp t2,
    w'.(w_trace) = (t1 ++ ERename tmp (resolve cfg (ensureJsonExtension f)) :: t2)%list /\
    forall e q, e ∈ t2 -> q ∈ eff_targets e ->
      under (getIndexDirForFile cfg (ensureJsonExtension f)) q = true.
Proof. intros Hb H. exact (okpost_deleteRecordById cfg fuel f i Hb w v w' H). Qed.

Lemma wp_backup_nf cfg (B : bool) full (Q : res unit -> world -> Prop) w :
  w.(w_faults) = [] ->
  (forall w1, w1.(w_faults) = [] -> w1.(w_locks) = w.(w_locks) ->
     (forall x, x <> full ++ backupExtension cfg -> w1.(w_files) !! x = w.(w_files) !! x) ->
     Q (Ok tt) w1) ->
  wp (if B then createBackupIfNeeded cfg full else mret tt) Q w.
Proof.
  intros Hf HQ. destruct B; wps; [|apply HQ; done].
  unfold createBackupIfNeeded. destruct (isBackupEnabled cfg); wps; [|apply HQ; done].
  unfold fs_stat. wps. norm. destruct (w_files w !! full) eqn:E1; cbv beta iota; wps.
  - unfold fs_copyFile. wps. norm. rewrite E1. cbv beta iota. wps. norm.
    apply HQ; try done. intros x Hx. norm. lk. done.
  - norm. apply HQ; done.
Qed.

Lemma get_own_set_prop o k v k' :
  get_own (set_prop o k v) k' = if String.eqb k' k then Some v else get_own o k'.
Proof.
  induction o as [|[k0 v0] o IH]; simpl; [done|].
  destruct (String.eqb_spec k k0) as [->|Hne]; simpl.
  - destruct (String.eqb k' k0); done.
  - rewrite IH. destruct (String.eqb_spec k' k0) as [->|]; [|done].
    apply String.eqb_neq in Hne. rewrite String.eqb_sym, Hne. done.
Qed.

Lemma get_own_None o k : k ∉ map fst o -> get_own o k = None.
Proof.
  induction o as [|[k0 v0] o IH]; simpl; [done|]. intros Hn.
  destruct (String.eqb_spec k k0) as [->|]; [exfalso; apply Hn; left|].
  apply IH. intros H. apply Hn. right. done.
Qed.

Lemma get_own_spread o p k : NoDup (map fst p) ->
  get_own (spread o p) k = match get_own p k with Some v => Some v | None => get_own o k end.
Proof.
  unfold spread. revert o. induction p as [|[k0 v0] p IH]; intros o Hnd; simpl; [done|].
  inversion Hnd as [|? ? Hn Hnd']; subst. rewrite IH by done.
  rewrite get_own_set_prop. destruct (String.eqb_spec k k0) as [->|]; [|done].
  rewrite get_own_None by done. done.
Qed.

Lemma get_own_delete_prop o k k' :
  get_own (delete_prop o k) k' = if String.eqb k' k then None else get_own o k'.
Proof.
  unfold delete_prop. induction o as [|[k0 v0] o IH]; simpl; [destruct (String.eqb k' k); done|].
  destruct (String.eqb k k0) eqn:E1; simpl.
  - apply String.eqb_eq in E1. subst k0. rewrite IH. destruct (String.eqb k' k) eqn:E2; [done|].
    done.
  - rewrite IH. destruct (String.eqb k' k0) eqn:E2; [|done].
    apply String.eqb_eq in E2. subst k0. rewrite String.eqb_sym, E1. done.
Qed.

Lemma merge_patch_spec orig p : NoDup (map fst orig) -> NoDup (map fst p) ->
  get_own (merge_patch orig p) "id" = get_own orig "id" /\
  forall key, key <> "id" ->
    get_own (merge_patch orig p) key = match get_own p key with Some v => Some v | None => get_own orig key end.
Proof.
  intros Ho Hp. unfold merge_patch. split.
  - destruct (get_own orig "id") eqn:E.
    + rewrite get_own_set_prop, String.eqb_refl. done.
    + rewrite get_own_delete_prop, String.eqb_refl. done.
  - intros key Hk. apply String.eqb_neq in Hk.
    assert (get_own (spread (spread [] orig) p) key =
            match get_own p key with Some v => Some v | None => get_own orig key end) as Hs.
    { rewrite !get_own_spread by done. destruct (get_own p key); [done|].
      destruct (get_own orig key); done. }
    destruct (get_own orig "id").
    + rewrite get_own_set_prop, Hk. exact Hs.
    + rewrite get_own_delete_prop, Hk. exact Hs.
Qed.


Lemma has_duplicates_false l : has_duplicates l = false <-> NoDup l.
Proof.
  induction l as [|i l IH]; simpl; [split; [constructor|done]|].
  rewrite orb_false_iff, NoDup_cons, IH.
  assert (existsb (String.eqb i) l = false <-> i ∉ l) as ->; [|done].
  rewrite <-not_true_iff_false, existsb_exists, list_elem_of_In.
  split; [intros H Hi; apply H; exists i; rewrite String.eqb_refl; done|].
  intros H [x [Hx Ex]]. apply String.eqb_eq in Ex. subst. done.
Qed.

Lemma wp_mapM_addAll_record rs (Q : res (list jval) -> world -> Prop) w :
  forallb record_ok rs = true ->
  (forall w', quiet w w' -> Q (Ok (assign_ids w.(w_gen) w.(w_gen_i) rs)) w') ->
  wp (mapM addAll_record rs) Q w.
Proof.
  revert Q w. induction rs as [|r rs IH]; intros Q w Hok HQ; simpl.
  - wps. apply HQ. reflexivity.
  - apply andb_prop in Hok as [Hr Hrs]. wps.
    destruct r as [| | | | |o]; try discriminate Hr.
    unfold addAll_record, validateRecord, validateId, xdToken. cbn [record_ok field] in Hr.
    change (field (JObj o) "id") with (obj_get o "id"). cbn [assign_ids field] in HQ.
    destruct (obj_get o "id") as [[| | | | |]| |] eqn:Ef;
      try (apply negb_true_iff in Hr; rewrite Hr); wps;
      (apply IH; [done|]); intros w' Hq; wps; cbv beta iota in HQ;
      apply HQ; (etrans; [|exact Hq]); try reflexivity;
      (split_and!; try done; exists []; rewrite app_nil_r; split; [done|set_solver]).
Qed.

Lemma keeps_rebuildIndexesForFile cfg P df rs fields :
  store_guard cfg P = true -> stable (keeps P) (rebuildIndexesForFile cfg df rs fields).
Proof.
  intros Hg. pose proof (guard_index cfg P Hg) as Hi.
  assert (forall df fn, resolve cfg (getIndexFilePath cfg df fn) <> P)
    by (intros d n E; apply (Hi d n); left; congruence).
  assert (forall df fn v, stable (keeps P) (atomicWrite cfg (getIndexFilePath cfg df fn) v))
    by (intros; apply keeps_atomicWrite; apply Hi).
  unfold rebuildIndexesForFile. stab keepsdb.
Qed.


(** C3. With field [f] of [users.json] indexed, adding the record
    [{id: "a", f: "constructor"}] to an empty store stores it, yet the index
    lookup of [f = "constructor"] returns no id: the index object's lookup of
    the key "constructor" hits the member inherited from Object.prototype. *)
Lemma index_miss_constructor :
  let '(r, w) := (addRecordById idx_cfg "users" idx_rec ≫= fun _ =>
                  findIndexedRecords idx_cfg "users.json" "f" (JStr "constructor")) (world0 []) in
  w.(w_files) !! "/db/users.json" = Some (Text (JArr [idx_rec])) /\ r = Ok [].
Proof. vm_compute. split; reflexivity. Qed.

(** C7. Adding a record without id to a collection whose ids are the first
    ten generated tokens: the tenth regeneration yields a token that is not in
    the collection, yet the call fails with OPERATION_FAILED and leaves the
    store unchanged. *)
Lemma addRecordById_rejects_fresh_id :
  let '(r, w) := addRecordById base_cfg "t" (rec_of [("name", JStr "x")]) tok_world in
  existsb (fun x => String.eqb (rec_id x) (w_gen tok_world 10)) tok_records = false /\
  w.(w_gen_i) = 11%nat /\
  r = Err (createXdbError OPERATION_FAILED) /\ w.(w_files) = tok_world.(w_files).
Proof. vm_compute. split_and!; reflexivity. Qed.

(* ------------------------------------------------------------------ *)
(** ** Further properties *)

Lemma to_lower_app (a b : string) : to_lower (a ++ b) = to_lower a ++ to_lower b.
Proof. induction a as [|c a IH]; simpl; [done|]. rewrite IH. done. Qed.

Lemma substring_app_l (s t : string) n :
  String.substring (String.length s) n (s ++ t) = String.substring 0 n t.
Proof. induction s as [|c s IH]; simpl; done. Qed.

Lemma substring_full (t : string) : String.substring 0 (String.length t) t = t.
Proof. induction t as [|c t IH]; simpl; [done|]. rewrite IH. done. Qed.

Lemma ends_with_app (suf s : string) : ends_with suf (s ++ suf) = true.
Proof.
  unfold ends_with. rewrite s_length_app.
  replace (String.length s + String.length suf - String.length suf)%nat with (String.length s) by lia.
  rewrite substring_app_l, substring_full, String.eqb_refl. apply andb_true_intro. split; [|done].
  apply Nat.leb_le. lia.
Qed.

(** X1. ensureJsonExtension always returns a name whose lower-case form
    ends in [.json], and applying it a second time changes nothing. *)
Theorem ensureJsonExtension_idempotent f :
  ends_with ".json" (to_lower (ensureJsonExtension f)) = true /\
  ensureJsonExtension (ensureJsonExtension f) = ensureJsonExtension f.
Proof.
  assert (H : ends_with ".json" (to_lower (ensureJsonExtension f)) = true).
  { unfold ensureJsonExtension. destruct (ends_with ".json" (to_lower f)) eqn:E; [done|].
    rewrite to_lower_app. apply ends_with_app. }
  split; [done|]. unfold ensureJsonExtension at 1. rewrite H. done.
Qed.

(** X2. safeParseJSON changes no file and no lock. It fails with IO_ERROR
    on an I/O fault or an unparsable file, reads a missing file as the empty
    array, and otherwise returns the stored value. *)
Theorem safeParseJSON_outcome cfg f w :
  let '(r, w') := safeParseJSON cfg f w in
  quiet w w' /\
  r = if faulty w then Err (createXdbError IO_ERROR) else
      match w.(w_files) !! resolve cfg f with
      | None => Ok (JArr [])
      | Some (Text v) => Ok v
      | Some Torn => Err (createXdbError IO_ERROR)
      end.
Proof.
  destruct (safeParseJSON cfg f w) as [r w'] eqn:E. split; [eapply quiet_safeParseJSON; exact E|].
  revert E. unfold safeParseJSON, fs_readFile, io, catch, mbind, M_bind, mret, M_ret, throw.
  destruct (faulty w); [intros [= <- _]; done|]. simpl.
  destruct (w_files w !! resolve cfg f) as [[v|]|]; intros [= <- _]; done.
Qed.

Lemma obj_get_nil k v : obj_get [] k <> JV v.
Proof. unfold obj_get. cbn [get_own]. case_match; done. Qed.


(** The index object a run of findIndexedRecords reads. *)
Lemma findIndexedRecords_run cfg df fn fv w :
  faulty w = false ->
  fst (findIndexedRecords cfg df fn fv w) =
  Ok (match obj_get (match w.(w_files) !! resolve cfg (getIndexFilePath cfg df fn) with
                     | Some (Text v) => as_index v | _ => [] end) (js_String fv) with
      | JV (JArr ids) => ids | _ => [] end).
Proof.
  intros Hf. cbv beta iota zeta delta [findIndexedRecords safeParseJSON fs_readFile io catch mbind M_bind
    mret M_ret throw fmap M_fmap]. rewrite Hf. simpl.
  destruct (w_files w !! resolve cfg (getIndexFilePath cfg df fn)) as [[v|]|]; simpl;
    [|destruct (obj_get [] (js_String fv)) as [[]| |] eqn:Eo; try done;
      exfalso; eapply obj_get_nil; exact Eo..].
  destruct (obj_get (as_index v) (js_String fv)) as [[]| |]; done.
Qed.

Lemma obj_get_eq o o' k : get_own o' k = get_own o k -> obj_get o' k = obj_get o k.
Proof. unfold obj_get. intros ->. done. Qed.

Lemma index_add_spec d k i :
  existsb (String.eqb k) object_prototype_members = false ->
  match get_own d k with None | Some (JArr _) => True | _ => False end ->
  exists d', (forall w, index_add d k i w = (Ok d', w)) /\
    get_own d' k = Some (JArr (let old := match get_own d k with Some (JArr ids) => ids | _ => [] end in
                               if existsb (jstr_eq i) old then old else (old ++ [JStr i])%list)) /\
    forall k', k' <> k -> get_own d' k' = get_own d k'.
Proof.
  intros Hp Hd. unfold index_add, obj_get. destruct (get_own d k) as [v|] eqn:E.
  - destruct v; try done. cbn [truthy]. rewrite E.
    destruct (existsb (jstr_eq i) xs) eqn:Ex.
    + eexists; split_and!; [reflexivity|done|done].
    + eexists; split_and!; [reflexivity| |].
      * rewrite get_own_set_prop, String.eqb_refl. done.
      * intros k' Hk. rewrite get_own_set_prop. apply String.eqb_neq in Hk. rewrite Hk. done.
  - rewrite Hp. cbn [truthy]. rewrite get_own_set_prop, String.eqb_refl. simpl.
    eexists; split_and!; [reflexivity| |].
    + rewrite get_own_set_prop, String.eqb_refl. done.
    + intros k' Hk. apply String.eqb_neq in Hk. rewrite !get_own_set_prop, Hk. done.
Qed.

Lemma get_own_index_entry d k :
  existsb (String.eqb k) object_prototype_members = false ->
  match get_own d k with None | Some (JArr _) => True | _ => False end ->
  match obj_get d k with JV (JArr ids) => ids | _ => [] end =
  match get_own d k with Some (JArr ids) => ids | _ => [] end.
Proof. intros Hp Hd. unfold obj_get. destruct (get_own d k) as [[]|]; try done. rewrite Hp. done. Qed.


Lemma filter_negb_none {A} (p : A -> bool) (l : list A) :
  existsb p l = false -> List.filter (fun v => negb (p v)) l = l.
Proof.
  induction l as [|x l IH]; simpl; [done|]. intros H. apply orb_false_iff in H as [-> H].
  simpl. rewrite IH; done.
Qed.

Lemma index_remove_spec d k i :
  let entry o := match obj_get o k with JV (JArr ids) => ids | _ => [] end in
  (forall w, index_remove d k i w = (Err TypeError, w)) \/
  ((forall w, index_remove d k i w = (Ok None, w)) /\
   List.filter (fun v => negb (jstr_eq i v)) (entry d) = entry d) \/
  (exists d', (forall w, index_remove d k i w = (Ok (Some d'), w)) /\
   entry d' = List.filter (fun v => negb (jstr_eq i v)) (entry d) /\
   forall k', k' <> k -> get_own d' k' = get_own d k').
Proof.
  cbv zeta. unfold index_remove. destruct (obj_get d k) as [v| |] eqn:Eo.
  - destruct v as [|[]|n|s|xs|o]; cbn [truthy].
    + right; left. done.
    + left. done.
    + right; left. done.
    + destruct (Z.eqb n 0); simpl; [right; left; done|left; done].
    + destruct (String.eqb s ""); simpl; [right; left; done|].
      destruct (str_includes s i); [left; done|right; left; done].
    + destruct (existsb (jstr_eq i) xs) eqn:Ex.
      * right; right. eexists; split; [intros; reflexivity|]. split.
        -- destruct (List.filter _ xs) as [|y ys] eqn:Ef.
           ++ unfold obj_get. rewrite get_own_delete_prop, String.eqb_refl.
              destruct (existsb (String.eqb k) object_prototype_members); done.
           ++ unfold obj_get. rewrite get_own_set_prop, String.eqb_refl. done.
        -- intros k' Hk. apply String.eqb_neq in Hk.
           destruct (List.filter _ xs); rewrite ?get_own_delete_prop, get_own_set_prop, Hk; done.
      * right; left. split; [done|]. apply filter_negb_none. done.
    + left. done.
  - left. done.
  - right; left. done.
Qed.

Lemma find_same_files cfg df fn fv w w' :
  w.(w_faults) = [] -> w'.(w_faults) = [] -> w'.(w_files) = w.(w_files) ->
  fst (findIndexedRecords cfg df fn fv w') = fst (findIndexedRecords cfg df fn fv w).
Proof.
  intros Hf Hf' Hfs. rewrite !findIndexedRecords_run by (apply faulty_nil; done). rewrite Hfs. done.
Qed.


Lemma quiet_viewAll cfg f : stable quiet (viewAll cfg f).
Proof. unfold viewAll. stab quietdb. Qed.

Lemma quiet_find_by_id i d : stable quiet (find_by_id i d).
Proof. induction d as [|[] d IH]; simpl; stab quietdb. Qed.

Lemma quiet_viewRecordById cfg f i : stable quiet (viewRecordById cfg f i).
Proof. pose proof quiet_find_by_id. unfold viewRecordById. stab quietdb. Qed.

Lemma quiet_query_records cfg f ids : stable quiet (query_records cfg f ids).
Proof. pose proof quiet_viewRecordById. induction ids; simpl; stab quietdb. Qed.

Lemma quiet_query cfg f fn fv : stable quiet (query cfg f fn fv).
Proof. pose proof quiet_query_records. unfold query. stab quietdb. Qed.

Lemma quiet_findExistingIds cfg f ids fld : stable quiet (findExistingIds cfg f ids fld).
Proof. unfold findExistingIds. stab quietdb. Qed.

(** X6. view.all changes no file or lock. On success it returns the
    resolved path and the parsed content, with a missing file read as [].
    An I/O fault or an unparsable file gives IO_ERROR. *)
Theorem viewAll_outcome cfg f w :
  let full := resolve cfg (ensureJsonExtension f) in
  let '(r, w') := viewAll cfg f w in
  quiet w w' /\
  r = if faulty w then Err (createXdbError IO_ERROR) else
      match w.(w_files) !! full with
      | None => Ok (JObj [("path", JStr full); ("data", JArr [])])
      | Some (Text v) => Ok (JObj [("path", JStr full); ("data", v)])
      | Some Torn => Err (createXdbError IO_ERROR)
      end.
Proof.
  cbv zeta. destruct (viewAll cfg f w) as [r w'] eqn:E. split.
  { eapply quiet_viewAll. exact E. }
  revert E. cbv beta iota zeta delta [viewAll safeParseJSON fs_readFile io catch mbind M_bind mret M_ret throw].
  destruct (faulty w); [intros [= <- _]; done|]. simpl.
  destruct (w_files w !! _) as [[v|]|]; intros [= <- _]; done.
Qed.

(** X7. view.more without filter, sort, offset or limit returns the data
    of view.all unchanged. It fails with OPERATION_FAILED when the stored
    content is not an array, and passes view.all's errors through. *)
Theorem viewMore_no_options cfg f w :
  viewMore cfg f (mkViewOptions None None None None) w =
  match viewAll cfg f w with
  | (Ok (JObj [pa; ("data", JArr xs)]), w') => (Ok (JObj [pa; ("data", JArr xs)]), w')
  | (Ok _, w') => (Err (createXdbError OPERATION_FAILED), w')
  | (Err e, w') => (Err e, w')
  end.
Proof.
  cbv beta iota zeta delta [viewAll viewMore safeParseJSON fs_readFile io catch mbind M_bind mret M_ret throw].
  destruct (faulty w); [done|]. simpl.
  destruct (w_files w !! _) as [[v|]|]; simpl; [|done|done].
  destruct v; done.
Qed.

Lemma find_by_id_objs s data w :
  Forall (fun r => exists o, r = JObj o) data ->
  find_by_id s data w = (Ok (List.find (fun r => String.eqb (rec_id r) s) data), w).
Proof.
  induction data as [|r data IH]; intros Hd; [done|].
  inversion Hd as [|? ? [o ->] Hd']; subst. simpl.
  destruct (String.eqb (rec_id (JObj o)) s); [done|]. apply IH. done.
Qed.

Lemma find_by_id_null s pre post w :
  Forall (fun r => r <> JNull /\ rec_id r <> s) pre ->
  find_by_id s (pre ++ JNull :: post) w = (Err TypeError, w).
Proof.
  induction pre as [|r pre IH]; intros Hp; [done|].
  inversion Hp as [|? ? [Hn Hs] Hp']; subst. simpl.
  destruct r; try done; apply String.eqb_neq in Hs; rewrite Hs; apply IH; done.
Qed.



Lemma wp_viewRecordById cfg f id w data (Q : res jval -> world -> Prop) :
  w.(w_faults) = [] -> js_String id <> "" ->
  w.(w_files) !! resolve cfg (ensureJsonExtension f) = Some (Text (JArr data)) ->
  Forall (fun r => exists o, r = JObj o) data ->
  (forall w', quiet w w' ->
     Q (match List.find (fun r => String.eqb (rec_id r) (js_String id)) data with
        | Some x => Ok (JObj [("path", JStr (resolve cfg (ensureJsonExtension f))); ("record", x)])
        | None => Err (createXdbError RECORD_NOT_FOUND)
        end) w') ->
  wp (viewRecordById cfg f id) Q w.
Proof.
  intros Hf Hs Hd Ho HQ.
  unfold viewRecordById, validateId. cbv zeta.
  apply String.eqb_neq in Hs. rewrite Hs. wps.
  eapply wp_safeParseJSON_text; [done|exact Hd|]. intros w2 Hq. cbv beta iota.
  apply wp_bind. eapply wp_eq; [apply find_by_id_objs; exact Ho|]. cbv beta iota.
  destruct (List.find _ data) as [x|] eqn:Ex; wps; [|apply HQ; done].
  apply List.find_some in Ex as [Hx _]. eapply Forall_forall in Ho; [|apply list_elem_of_In; exact Hx].
  destruct Ho as [o ->]. wps. apply HQ. done.
Qed.

Lemma wp_query_records cfg f ids data : forall (Q : res (list jval) -> world -> Prop) w,
  w.(w_faults) = [] ->
  w.(w_files) !! resolve cfg (ensureJsonExtension f) = Some (Text (JArr data)) ->
  Forall (fun r => exists o, r = JObj o) data ->
  Forall (fun i => js_String i <> "") ids ->
  (forall w', quiet w w' ->
     Q (Ok (omap (fun i => List.find (fun r => String.eqb (rec_id r) (js_String i)) data) ids)) w') ->
  wp (query_records cfg f ids) Q w.
Proof.
  induction ids as [|i ids IH]; intros Q w Hf Hd Ho Hi HQ; simpl.
  - wps. apply HQ. done.
  - inversion Hi as [|? ? Hs Hi']; subst. wps.
    eapply wp_viewRecordById; [done|done|exact Hd|exact Ho|]. intros w1 Hq1.
    pose proof Hq1 as (Hfs1 & _ & Hf1 & _).
    destruct (List.find _ data) as [x|] eqn:Ex; wps.
    all: apply IH; [congruence|rewrite Hfs1; done|done|done|]; intros w2 Hq2; wps.
    all: specialize (HQ w2 ltac:(etrans; eassumption)); simpl in HQ |- *; rewrite Ex in HQ; exact HQ.
Qed.


Lemma wp_safeParseJSON_arr cfg f data (Q : res jval -> world -> Prop) w :
  w.(w_faults) = [] ->
  match w.(w_files) !! resolve cfg f with
  | Some (Text (JArr d)) => d = data | None => data = [] | _ => False end ->
  (forall w', quiet w w' -> Q (Ok (JArr data)) w') -> wp (safeParseJSON cfg f) Q w.
Proof.
  intros Hf Hd HQ. unfold safeParseJSON, fs_readFile. wps. norm.
  destruct (w_files w !! resolve cfg f) as [[[]|]|] eqn:E; try done; subst; wps; apply HQ;
    (split_and!; try done; exists [ERead (resolve cfg f)]; split; [done|];
     intros e ->%list_elem_of_singleton; done).
Qed.

Lemma find_app_none (p : jval -> bool) data x :
  existsb p data = false -> List.find p (data ++ [x]) = if p x then Some x else None.
Proof.
  induction data as [|y data IH]; simpl; [done|]. intros H. apply orb_false_iff in H as [-> H].
  apply IH. done.
Qed.

Lemma wp_add_backup cfg full n (Q : res unit -> world -> Prop) w :
  w.(w_faults) = [] ->
  (forall w1, w1.(w_faults) = [] -> w1.(w_locks) = w.(w_locks) -> Q (Ok tt) w1) ->
  wp (if (1 <? n)%nat then
        catch (A := bool) (fs_stat full ;; mret true)
              (fun e => if err_is e "ENOENT" then mret false else throw e)
        ≫= fun fileExistedBefore : bool =>
        if fileExistedBefore && isBackupOnAddEnabled cfg then createBackupIfNeeded cfg full
        else mret tt
      else mret tt) Q w.
Proof.
  intros Hf HQ. destruct (1 <? n)%nat; wps; [|apply HQ; done].
  unfold fs_stat. wps. norm. destruct (w_files w !! full); wps.
  - apply wp_backup_nf; [norm; done|]. intros w1 Hf1 Hl1 _. apply HQ; [done|]. rewrite Hl1. done.
  - apply HQ; norm; done.
Qed.


Lemma restoreFromBackup_run cfg f w :
  let full := resolve cfg (ensureJsonExtension f) in
  let backupPath := full ++ cfg.(backupExtension) in
  w.(w_faults) = [] -> full ∉ w.(w_locks) ->
  let '(r, w') := restoreFromBackup cfg f w in
  w'.(w_locks) = w.(w_locks) /\ w'.(w_faults) = [] /\
  match w.(w_files) !! backupPath with
  | None => r = Err (createXdbError FILE_NOT_FOUND) /\ w'.(w_files) = w.(w_files)
  | Some c => r = Ok (JObj [("path", JStr full); ("restoredFrom", JStr backupPath)]) /\
              w'.(w_files) = <[full := c]> w.(w_files)
  end.
Proof.
  cbv zeta. intros Hf Hl. apply wp_run. unfold restoreFromBackup. cbv zeta.
  wps. apply wp_acquire_free; [done|]. cbv beta iota. wps.
  unfold fs_stat. wps. norm.
  destruct (w_files w !! (resolve cfg (ensureJsonExtension f) ++ backupExtension cfg)) as [c|] eqn:Hc;
    cbv beta iota; wps.
  - unfold ensureDirectoryExists, fs_mkdir, fs_copyFile. wps. norm. rewrite Hc. cbv beta iota. wps.
    norm. rewrite filter_not_in by done. done.
  - norm. rewrite filter_not_in by done. done.
Qed.

Lemma moveFile_run cfg src tgt w :
  let sfull := resolve cfg (ensureJsonExtension src) in
  let tfull := resolve cfg (ensureJsonExtension tgt) in
  w.(w_faults) = [] -> sfull ∉ w.(w_locks) ->
  let '(r, w') := moveFile cfg src tgt w in
  w'.(w_locks) = w.(w_locks) /\ w'.(w_faults) = [] /\
  match w.(w_files) !! sfull with
  | None => r = Err (createXdbError FILE_NOT_FOUND) /\ w'.(w_files) = w.(w_files)
  | Some c => r = Ok (JObj [("source", JStr sfull); ("target", JStr tfull)]) /\
              w'.(w_files) = <[tfull := c]> (delete sfull w.(w_files))
  end.
Proof.
  cbv zeta. intros Hf Hl. apply wp_run. unfold moveFile. cbv zeta.
  wps. apply wp_acquire_free; [done|]. cbv beta iota. wps.
  unfold fs_stat. wps. norm.
  destruct (w_files w !! resolve cfg (ensureJsonExtension src)) as [c|] eqn:Hc;
    cbv beta iota; wps.
  - unfold ensureDirectoryExists, fs_mkdir, fs_rename. wps. norm. rewrite Hc. cbv beta iota. wps.
    norm. rewrite filter_not_in by done. done.
  - norm. rewrite filter_not_in by done. done.
Qed.

Lemma mapM_cons_run {A B} (g : A -> M B) x l w :
  mapM g (x :: l) w =
  match g x w with
  | (Ok y, w1) => match mapM g l w1 with
                  | (Ok k, w2) => (Ok (y :: k), w2)
                  | (Err e, w2) => (Err e, w2)
                  end
  | (Err e, w1) => (Err e, w1)
  end.
Proof.
  cbn [mapM]. unfold mbind, M_bind, mret, M_ret.
  destruct (g x w) as [[y|e] w1]; [|done]. destruct (mapM g l w1) as [[k|e] w2]; done.
Qed.

Lemma mapM_field_ids (k : string) (data : list jval) w :
  mapM (M := M) (fun record => match record with
                    | JNull => throw TypeError
                    | _ => mret (js_String_v (field record k))
                    end) data w =
  if existsb jval_is_null data then (Err TypeError, w)
  else (Ok (map (fun r => js_String_v (field r k)) data), w).
Proof.
  induction data as [|x data IH]; [done|]. rewrite mapM_cons_run.
  destruct x; cbn [jval_is_null orb existsb]; try done;
    cbn [mret M_ret]; rewrite IH; destruct (existsb _ data); done.
Qed.

Lemma wp_mapM_field_ids (k : string) (data : list jval) Q w :
  Q (if existsb jval_is_null data then Err TypeError
     else Ok (map (fun r => js_String_v (field r k)) data)) w ->
  wp (mapM (M := M) (fun record => match record with
                    | JNull => throw TypeError
                    | _ => mret (js_String_v (field record k))
                    end) data) Q w.
Proof. unfold wp. rewrite mapM_field_ids. destruct (existsb _ _); done. Qed.


(** X12. restoreFromBackup with no faults and the lock free releases its
    lock. A missing backup gives FILE_NOT_FOUND and no file changes.
    Otherwise the collection file is overwritten with the backup's content
    and no other file changes. *)
Theorem restoreFromBackup_outcome cfg f w :
  let full := resolve cfg (ensureJsonExtension f) in
  let backupPath := full ++ cfg.(backupExtension) in
  w.(w_faults) = [] -> full ∉ w.(w_locks) ->
  let '(r, w') := restoreFromBackup cfg f w in
  w'.(w_locks) = w.(w_locks) /\
  match w.(w_files) !! backupPath with
  | None => r = Err (createXdbError FILE_NOT_FOUND) /\ w'.(w_files) = w.(w_files)
  | Some c => r = Ok (JObj [("path", JStr full); ("restoredFrom", JStr backupPath)]) /\
              w'.(w_files) = <[full := c]> w.(w_files)
  end.
Proof.
  cbv zeta. intros Hf Hl. pose proof (restoreFromBackup_run cfg f w Hf Hl) as H.
  destruct (restoreFromBackup cfg f w). destruct H as (Hl' & _ & H). done.
Qed.

(** X14. moveFile with no faults and the source lock free releases the
    lock; the target's lock is not consulted. A missing source gives
    FILE_NOT_FOUND and no file changes. Otherwise the target receives the
    source's content, overwriting any file there, and the source is
    removed. *)
Theorem moveFile_outcome cfg src tgt w :
  let sfull := resolve cfg (ensureJsonExtension src) in
  let tfull := resolve cfg (ensureJsonExtension tgt) in
  w.(w_faults) = [] -> sfull ∉ w.(w_locks) ->
  let '(r, w') := moveFile cfg src tgt w in
  w'.(w_locks) = w.(w_locks) /\
  match w.(w_files) !! sfull with
  | None => r = Err (createXdbError FILE_NOT_FOUND) /\ w'.(w_files) = w.(w_files)
  | Some c => r = Ok (JObj [("source", JStr sfull); ("target", JStr tfull)]) /\
              w'.(w_files) = <[tfull := c]> (delete sfull w.(w_files))
  end.
Proof.
  cbv zeta. intros Hf Hl. pose proof (moveFile_run cfg src tgt w Hf Hl) as H.
  destruct (moveFile cfg src tgt w). destruct H as (Hl' & _ & H). done.
Qed.

(** With [backupOnWriteOnly] off, atomicWrite touches only the target and
    one temporary sibling. *)
Lemma wp_atomicWrite_plain cfg q v (Q : res unit -> world -> Prop) w :
  w.(w_faults) = [] -> isBackupOnWriteOnly cfg = false ->
  (forall w', w'.(w_files) !! resolve cfg q = Some (Text v) ->
     (forall x, x <> resolve cfg q -> (forall n : nat, x <> resolve cfg q ++ ".tmp" ++ pretty n) ->
        w'.(w_files) !! x = w.(w_files) !! x) ->
     w'.(w_locks) = w.(w_locks) -> w'.(w_faults) = [] -> Q (Ok tt) w') ->
  wp (atomicWrite cfg q v) Q w.
Proof.
  intros Hf Hwo HQ. unfold atomicWrite. cbv zeta. rewrite Hwo, andb_false_r.
  pose proof (tmp_ne_full (resolve cfg q) (pretty (w_clock w))) as Hne.
  wps. unfold ensureDirectoryExists, fs_mkdir, fs_open_w, fh_writeFile, fh_sync, fh_close, fs_rename.
  wps. norm. lk. cbv beta iota. wps.
  apply HQ; norm.
  - lk. done.
  - intros x Hx Ht. specialize (Ht (w_clock w)). lk. done.
  - done.
  - done.
Qed.

Lemma backup_ne_tmp (full ext : string) (n : nat) :
  (forall m : nat, ext <> ".tmp" ++ pretty m) -> full ++ ext <> full ++ ".tmp" ++ pretty n.
Proof. intros H E. apply (H n). induction full as [|c full IH]; [exact E|]. apply IH. injection E. done. Qed.

Lemma backup_ne_full (full ext : string) : ext <> "" -> full ++ ext <> full.
Proof.
  intros H E. apply H. assert (Hl : String.length (full ++ ext) = String.length full) by (rewrite E; done).
  rewrite s_length_app in Hl. destruct ext; [done|]. simpl in Hl. lia.
Qed.

(** X13. With backups on delete enabled, deleting all records of an
    existing collection and then restoring from backup gives back the
    original file content. The backup extension must be non-empty, must not
    look like a temporary-file suffix, and must not place the backup inside
    the collection's index directory. *)
Theorem deleteAll_restoreFromBackup cfg f w c :
  let filePath := ensureJsonExtension f in
  let full := resolve cfg filePath in
  let backupPath := full ++ cfg.(backupExtension) in
  isBackupOnDeleteEnabled cfg = true ->
  cfg.(backupExtension) <> "" -> (forall n : nat, cfg.(backupExtension) <> ".tmp" ++ pretty n) ->
  under (getIndexDirForFile cfg filePath) backupPath = false ->
  w.(w_faults) = [] -> full ∉ w.(w_locks) ->
  w.(w_files) !! full = Some c ->
  let '(r1, w1) := deleteAll cfg f w in
  let '(r2, w2) := restoreFromBackup cfg f w1 in
  r1 = Ok (path_result full) /\
  r2 = Ok (JObj [("path", JStr full); ("restoredFrom", JStr backupPath)]) /\
  w2.(w_files) !! full = Some c /\ w2.(w_files) !! backupPath = Some c /\
  w2.(w_locks) = w.(w_locks).
Proof.
  cbv zeta. intros Hb Hne Htmp Hu Hf Hl Hc.
  assert (Hen : isBackupEnabled cfg = true /\ isBackupOnWriteOnly cfg = false).
  { unfold isBackupOnDeleteEnabled, isBackupEnabled, isBackupOnWriteOnly in *.
    destruct (enableBackup cfg), (backupOnWriteOnly cfg); done. }
  destruct Hen as [Hen Hwo].
  pose proof (backup_ne_full (resolve cfg (ensureJsonExtension f)) _ Hne) as Hbf.
  enough (H : wp (deleteAll cfg f) (fun r1 w1 =>
     r1 = Ok (path_result (resolve cfg (ensureJsonExtension f))) /\
     w1.(w_faults) = [] /\ w1.(w_locks) = w.(w_locks) /\
     w1.(w_files) !! (resolve cfg (ensureJsonExtension f) ++ backupExtension cfg) = Some c) w).
  { unfold wp in H. destruct (deleteAll cfg f w) as [r1 w1]. destruct H as (-> & Hf1 & Hl1 & Hb1).
    pose proof (restoreFromBackup_run cfg f w1 Hf1 ltac:(rewrite Hl1; exact Hl)) as HR.
    destruct (restoreFromBackup cfg f w1) as [r2 w2]. rewrite Hb1 in HR.
    destruct HR as (Hl2 & _ & -> & ->). split_and!; try done.
    - rewrite lookup_insert_eq. done.
    - rewrite lookup_insert_ne by done. done.
    - congruence. }
  unfold deleteAll. cbv zeta.
  wps. apply wp_acquire_free; [done|]. cbv beta iota.
  wps. unfold fs_stat. wps. norm. rewrite Hc. cbv beta iota. wps.
  eapply wp_mono with (Q := fun r w1 => match r with
      | Ok _ => w1.(w_faults) = [] /\ w1.(w_locks) = resolve cfg (ensureJsonExtension f) :: w.(w_locks) /\
                w1.(w_files) = <[resolve cfg (ensureJsonExtension f) ++ backupExtension cfg := c]> w.(w_files)
      | Err _ => False end).
  { rewrite Hb. wps. unfold createBackupIfNeeded. rewrite Hen. wps.
    unfold fs_stat, fs_copyFile. wps. norm. rewrite Hc. cbv beta iota. wps. norm. rewrite Hc.
    cbv beta iota. norm. done. }
  intros [u|e] w1; [|done]. intros (Hf1 & Hl1 & Hfs1). cbv beta iota.
  apply wp_bind. apply wp_atomicWrite_plain; [done|exact Hwo|].
  intros w2 H2 Hfr2 Hl2 Hf2. cbv beta iota.
  unfold deleteIndexesForFile, fs_rm_rf. wps. norm. rewrite Hl2.
  rewrite Hl1. norm. rewrite filter_not_in by done. split_and!; try done.
  rewrite map_lookup_filter. rewrite Hfr2; [|done|intros n; apply backup_ne_tmp; exact Htmp].
  rewrite Hfs1, lookup_insert_eq. simpl. rewrite Hu. done.
Qed.

(** X15. Moving a collection to a free name and back leaves every file as
    before and restores the lock table. *)
Theorem moveFile_and_back cfg a b w c :
  let sa := resolve cfg (ensureJsonExtension a) in
  let sb := resolve cfg (ensureJsonExtension b) in
  w.(w_faults) = [] -> sa ∉ w.(w_locks) -> sb ∉ w.(w_locks) ->
  w.(w_files) !! sa = Some c -> w.(w_files) !! sb = None ->
  let '(r1, w1) := moveFile cfg a b w in
  let '(r2, w2) := moveFile cfg b a w1 in
  r1 = Ok (JObj [("source", JStr sa); ("target", JStr sb)]) /\
  r2 = Ok (JObj [("source", JStr sb); ("target", JStr sa)]) /\
  w2.(w_files) = w.(w_files) /\ w2.(w_locks) = w.(w_locks).
Proof.
  cbv zeta. intros Hf Hla Hlb Ha Hb.
  assert (Hne : resolve cfg (ensureJsonExtension a) <> resolve cfg (ensureJsonExtension b)) by congruence.
  pose proof (moveFile_run cfg a b w Hf Hla) as H1. destruct (moveFile cfg a b w) as [r1 w1].
  rewrite Ha in H1. destruct H1 as (Hl1 & Hf1 & -> & Hfs1).
  assert (Hlb1 : resolve cfg (ensureJsonExtension b) ∉ w1.(w_locks)) by (rewrite Hl1; done).
  pose proof (moveFile_run cfg b a w1 Hf1 Hlb1) as H2. destruct (moveFile cfg b a w1) as [r2 w2].
  rewrite Hfs1, lookup_insert_eq in H2. destruct H2 as (Hl2 & _ & -> & Hfs2).
  split_and!; try done; [|congruence].
  rewrite Hfs2, delete_insert_eq.
  rewrite delete_id by (rewrite lookup_delete_ne by done; exact Hb). apply insert_delete_id. done.
Qed.

Lemma filter_keep_all (p : jval -> bool) (l : list jval) :
  Forall (fun r => p r = true) l -> List.filter p l = l.
Proof. induction 1 as [|x l Hx _ IH]; simpl; [done|]. rewrite Hx, IH. done. Qed.

Lemma existsb_null_false data :
  existsb (fun r => match r with JNull => true | _ => false end) data = false ->
  Forall (fun r => r <> JNull) data.
Proof.
  induction data as [|x l IH]; simpl; intros H; constructor.
  - destruct x; done.
  - apply IH. apply orb_false_iff in H. apply H.
Qed.

Lemma filter_opt_read_id_null (p : string -> bool) data :
  existsb (fun r => match r with JNull => true | _ => false end) data = true ->
  filter_opt (fun r => p <$> read_id r) data = None.
Proof.
  induction data as [|x l IH]; simpl; [done|].
  destruct x; simpl; intros H; try done; rewrite IH by done; done.
Qed.


Lemma editAll_record_run r w :
  editAll_record r w =
  (if record_ok r
   then Ok (match field r "id" with
            | JUndef | JV JNull => r
            | v => JObj (set_prop (as_obj r) "id" (JStr (js_String_v v)))
            end)
   else Err (createXdbError OPERATION_FAILED), w).
Proof.
  unfold editAll_record, validateRecord, validateId, catch.
  destruct r as [| | | | |o]; try done. cbn [record_ok field].
  destruct (obj_get o "id") as [[| | | | |]| |]; cbn [js_String_v];
    try done; (destruct (String.eqb _ "")); done.
Qed.

Lemma mapM_editAll_record_run rs w :
  mapM editAll_record rs w =
  (if forallb record_ok rs
   then Ok (map (fun r => match field r "id" with
                          | JUndef | JV JNull => r
                          | v => JObj (set_prop (as_obj r) "id" (JStr (js_String_v v)))
                          end) rs)
   else Err (createXdbError OPERATION_FAILED), w).
Proof.
  induction rs as [|r rs IH]; [done|]. rewrite mapM_cons_run, editAll_record_run. cbn [forallb map].
  destruct (record_ok r); [|done]. rewrite IH. destruct (forallb record_ok rs); done.
Qed.


(** X19. edit.all with a single object writes the one-element array of that
    object as it is, without checking or converting its id. *)
Theorem editAll_single_object cfg f o w :
  let filePath := ensureJsonExtension f in
  let full := resolve cfg filePath in
  w.(w_faults) = [] -> full ∉ w.(w_locks) -> store_guard cfg full = true ->
  let '(r, w') := editAll cfg f (JObj o) w in
  r = Ok (path_result full) /\ w'.(w_files) !! full = Some (Text (JArr [JObj o])).
Proof.
  cbv zeta. intros Hf Hl Hg.
  apply wp_run. unfold editAll. cbv zeta.
  apply wp_bind, wp_catch. wps.
  apply wp_acquire_free; [done|]. wps.
  apply wp_backup_nf; [norm; congruence|]. intros w3 Hf3 Hl3 Hfs3. cbv beta iota.
  apply wp_bind. apply wp_atomicWrite_nf; [norm; congruence|].
  intros w4 t4 tmp4 H4 Hfr4 Hl4 Hf4 Ht4. cbv beta iota.
  apply wp_bind, wp_catch.
  eapply wp_stable with (R := keeps (resolve cfg (ensureJsonExtension f))).
  { apply keeps_rebuildIndexesForFile. done. }
  intros r5 w5 K5. destruct K5 as [Hw5 _]; [rewrite Hl4, Hl3; norm; left|].
  destruct r5; wps; norm; (split; [done|]); rewrite Hw5; exact H4.
Qed.

Lemma existsb_jstr_eq i l : existsb (jstr_eq i) l = true <-> JStr i ∈ l.
Proof.
  rewrite existsb_exists, list_elem_of_In. split.
  - intros [x [Hx Ex]]. destruct x; try done. apply String.eqb_eq in Ex. subst. done.
  - intros H. exists (JStr i). split; [done|]. simpl. apply String.eqb_refl.
Qed.

(** The entries of the index object built from the records [rs]. *)
Lemma build_index_spec rs fn acc :
  (forall k v, get_own acc k = Some v -> exists l, v = JArr l) ->
  Forall (fun r => exists o, r = JObj o /\
            match get_own o fn with
            | Some v => existsb (String.eqb (js_String v)) object_prototype_members = false
            | None => True end) rs ->
  exists acc', (forall w, build_index rs fn acc w = (Ok acc', w)) /\
    (forall k v, get_own acc' k = Some v -> exists l, v = JArr l) /\
    (forall k, existsb (String.eqb k) object_prototype_members = true -> get_own acc' k = get_own acc k) /\
    forall k,
      (NoDup (match get_own acc k with Some (JArr ids) => ids | _ => [] end) ->
       NoDup (match get_own acc' k with Some (JArr ids) => ids | _ => [] end)) /\
      forall x, x ∈ (match get_own acc' k with Some (JArr ids) => ids | _ => [] end) <->
        x ∈ (match get_own acc k with Some (JArr ids) => ids | _ => [] end) \/
        exists o v idv, JObj o ∈ rs /\ get_own o fn = Some v /\ js_String v = k /\
          get_own o "id" = Some idv /\ idv <> JNull /\ x = JStr (js_String idv).
Proof.
  revert acc. induction rs as [|r rs IH]; intros acc Harr Hrs.
  { exists acc. split_and!; try done. intros k. split; [done|]. intros x. split; [by left|].
    intros [H|(o & v & idv & Hin & _)]; [done|]. apply elem_of_nil in Hin. done. }
  apply Forall_cons in Hrs as [(o & -> & Ho) Hrs].
  assert (Hrest : forall acc1, (forall w, build_index (JObj o :: rs) fn acc w = build_index rs fn acc1 w) ->
    (forall k v, get_own acc1 k = Some v -> exists l, v = JArr l) ->
    (forall k, existsb (String.eqb k) object_prototype_members = true -> get_own acc1 k = get_own acc k) ->
    (forall k, (NoDup (match get_own acc k with Some (JArr ids) => ids | _ => [] end) ->
       NoDup (match get_own acc1 k with Some (JArr ids) => ids | _ => [] end)) /\
      forall x, x ∈ (match get_own acc1 k with Some (JArr ids) => ids | _ => [] end) <->
        x ∈ (match get_own acc k with Some (JArr ids) => ids | _ => [] end) \/
        (exists v idv, get_own o fn = Some v /\ js_String v = k /\
          get_own o "id" = Some idv /\ idv <> JNull /\ x = JStr (js_String idv))) ->
    exists acc', (forall w, build_index (JObj o :: rs) fn acc w = (Ok acc', w)) /\
    (forall k v, get_own acc' k = Some v -> exists l, v = JArr l) /\
    (forall k, existsb (String.eqb k) object_prototype_members = true -> get_own acc' k = get_own acc k) /\
    forall k,
      (NoDup (match get_own acc k with Some (JArr ids) => ids | _ => [] end) ->
       NoDup (match get_own acc' k with Some (JArr ids) => ids | _ => [] end)) /\
      forall x, x ∈ (match get_own acc' k with Some (JArr ids) => ids | _ => [] end) <->
        x ∈ (match get_own acc k with Some (JArr ids) => ids | _ => [] end) \/
        exists o' v idv, JObj o' ∈ JObj o :: rs /\ get_own o' fn = Some v /\ js_String v = k /\
          get_own o' "id" = Some idv /\ idv <> JNull /\ x = JStr (js_String idv)).
  { intros acc1 Hb Harr1 Hp1 Hk1.
    destruct (IH acc1 Harr1 Hrs) as (acc' & Hrun & Harr' & Hp' & Hk').
    exists acc'. split_and!.
    - intros w. rewrite Hb. apply Hrun.
    - exact Harr'.
    - intros k Hk. rewrite Hp', Hp1 by done. done.
    - intros k. destruct (Hk1 k) as [Hn1 Hm1]. destruct (Hk' k) as [Hn' Hm']. split; [auto|].
      intros x. rewrite Hm', Hm1. split.
      + intros [[H|(v & idv & H)]|(o' & v & idv & Hin & H)]; [by left|right|right].
        * exists o, v, idv. split; [left|done].
        * exists o', v, idv. split; [right; done|done].
      + intros [H|(o' & v & idv & Hin & H)]; [by left; left|].
        apply elem_of_cons in Hin as [[= ->]|Hin].
        * left. right. exists v, idv. done.
        * right. exists o', v, idv. done. }
  assert (Hid : field (JObj o) "id" = match get_own o "id" with Some idv => JV idv | None => JUndef end)
    by (unfold field, obj_get; destruct (get_own o "id"); done).
  destruct (get_own o fn) as [v|] eqn:Hv.
  2:{ apply (Hrest acc); [intros w; cbn [build_index]; rewrite Hv; done|done|done|].
      intros k. split; [done|]. intros x. split; [by left|].
      intros [H|(v & idv & [=] & _)]; done. }
  destruct (get_own o "id") as [idv|] eqn:Hi.
  2:{ apply (Hrest acc); [intros w; cbn [build_index]; rewrite Hv, Hid; done|done|done|].
      intros k. split; [done|]. intros x. split; [by left|].
      intros [H|(v' & idv & _ & _ & [=] & _)]; done. }
  destruct (jval_is_null idv) eqn:Hn.
  { apply (Hrest acc); [intros w; cbn [build_index]; rewrite Hv, Hid, Hn; done|done|done|].
    intros k. split; [done|]. intros x. split; [by left|].
    intros [H|(v' & idv' & _ & _ & [= <-] & Hne & _)]; [done|]. destruct idv; done. }
  assert (Hacc : match get_own acc (js_String v) with None | Some (JArr _) => True | _ => False end).
  { destruct (get_own acc (js_String v)) as [u|] eqn:Eu; [|done].
    destruct (Harr _ _ Eu) as [l ->]. done. }
  destruct (index_add_spec acc (js_String v) (js_String idv) Ho Hacc) as (d' & Hrun & Hd' & Hoth).
  apply (Hrest d').
  - intros w. cbn [build_index]. rewrite Hv, Hid, Hn. unfold mbind, M_bind. rewrite Hrun. done.
  - intros k u Hu. destruct (String.eqb_spec k (js_String v)) as [->|Hne].
    + rewrite Hd' in Hu. injection Hu as <-. eexists. reflexivity.
    + rewrite Hoth in Hu by done. apply (Harr _ _ Hu).
  - intros k Hk. apply Hoth. intros ->. rewrite Ho in Hk. done.
  - intros k. destruct (String.eqb_spec k (js_String v)) as [->|Hne].
    + rewrite Hd'. cbv zeta.
      destruct (existsb (jstr_eq (js_String idv)) _) eqn:Ex.
      * split; [done|]. intros x. split; [by left|]. intros [H|(v' & idv' & [= <-] & _ & [= <-] & _ & ->)]; [done|].
        apply existsb_jstr_eq. done.
      * split.
        -- intros Hnd. apply NoDup_app. split_and!; [done| |apply NoDup_singleton].
           intros x Hx ->%list_elem_of_singleton. apply not_true_iff_false in Ex. apply Ex.
           apply existsb_jstr_eq. done.
        -- intros x. rewrite elem_of_app, list_elem_of_singleton. split.
           ++ intros [H| ->]; [by left|]. right. exists v, idv. split_and!; try done.
              destruct idv; done.
           ++ intros [H|(v' & idv' & [= <-] & _ & [= <-] & _ & ->)]; [by left|by right].
    + rewrite Hoth by done. split; [done|]. intros x. split; [by left|].
      intros [H|(v' & idv' & [= <-] & Hk & _)]; [done|]. congruence.
Qed.



(* ------------------------------------------------------------------ *)
(** ** Concrete runs *)

(** Witness of C1: the cascade delete of user [u1]. *)
Lemma deleteRecordById_primary_write_last_witness :
  let cfg := rel_cfg "CASCADE" in
  let run := deleteRecordById cfg 3 "users" "u1" rel_world in
  String.prefix "/" cfg.(basePath) = true /\
  run = (Ok (JObj [("path", JStr "/db/users.json"); ("deletedId", JStr "u1")]), snd run) /\
  exists t1 tmp t2, (snd run).(w_trace) = (t1 ++ ERename tmp (resolve cfg (ensureJsonExtension "users")) :: t2)%list /\
    forall e q, e ∈ t2 -> q ∈ eff_targets e -> under (getIndexDirForFile cfg (ensureJsonExtension "users")) q = true.
Proof.
  cbv zeta.
  assert (Hb : String.prefix "/" (rel_cfg "CASCADE").(basePath) = true) by reflexivity.
  assert (Hr : deleteRecordById (rel_cfg "CASCADE") 3 "users" "u1" rel_world =
    (Ok (JObj [("path", JStr "/db/users.json"); ("deletedId", JStr "u1")]),
     snd (deleteRecordById (rel_cfg "CASCADE") 3 "users" "u1" rel_world))) by (vm_compute; reflexivity).
  split; [exact Hb|]. split; [exact Hr|].
  exact (deleteRecordById_primary_write_last (rel_cfg "CASCADE") 3 "users" "u1" rel_world _ _ Hb Hr).
Defined.

(** Counterexample to C1: the dependent [posts.json] is committed (trace
    step 10) before the primary [users.json] (trace step 18). *)
Lemma deleteRecordById_cascade_order :
  let '(r, w) := deleteRecordById (rel_cfg "CASCADE") 3 "users" "u1" rel_world in
  r = Ok (JObj [("path", JStr "/db/users.json"); ("deletedId", JStr "u1")]) /\
  w.(w_trace) !! 10%nat = Some (ERename "/db/posts.json.tmp0" "/db/posts.json") /\
  w.(w_trace) !! 18%nat = Some (ERename "/db/users.json.tmp1" "/db/users.json") /\
  w.(w_files) !! "/db/posts.json" = Some (Text (JArr [])).
Proof. vm_compute. split_and!; reflexivity. Qed.










(** Witness of C10: deleteAll on an empty store. *)
Lemma deleteAll_missing_noop_witness :
  let '(r, w') := deleteAll base_cfg "x" (world0 []) in
  r = Ok (path_result "/db/x.json") /\ w'.(w_files) = (world0 []).(w_files).
Proof.
  pose proof (deleteAll_missing_noop base_cfg "x" (world0 []) eq_refl (not_elem_of_nil _)) as H.
  destruct (deleteAll base_cfg "x" (world0 [])) as [r w'].
  vm_compute in H |- *. destruct H as [Hr [_ [Hw _]]]. split; assumption.
Defined.

(** Counterexample to C9: the write into the freshly opened temporary file
    fails, and so does the cleanup unlink; the failed call leaves the
    temporary file truncated in place. *)
Lemma atomicWrite_torn_tmp :
  let '(r, w) := atomicWrite base_cfg "a.json" (JArr []) aw_world in
  r = Err (createXdbError IO_ERROR) /\
  w.(w_trace) = [EMkdir "/db"; EOpen "/db/a.json.tmp0"; EClose "/db/a.json.tmp0"] /\
  w.(w_files) !! "/db/a.json.tmp0" = Some Torn.
Proof. vm_compute. split_and!; reflexivity. Qed.







(** Witness of X12. *)
Lemma restoreFromBackup_outcome_witness :
  let w := world0 [("/db/users.json", Text (JArr []));
                   ("/db/users.json.bak", Text (JArr [rec_of [("id", JStr "u1")]]))] in
  let full := resolve base_cfg (ensureJsonExtension "users") in
  let backupPath := full ++ base_cfg.(backupExtension) in
  let '(r, w') := restoreFromBackup base_cfg "users" w in
  w'.(w_locks) = w.(w_locks) /\
  match w.(w_files) !! backupPath with
  | None => r = Err (createXdbError FILE_NOT_FOUND) /\ w'.(w_files) = w.(w_files)
  | Some c => r = Ok (JObj [("path", JStr full); ("restoredFrom", JStr backupPath)]) /\
              w'.(w_files) = <[full := c]> w.(w_files)
  end.
Proof.
  intros w full backupPath. apply (restoreFromBackup_outcome base_cfg "users" w).
  - reflexivity.
  - apply not_elem_of_nil.
Defined.

(** Witness of X13. *)
Lemma deleteAll_restoreFromBackup_witness :
  let cfg := mkConfig "/db" true ".bak" false false false true [] [] in
  let c := Text (JArr [rec_of [("id", JStr "u1")]]) in
  let w := world0 [("/db/users.json", c)] in
  let full := resolve cfg (ensureJsonExtension "users") in
  let backupPath := full ++ cfg.(backupExtension) in
  let '(r1, w1) := deleteAll cfg "users" w in
  let '(r2, w2) := restoreFromBackup cfg "users" w1 in
  r1 = Ok (path_result full) /\
  r2 = Ok (JObj [("path", JStr full); ("restoredFrom", JStr backupPath)]) /\
  w2.(w_files) !! full = Some c /\ w2.(w_files) !! backupPath = Some c /\
  w2.(w_locks) = w.(w_locks).
Proof.
  intros cfg c w full backupPath. apply (deleteAll_restoreFromBackup cfg "users" w c).
  - reflexivity.
  - discriminate.
  - intros n H. vm_compute in H. discriminate.
  - reflexivity.
  - reflexivity.
  - apply not_elem_of_nil.
  - reflexivity.
Defined.

(** Witness of X14. *)
Lemma moveFile_outcome_witness :
  let w := world0 [("/db/a.json", Text (JArr [])); ("/db/b.json", Text (JArr [JNum 1]))] in
  let sfull := resolve base_cfg (ensureJsonExtension "a") in
  let tfull := resolve base_cfg (ensureJsonExtension "b") in
  let '(r, w') := moveFile base_cfg "a" "b" w in
  w'.(w_locks) = w.(w_locks) /\
  match w.(w_files) !! sfull with
  | None => r = Err (createXdbError FILE_NOT_FOUND) /\ w'.(w_files) = w.(w_files)
  | Some c => r = Ok (JObj [("source", JStr sfull); ("target", JStr tfull)]) /\
              w'.(w_files) = <[tfull := c]> (delete sfull w.(w_files))
  end.
Proof.
  intros w sfull tfull. apply (moveFile_outcome base_cfg "a" "b" w).
  - reflexivity.
  - apply not_elem_of_nil.
Defined.

(** Witness of X15. *)
Lemma moveFile_and_back_witness :
  let c := Text (JArr [JNum 1]) in
  let w := world0 [("/db/a.json", c)] in
  let sa := resolve base_cfg (ensureJsonExtension "a") in
  let sb := resolve base_cfg (ensureJsonExtension "b") in
  let '(r1, w1) := moveFile base_cfg "a" "b" w in
  let '(r2, w2) := moveFile base_cfg "b" "a" w1 in
  r1 = Ok (JObj [("source", JStr sa); ("target", JStr sb)]) /\
  r2 = Ok (JObj [("source", JStr sb); ("target", JStr sa)]) /\
  w2.(w_files) = w.(w_files) /\ w2.(w_locks) = w.(w_locks).
Proof.
  intros c w sa sb. apply (moveFile_and_back base_cfg "a" "b" w c).
  - reflexivity.
  - apply not_elem_of_nil.
  - apply not_elem_of_nil.
  - reflexivity.
  - reflexivity.
Defined.



(** Witness of X19. *)
Lemma editAll_single_object_witness :
  let o := [("n", JNum 1)] in
  let '(r, w') := editAll base_cfg "users" (JObj o) (world0 []) in
  r = Ok (path_result (resolve base_cfg (ensureJsonExtension "users"))) /\
  w'.(w_files) !! resolve base_cfg (ensureJsonExtension "users") = Some (Text (JArr [JObj o])).
Proof.
  intros o. apply (editAll_single_object base_cfg "users" o (world0 [])).
  - reflexivity.
  - apply not_elem_of_nil.
  - reflexivity.
Defined.

